(** * make_building_relations.py: OSM building parts joined into building relations

    A shallow embedding of [src/make_building_relations.py].  Python objects
    live in an explicit heap and are named by references, because the program
    shares them: a way holds its node objects, a relation its member objects,
    a building bucket the parts it will retag, and the three collections the
    very same objects again.  Methods become functions in a state-and-error
    monad over that heap. *)

From Stdlib Require Import ZArith Lia Ascii String DecimalString DecimalZ.
From stdpp Require Import base option list gmap strings.

Local Open Scope string_scope.
Local Open Scope list_scope.
Local Open Scope Z_scope.

(** ** Python values *)

(** The exceptions the program can raise.  [InvalidReference] has no Python
    counterpart: it is what dereferencing an address outside the heap gives,
    which no Python reference can do. *)
Inductive exn :=
  | KeyError
  | ValueError
  | AttributeError
  | UnboundLocalError
  | GeometryError
  | InvalidReference.

(** An [osm_id] is whatever the constructor was given: the parser passes the
    XML attribute (a string), [Nodes.add_new] passes [str(self._lowest_id)],
    [Ways.add_new] and [Relations.add_new] pass the integer itself. *)
Inductive pyid :=
  | IdStr (s : string)
  | IdInt (z : Z).

Global Instance pyid_eq_dec : EqDecision pyid.
Proof. solve_decision. Defined.

Definition pyid_to_sum (i : pyid) : string + Z :=
  match i with IdStr s => inl s | IdInt z => inr z end.

Definition pyid_of_sum (x : string + Z) : pyid :=
  match x with inl s => IdStr s | inr z => IdInt z end.

Global Instance pyid_countable : Countable pyid.
Proof.
  apply (inj_countable' pyid_to_sum pyid_of_sum).
  intros []; reflexivity.
Defined.

(** A reference to an object: its address in the heap. *)
Abbreviation loc := nat (only parsing).

(** What distinguishes the three classes. *)
Inductive body :=
  | BNode (lat lon : string)
  | BWay (nodes : list loc)
  | BRelation (members : list (loc * string)).

(** An instance of [Node], [Way] or [Relation]. *)
Record obj := Obj {
  osm_id : pyid;
  tags : gmap string string;
  obj_body : body;
}.

Global Instance body_eq_dec : EqDecision body.
Proof. solve_decision. Defined.

Global Instance obj_eq_dec : EqDecision obj.
Proof. solve_decision. Defined.

Definition Node (i : pyid) (lat lon : string) : obj := Obj i ∅ (BNode lat lon).
Definition Way (i : pyid) : obj := Obj i ∅ (BWay []).
Definition Relation (i : pyid) : obj := Obj i ∅ (BRelation []).

Definition isinstance_Node (o : obj) : bool :=
  match obj_body o with BNode _ _ => true | _ => false end.

Definition isinstance_Way (o : obj) : bool :=
  match obj_body o with BWay _ => true | _ => false end.

Definition isinstance_Relation (o : obj) : bool :=
  match obj_body o with BRelation _ => true | _ => false end.

Definition with_tags (f : gmap string string → gmap string string) (o : obj) : obj :=
  Obj (osm_id o) (f (tags o)) (obj_body o).

(** [str.lower()] on a byte string: only the letters A to Z change. *)
Definition lower_ascii (c : ascii) : ascii :=
  let n := nat_of_ascii c in
  if ((65 <=? n)%nat && (n <=? 90)%nat)%bool then ascii_of_nat (n + 32) else c.

Fixpoint lower (s : string) : string :=
  match s with
  | EmptyString => EmptyString
  | String c s' => String (lower_ascii c) (lower s')
  end.

(** What the clean-up loops of [close] do to the tags of one element, as a
    function of those tags. *)
Definition cleaned (t : gmap string string) : gmap string string :=
  match t !! "building", t !! "building:part" with
  | Some _, Some _ => delete "building:part" t
  | None, Some v => delete "building:part" (<["building" := lower v]> t)
  | _, None => t
  end.

(** ** The Python builtins and the Shapely calls the program relies on *)

(** A Shapely polygon, as far as the program looks at it: the coordinates of
    its exterior ring and of its interior rings, each pair being (x, y) =
    (lon, lat). *)
Record polygon (F : Type) := mkPolygon {
  exterior : list (F * F);
  interiors : list (list (F * F));
}.
Arguments mkPolygon {F} _ _.

Global Instance polygon_eq_dec {F} `{EqDecision F} : EqDecision (polygon F).
Proof. solve_decision. Defined.
Arguments exterior {F} _.
Arguments interiors {F} _.

(** What [cascaded_union] can hand back, seen through the two [isinstance]
    tests of [close]. *)
Inductive geometry (F : Type) :=
  | GPolygon (p : polygon F)
  | GMultiPolygon (ps : list (polygon F))
  | GOther.
Arguments GPolygon {F} _.
Arguments GMultiPolygon {F} _.
Arguments GOther {F}.

(** Floats are kept abstract: the program only converts them from and to
    strings and uses them as dictionary keys. *)
Class PyRuntime := {
  float : Type;
  float_eq_dec :: EqDecision float;
  float_countable :: Countable float;
  (** [float(s)], [None] standing for its [ValueError] *)
  float_of_str : string → option float;
  (** [str(x)] of a float *)
  str_of_float : float → string;
  (** [int(s)], [None] standing for its [ValueError] *)
  int_of_str : string → option Z;
  (** [str(z)] of an integer *)
  str_of_int : Z → string;
  int_of_str_of_int : ∀ z, int_of_str (str_of_int z) = Some z;
  float_of_str_of_float : ∀ x, is_Some (float_of_str (str_of_float x));
  (** [shapely.geometry.Polygon(points)] *)
  Polygon : list (float * float) → exn + polygon float;
  (** [list(shapely.ops.polygonize(lines))] *)
  polygonize : list (list (float * float)) → exn + list (polygon float);
  (** [shapely.ops.cascaded_union(polygons)] *)
  cascaded_union : list (polygon float) → exn + geometry float;
}.

(** [int(osm_id)] *)
Definition int_of_id `{PyRuntime} (i : pyid) : option Z :=
  match i with IdStr s => int_of_str s | IdInt z => Some z end.

(** ** The monad: a state, or the exception that ended the run *)

Definition M (St A : Type) : Type := St → exn + (A * St).

Definition ret {St A} (a : A) : M St A := λ s, inr (a, s).

Definition bind {St A B} (m : M St A) (k : A → M St B) : M St B :=
  λ s, match m s with
       | inl e => inl e
       | inr (a, s') => k a s'
       end.

Definition raise {St A} (e : exn) : M St A := λ _, inl e.

Definition gets {St A} (f : St → A) : M St A := λ s, inr (f s, s).

Definition modify {St} (f : St → St) : M St unit := λ s, inr (tt, f s).

Definition of_option {St A} (e : exn) (o : option A) : M St A :=
  match o with Some a => ret a | None => raise e end.

Definition of_sum {St A} (x : exn + A) : M St A :=
  match x with inl e => raise e | inr a => ret a end.

Declare Scope py_scope.
Delimit Scope py_scope with py.
Notation "'let*' x := m 'in' k" := (bind m (λ x, k))
  (at level 10, x name, m at level 100, k at level 200,
   format "'[v' 'let*'  x  :=  m  'in' '/' k ']'") : py_scope.
Notation "'let*' ' p := m 'in' k" := (bind m (λ x, match x with p => k end))
  (at level 10, p pattern, m at level 100, k at level 200) : py_scope.
Notation "'run' m 'in' k" := (bind m (λ _, k))
  (at level 10, m at level 100, k at level 200,
   format "'[v' 'run'  m  'in' '/' k ']'") : py_scope.

(** A [for] loop whose body can raise. *)
Fixpoint for_each {St A} (l : list A) (f : A → M St unit) : M St unit :=
  match l with
  | [] => ret tt
  | a :: l' => bind (f a) (λ _, for_each l' f)
  end.

(** A [for] loop that threads the local variables its body assigns. *)
Fixpoint for_fold {St A B} (l : list A) (b : B) (f : B → A → M St B) : M St B :=
  match l with
  | [] => ret b
  | a :: l' => bind (f b a) (λ b', for_fold l' b' f)
  end.

(** ** The collections and the parser target *)

Section Model.
Context `{R : PyRuntime}.

Record Nodes := mkNodes {
  nodes : gmap pyid loc;
  nodes_by_lat_lon : gmap (float * float) loc;
  nodes_lowest_id : Z;
}.

Record Ways := mkWays {
  _ways : gmap pyid loc;
  ways_lowest_id : Z;
}.

Record Relations := mkRelations {
  _relations : gmap pyid loc;
  relations_lowest_id : Z;
}.

(** The heap together with the attributes of [MakeBuildingRelations]
    ([output_file_name] plays no part before the file is written). *)
Record state := mkState {
  heap : list obj;
  st_nodes : Nodes;
  st_ways : Ways;
  st_relations : Relations;
  bldgs : gmap string (list loc);
  bldg_id_tag : string;
  primary_osm_element : option loc;
}.

Definition part_level_tags : list string := ["height"; "type"].
Definition bldg_and_part_level_tags : list string := ["building"].

(** [MakeBuildingRelations.__init__] *)
Definition init (bldg_id_tag : string) : state :=
  mkState [] (mkNodes ∅ ∅ (-1)) (mkWays ∅ (-1)) (mkRelations ∅ (-1)) ∅ bldg_id_tag None.

Definition set_heap (h : list obj) (s : state) : state :=
  mkState h (st_nodes s) (st_ways s) (st_relations s) (bldgs s) (bldg_id_tag s)
    (primary_osm_element s).
Definition set_nodes (n : Nodes) (s : state) : state :=
  mkState (heap s) n (st_ways s) (st_relations s) (bldgs s) (bldg_id_tag s)
    (primary_osm_element s).
Definition set_ways (w : Ways) (s : state) : state :=
  mkState (heap s) (st_nodes s) w (st_relations s) (bldgs s) (bldg_id_tag s)
    (primary_osm_element s).
Definition set_relations (r : Relations) (s : state) : state :=
  mkState (heap s) (st_nodes s) (st_ways s) r (bldgs s) (bldg_id_tag s)
    (primary_osm_element s).
Definition set_bldgs (b : gmap string (list loc)) (s : state) : state :=
  mkState (heap s) (st_nodes s) (st_ways s) (st_relations s) b (bldg_id_tag s)
    (primary_osm_element s).
Definition set_primary (p : option loc) (s : state) : state :=
  mkState (heap s) (st_nodes s) (st_ways s) (st_relations s) (bldgs s) (bldg_id_tag s) p.

Local Open Scope py_scope.

(** *** Objects on the heap *)

(** Calling a constructor: the new object goes to the end of the heap. *)
Definition new (o : obj) : M state loc :=
  λ s, inr (length (heap s), set_heap (heap s ++ [o]) s).

Definition deref (l : loc) : M state obj :=
  let* h := gets heap in
  of_option InvalidReference (h !! l).

Definition store (l : loc) (o : obj) : M state unit :=
  modify (λ s, set_heap (<[l := o]> (heap s)) s).

(** [Node.add_tag], [Way.add_tag], [Relation.add_tag] *)
Definition add_tag (l : loc) (key value : string) : M state unit :=
  let* o := deref l in
  store l (with_tags (insert key value) o).

(** [Way.delete_tag], [Relation.delete_tag]; [Node] has no such method, and
    [del] of a missing key raises. *)
Definition delete_tag (l : loc) (key : string) : M state unit :=
  let* o := deref l in
  match obj_body o with
  | BNode _ _ => raise AttributeError
  | _ =>
      match tags o !! key with
      | Some _ => store l (with_tags (delete key) o)
      | None => raise KeyError
      end
  end.

(** [Way.add_node] *)
Definition add_node (l : loc) (node : loc) : M state unit :=
  let* o := deref l in
  match obj_body o with
  | BWay ns => store l (Obj (osm_id o) (tags o) (BWay (ns ++ [node])))
  | _ => raise AttributeError
  end.

(** [Relation.add_member] *)
Definition add_member (l : loc) (osm_element : loc) (role : string) : M state unit :=
  let* o := deref l in
  match obj_body o with
  | BRelation ms => store l (Obj (osm_id o) (tags o) (BRelation (ms ++ [(osm_element, role)])))
  | _ => raise AttributeError
  end.

(** [way.nodes] *)
Definition get_nodes (o : obj) : M state (list loc) :=
  match obj_body o with BWay ns => ret ns | _ => raise AttributeError end.

(** [relation.members] *)
Definition get_members (o : obj) : M state (list (loc * string)) :=
  match obj_body o with BRelation ms => ret ms | _ => raise AttributeError end.

(** [(node.lat, node.lon)] *)
Definition get_lat_lon (o : obj) : M state (string * string) :=
  match obj_body o with BNode lat lon => ret (lat, lon) | _ => raise AttributeError end.

(** [float(s)] and [int(osm_id)] as steps of the program *)
Definition to_float (s : string) : M state float := of_option ValueError (float_of_str s).
Definition to_int (i : pyid) : M state Z := of_option ValueError (int_of_id i).

(** *** class Nodes *)

Definition upd_nodes (f : Nodes → Nodes) : M state unit :=
  modify (λ s, set_nodes (f (st_nodes s)) s).

(** [Nodes.add] *)
Definition Nodes_add (l : loc) : M state unit :=
  let* node := deref l in
  run upd_nodes (λ c, mkNodes (<[osm_id node := l]> (nodes c)) (nodes_by_lat_lon c)
                        (nodes_lowest_id c)) in
  let* ' (lat, lon) := get_lat_lon node in
  let* flat := to_float lat in
  let* flon := to_float lon in
  run upd_nodes (λ c, mkNodes (nodes c) (<[(flat, flon) := l]> (nodes_by_lat_lon c))
                        (nodes_lowest_id c)) in
  let* z := to_int (osm_id node) in
  let* lowest := gets (λ s, nodes_lowest_id (st_nodes s)) in
  if decide (z < lowest)
  then upd_nodes (λ c, mkNodes (nodes c) (nodes_by_lat_lon c) z)
  else ret tt.

(** [Nodes.add_new] *)
Definition Nodes_add_new (lat lon : string) : M state loc :=
  run upd_nodes (λ c, mkNodes (nodes c) (nodes_by_lat_lon c) (nodes_lowest_id c - 1)) in
  let* lowest := gets (λ s, nodes_lowest_id (st_nodes s)) in
  let* new_node := new (Node (IdStr (str_of_int lowest)) lat lon) in
  run Nodes_add new_node in
  ret new_node.

(** [Nodes.add_new_if_not_exist]; both callers pass strings, on which the
    [str(lat)] and [str(lon)] of the last line change nothing. *)
Definition Nodes_add_new_if_not_exist (lat lon : string) : M state loc :=
  let* flat := to_float lat in
  let* flon := to_float lon in
  let* index := gets (λ s, nodes_by_lat_lon (st_nodes s)) in
  match index !! (flat, flon) with
  | Some l => ret l
  | None => Nodes_add_new lat lon
  end.

(** [Nodes.__getitem__] *)
Definition Nodes_getitem (key : pyid) : M state loc :=
  let* c := gets st_nodes in
  of_option KeyError (nodes c !! key).

(** *** class Ways *)

Definition upd_ways (f : Ways → Ways) : M state unit :=
  modify (λ s, set_ways (f (st_ways s)) s).

(** [Ways.add] *)
Definition Ways_add (l : loc) : M state unit :=
  let* way := deref l in
  run upd_ways (λ c, mkWays (<[osm_id way := l]> (_ways c)) (ways_lowest_id c)) in
  let* z := to_int (osm_id way) in
  let* lowest := gets (λ s, ways_lowest_id (st_ways s)) in
  if decide (z < lowest)
  then upd_ways (λ c, mkWays (_ways c) z)
  else ret tt.

(** [Ways.add_new] *)
Definition Ways_add_new : M state loc :=
  run upd_ways (λ c, mkWays (_ways c) (ways_lowest_id c - 1)) in
  let* lowest := gets (λ s, ways_lowest_id (st_ways s)) in
  let* new_way := new (Way (IdInt lowest)) in
  run Ways_add new_way in
  ret new_way.

(** [Ways.__getitem__] *)
Definition Ways_getitem (key : pyid) : M state loc :=
  let* c := gets st_ways in
  of_option KeyError (_ways c !! key).

(** *** class Relations *)

Definition upd_relations (f : Relations → Relations) : M state unit :=
  modify (λ s, set_relations (f (st_relations s)) s).

(** [Relations.add] *)
Definition Relations_add (l : loc) : M state unit :=
  let* relation := deref l in
  run upd_relations (λ c, mkRelations (<[osm_id relation := l]> (_relations c))
                            (relations_lowest_id c)) in
  let* z := to_int (osm_id relation) in
  let* lowest := gets (λ s, relations_lowest_id (st_relations s)) in
  if decide (z < lowest)
  then upd_relations (λ c, mkRelations (_relations c) z)
  else ret tt.

(** [Relations.add_new] *)
Definition Relations_add_new : M state loc :=
  run upd_relations (λ c, mkRelations (_relations c) (relations_lowest_id c - 1)) in
  let* lowest := gets (λ s, relations_lowest_id (st_relations s)) in
  let* new_relation := new (Relation (IdInt lowest)) in
  run Relations_add new_relation in
  ret new_relation.

(** [Relations.__getitem__] *)
Definition Relations_getitem (key : pyid) : M state loc :=
  let* c := gets st_relations in
  of_option KeyError (_relations c !! key).

(** *** class MakeBuildingRelations *)

(** [attrib[key]] *)
Definition attr (attrib : gmap string string) (key : string) : M state string :=
  of_option KeyError (attrib !! key).

(** [self.primary_osm_element], about to be used as an object: on [None]
    every attribute access raises. *)
Definition the_primary : M state loc :=
  let* p := gets primary_osm_element in
  of_option AttributeError p.

(** [MakeBuildingRelations.start] *)
Definition start (tag : string) (attrib : gmap string string) : M state unit :=
  if decide (tag = "node") then
    let* i := attr attrib "id" in
    let* lat := attr attrib "lat" in
    let* lon := attr attrib "lon" in
    let* l := new (Node (IdStr i) lat lon) in
    modify (set_primary (Some l))
  else if decide (tag = "way") then
    let* i := attr attrib "id" in
    let* l := new (Way (IdStr i)) in
    modify (set_primary (Some l))
  else if decide (tag = "relation") then
    let* i := attr attrib "id" in
    let* l := new (Relation (IdStr i)) in
    modify (set_primary (Some l))
  else if decide (tag = "tag") then
    let* p := the_primary in
    let* k := attr attrib "k" in
    let* v := attr attrib "v" in
    add_tag p k v
  else if decide (tag = "nd") then
    let* p := the_primary in
    let* o := deref p in
    let* _ := get_nodes o in
    let* ref := attr attrib "ref" in
    let* node := Nodes_getitem (IdStr ref) in
    add_node p node
  else if decide (tag = "member") then
    let* ty := attr attrib "type" in
    let* element :=
      if decide (ty = "node") then
        let* ref := attr attrib "ref" in
        let* e := Nodes_getitem (IdStr ref) in ret (Some e)
      else if decide (ty = "way") then
        let* ref := attr attrib "ref" in
        let* e := Ways_getitem (IdStr ref) in ret (Some e)
      else if decide (ty = "relation") then
        let* ref := attr attrib "ref" in
        let* e := Relations_getitem (IdStr ref) in ret (Some e)
      else ret None in
    let* p := the_primary in
    let* o := deref p in
    let* _ := get_members o in
    let* element := of_option UnboundLocalError element in
    let* role := attr attrib "role" in
    add_member p element role
  else ret tt.

(** [MakeBuildingRelations.end] *)
Definition end_ (tag : string) : M state unit :=
  run (if decide (tag = "node") then
         let* p := the_primary in Nodes_add p
       else if decide (tag = "way") then
         let* p := the_primary in Ways_add p
       else if decide (tag = "relation") then
         let* p := the_primary in Relations_add p
       else ret tt) in
  if decide (tag = "way" ∨ tag = "relation") then
    let* p := the_primary in
    let* o := deref p in
    let* key := gets bldg_id_tag in
    match tags o !! key with
    | Some v =>
        modify (λ s, set_bldgs (<[v := default [] (bldgs s !! v) ++ [p]]> (bldgs s)) s)
    | None => ret tt
    end
  else ret tt.

(** The body of the two clean-up loops of [close] (the same for a way and
    for a relation). *)
Definition clean_building_tags (l : loc) : M state unit :=
  let* o := deref l in
  match tags o !! "building", tags o !! "building:part" with
  | Some _, Some _ => delete_tag l "building:part"
  | None, Some v =>
      run add_tag l "building" (lower v) in
      delete_tag l "building:part"
  | _, None => ret tt
  end.

(** The body of the loop both conversions below run over the nodes of a way:
    [points.append((float(node.lon), float(node.lat)))]. *)
Definition add_point (points : list (float * float)) (n : loc)
  : M state (list (float * float)) :=
  let* node := deref n in
  let* ' (lat, lon) := get_lat_lon node in
  let* x := to_float lon in
  let* y := to_float lat in
  ret (points ++ [(x, y)]).

Definition points_of_nodes (ns : list loc) : M state (list (float * float)) :=
  for_fold ns [] add_point.

(** [MakeBuildingRelations.way_to_polygon] *)
Definition way_to_polygon (way : loc) : M state (polygon float) :=
  let* w := deref way in
  let* ns := get_nodes w in
  let* points := points_of_nodes ns in
  of_sum (Polygon points).

(** [MakeBuildingRelations.relation_to_polygons] *)
Definition relation_to_polygons (relation : loc) : M state (list (polygon float)) :=
  let* r := deref relation in
  let* members := get_members r in
  let* lines := for_fold members [] (λ lines member,
    let* way := deref member.1 in
    let* ns := get_nodes way in
    let* points := points_of_nodes ns in
    ret (lines ++ [points])) in
  of_sum (polygonize lines).

(** [MakeBuildingRelations._points_to_way]; a point is (lon, lat). *)
Definition _points_to_way (points : list (float * float)) : M state loc :=
  let* way := Ways_add_new in
  run for_each points (λ point,
    let* node := Nodes_add_new_if_not_exist (str_of_float point.2) (str_of_float point.1) in
    add_node way node) in
  ret way.

(** [MakeBuildingRelations._simple_polygon_to_way] *)
Definition _simple_polygon_to_way (polygon : polygon float) : M state loc :=
  _points_to_way (exterior polygon).

(** [MakeBuildingRelations.add_polygon_to_relation] *)
Definition add_polygon_to_relation (polygon : polygon float) (relation : loc) : M state unit :=
  let* way := _points_to_way (exterior polygon) in
  run add_member relation way "outer" in
  for_each (interiors polygon) (λ linear_ring,
    let* way := _points_to_way linear_ring in
    add_member relation way "inner").

(** [MakeBuildingRelations._polygon_with_interior_to_relation] *)
Definition _polygon_with_interior_to_relation (polygon : polygon float) : M state loc :=
  let* relation := Relations_add_new in
  run add_tag relation "type" "multipolygon" in
  run add_polygon_to_relation polygon relation in
  ret relation.

(** [MakeBuildingRelations.convert_multipolygon] *)
Definition convert_multipolygon (multi : list (polygon float)) : M state loc :=
  let* relation := Relations_add_new in
  run add_tag relation "type" "multipolygon" in
  run for_each multi (λ polygon, add_polygon_to_relation polygon relation) in
  ret relation.

(** Lines 611 to 617 of [close]: the outline becomes an element.  [element]
    is a local variable of [close]; when the outline is neither a [Polygon]
    nor a [MultiPolygon] no branch assigns it and it keeps what an earlier
    bucket left there, if anything. *)
Definition outline_to_element (outline : geometry float) (element : option loc)
  : M state (option loc) :=
  match outline with
  | GPolygon p =>
      match interiors p with
      | [] => let* e := _simple_polygon_to_way p in ret (Some e)
      | _ :: _ => let* e := _polygon_with_interior_to_relation p in ret (Some e)
      end
  | GMultiPolygon ps => let* e := convert_multipolygon ps in ret (Some e)
  | GOther => ret element
  end.

(** Lines 623 to 627 of [close]: the body of the loop over the tags of a
    part, [kv] being the pair [(key, value)]. *)
Definition copy_tag (element : loc) (tags_to_delete : list string) (kv : string * string)
  : M state (list string) :=
  let key := kv.1 in
  let value := kv.2 in
  run (if decide (key ∉ part_level_tags) then add_tag element key value
       else ret tt) in
  ret (if decide ((key ∉ part_level_tags) ∧ key ∉ bldg_and_part_level_tags)
       then tags_to_delete ++ [key] else tags_to_delete).

(** Lines 621 to 632 of [close]: the tags of one part move to the outline.
    The loop reads [bldg_part.tags] while [element.add_tag] writes; were the
    two the same object, every write would store a key with the value it
    already has, so reading the tags once beforehand is the same. *)
Definition propagate_tags (element bldg_part : loc) : M state unit :=
  let* o := deref bldg_part in
  let* tags_to_delete := for_fold (map_to_list (tags o)) [] (copy_tag element) in
  run for_each tags_to_delete (delete_tag bldg_part) in
  let* o' := deref bldg_part in
  match tags o' !! "building" with
  | Some v =>
      run add_tag bldg_part "building:part" v in
      delete_tag bldg_part "building"
  | None => ret tt
  end.

(** Lines 604 to 608 of [close]: the polygons of all the parts. *)
Definition collect_polygons (parts : list loc) : M state (list (polygon float)) :=
  for_fold parts [] (λ polygons bldg_part,
    let* o := deref bldg_part in
    if isinstance_Way o then
      let* p := way_to_polygon bldg_part in ret (polygons ++ [p])
    else
      let* ps := relation_to_polygons bldg_part in ret (polygons ++ ps)).

(** Lines 611 to 618 of [close]: the outline is encoded and joins the
    building relation. *)
Definition add_outline (bldg_relation : loc) (outline : geometry float)
    (element : option loc) : M state loc :=
  let* element := outline_to_element outline element in
  let* element := of_option UnboundLocalError element in
  run add_member bldg_relation element "outline" in
  ret element.

(** Lines 620 to 633 of [close]: the loop over the parts. *)
Definition retag_parts (bldg_relation element : loc) (parts : list loc) : M state unit :=
  for_each parts (λ bldg_part,
    run propagate_tags element bldg_part in
    add_member bldg_relation bldg_part "part").

(** Lines 600 to 633 of [close]: the body of the loop over the buckets. *)
Definition build_relation (element : option loc) (parts : list loc) : M state (option loc) :=
  if decide (1 < length parts)%nat then
    let* bldg_relation := Relations_add_new in
    run add_tag bldg_relation "type" "building" in
    let* polygons := collect_polygons parts in
    let* outline := of_sum (cascaded_union polygons) in
    let* element := add_outline bldg_relation outline element in
    run retag_parts bldg_relation element parts in
    ret (Some element)
  else ret element.

(** The first half of [close]: the clean-up of the building tags. *)
Definition clean_up : M state unit :=
  let* ws := gets (λ s, (map_to_list (_ways (st_ways s))).*2) in
  run for_each ws clean_building_tags in
  let* rs := gets (λ s, (map_to_list (_relations (st_relations s))).*2) in
  for_each rs clean_building_tags.

(** The second half of [close]: the loop over the buckets. *)
Definition build_relations : M state (option loc) :=
  let* buckets := gets (λ s, (map_to_list (bldgs s)).*2) in
  for_fold buckets None build_relation.

(** [MakeBuildingRelations.close], up to the point where the output file is
    opened; what is written afterwards is the final state, read only. *)
Definition close : M state unit :=
  run clean_up in
  let* _ := build_relations in
  ret tt.



(** *** What the loops of [close] compute, as functions of the tags *)

(** The tags of the outline after the loop over the tags [kvs] of a part. *)
Definition copy_list (kvs : list (string * string)) (t : gmap string string)
  : gmap string string :=
  foldl (λ t kv, if decide (kv.1 ∉ part_level_tags) then <[kv.1 := kv.2]> t else t) t kvs.

(** The keys that loop collects in [tags_to_delete]. *)
Definition to_delete (kvs : list (string * string)) : list string :=
  (filter (λ kv, (kv.1 ∉ part_level_tags) ∧ kv.1 ∉ bldg_and_part_level_tags) kvs).*1.

Definition delete_list (ks : list string) (t : gmap string string) : gmap string string :=
  foldl (λ t k, delete k t) t ks.

(** The tags of a part once its tags have been propagated. *)
Definition retagged (t : gmap string string) : gmap string string :=
  let t' := delete_list (to_delete (map_to_list t)) t in
  match t' !! "building" with
  | Some v => delete "building" (<["building:part" := v]> t')
  | None => t'
  end.

(** The heap after the clean-up loop over the elements [ls]. *)
Definition clean_all (ls : list loc) (h : list obj) : list obj :=
  foldl (λ h l, alter (with_tags cleaned) l h) h ls.

(** The node object at [n] lies at the point [pt] = (lon, lat). *)
Definition node_at (s : state) (n : loc) (pt : float * float) : Prop :=
  ∃ o lat lon, heap s !! n = Some o ∧ obj_body o = BNode lat lon
    ∧ float_of_str lon = Some pt.1 ∧ float_of_str lat = Some pt.2.

(** *** The parser driving its target *)

(** What [XMLParser] tells its target, in document order. *)
Inductive event :=
  | Start (tag : string) (attrib : list (string * string))
  | End (tag : string).

Definition handle (e : event) : M state unit :=
  match e with
  | Start tag attrib => start tag (list_to_map attrib)
  | End tag => end_ tag
  end.

(** [parser.feed(...)] followed by [parser.close()], as [main] does. *)
Definition feed_and_close (doc : list event) : M state unit :=
  run for_each doc handle in
  close.

(** The events of one element of an OSM file. *)
Definition xml_node (i lat lon : string) (tgs : list (string * string)) : list event :=
  Start "node" [("id", i); ("lat", lat); ("lon", lon)]
  :: ((λ kv, Start "tag" [("k", kv.1); ("v", kv.2)]) <$> tgs) ++ [End "node"].

Definition xml_way (i : string) (nds : list string) (tgs : list (string * string))
  : list event :=
  Start "way" [("id", i)]
  :: ((λ n, Start "nd" [("ref", n)]) <$> nds)
  ++ ((λ kv, Start "tag" [("k", kv.1); ("v", kv.2)]) <$> tgs) ++ [End "way"].

(** *** The three collections side by side *)

Inductive kind := KNode | KWay | KRelation.

Global Instance kind_eq_dec : EqDecision kind.
Proof. solve_decision. Defined.

(** The dictionary of a collection and its [_lowest_id]. *)
Definition items (k : kind) (s : state) : gmap pyid loc :=
  match k with
  | KNode => nodes (st_nodes s)
  | KWay => _ways (st_ways s)
  | KRelation => _relations (st_relations s)
  end.

Definition lowest_id (k : kind) (s : state) : Z :=
  match k with
  | KNode => nodes_lowest_id (st_nodes s)
  | KWay => ways_lowest_id (st_ways s)
  | KRelation => relations_lowest_id (st_relations s)
  end.

(** [add] and [add_new] of the collection of a kind; only [Nodes.add_new]
    takes the coordinates. *)
Definition add (k : kind) (l : loc) : M state unit :=
  match k with
  | KNode => Nodes_add l
  | KWay => Ways_add l
  | KRelation => Relations_add l
  end.

Definition add_new (k : kind) (lat lon : string) : M state loc :=
  match k with
  | KNode => Nodes_add_new lat lon
  | KWay => Ways_add_new
  | KRelation => Relations_add_new
  end.

(** The object [add_new] constructs for the identifier [z]. *)
Definition new_element (k : kind) (z : Z) (lat lon : string) : obj :=
  match k with
  | KNode => Node (IdStr (str_of_int z)) lat lon
  | KWay => Way (IdInt z)
  | KRelation => Relation (IdInt z)
  end.

(** *** Looking at the outcome of a run *)

(** The value a run returns; [None] if it raised. *)
Definition value_of {A} (r : exn + (A * state)) : option A :=
  match r with
  | inr (a, _) => Some a
  | inl _ => None
  end.


(** The object a run leaves at an address; [None] if the run raised or the
    address is not in use. *)
Definition object_of {A} (r : exn + (A * state)) (l : loc) : option obj :=
  match r with
  | inr (_, s) => heap s !! l
  | inl _ => None
  end.

(** The value of a tag of that object, [Some None] if it has no such tag. *)
Definition tag_of {A} (r : exn + (A * state)) (l : loc) (key : string)
  : option (option string) :=
  (λ o, tags o !! key) <$> object_of r l.

(** The element a collection holds under an identifier after the run. *)
Definition element_of {A} (r : exn + (A * state)) (k : kind) (i : pyid)
  : option (option loc) :=
  match r with
  | inr (_, s) => Some (items k s !! i)
  | inl _ => None
  end.

(** The bucket of a join-tag value after the run. *)
Definition bucket_of {A} (r : exn + (A * state)) (v : string) : option (option (list loc)) :=
  match r with
  | inr (_, s) => Some (bldgs s !! v)
  | inl _ => None
  end.

(** What [add] of the collection of a kind needs of the element itself: an
    identifier [int] accepts and, for a node, coordinates [float] accepts. *)
Definition can_add (k : kind) (o : obj) : Prop :=
  is_Some (int_of_id (osm_id o))
  ∧ (k = KNode →
     ∃ lat lon, obj_body o = BNode lat lon
       ∧ is_Some (float_of_str lat) ∧ is_Some (float_of_str lon)).

(** The methods of the data model, as a client can call them one after the
    other. *)
Inductive api_call :=
  | CallConstructor (o : obj)
  | CallAddTag (l : loc) (key value : string)
  | CallDeleteTag (l : loc) (key : string)
  | CallAddNode (l node : loc)
  | CallAddMember (l osm_element : loc) (role : string)
  | CallAdd (k : kind) (l : loc)
  | CallAddNew (k : kind) (lat lon : string)
  | CallAddNewIfNotExist (lat lon : string).

Definition call (c : api_call) : M state unit :=
  match c with
  | CallConstructor o => let* _ := new o in ret tt
  | CallAddTag l key value => add_tag l key value
  | CallDeleteTag l key => delete_tag l key
  | CallAddNode l node => add_node l node
  | CallAddMember l e role => add_member l e role
  | CallAdd k l => add k l
  | CallAddNew k lat lon => let* _ := add_new k lat lon in ret tt
  | CallAddNewIfNotExist lat lon => let* _ := Nodes_add_new_if_not_exist lat lon in ret tt
  end.

(** The identifiers in use in a collection, as integers, and the lowest of
    them and of the initial [-1]. *)
Definition ids_in_use (k : kind) (s : state) : list Z :=
  omap int_of_id (map_to_list (items k s)).*1.

Definition lowest_in_use (k : kind) (s : state) : Z :=
  foldr Z.min (-1) (ids_in_use k s).

(** What holds of the collection of a kind at every moment: the lowest
    identifier is at most -1 and below no identifier of the collection, it is
    -1 or one of them, and every element is held under its own identifier. *)
Definition ids_inv (k : kind) (s : state) : Prop :=
  (lowest_id k s ≤ -1)%Z
  ∧ (∀ i l, items k s !! i = Some l → ∃ o, heap s !! l = Some o ∧ osm_id o = i)
  ∧ (∀ i, is_Some (items k s !! i) → ∃ z, int_of_id i = Some z ∧ (lowest_id k s ≤ z)%Z)
  ∧ (lowest_id k s = -1
     ∨ ∃ i, is_Some (items k s !! i) ∧ int_of_id i = Some (lowest_id k s)).

(** What one method call can do to the identifiers: the objects keep theirs,
    and a collection stays as it is or takes one element under its
    identifier. *)
Definition evolves (s s' : state) : Prop :=
  (∀ l o, heap s !! l = Some o → ∃ o', heap s' !! l = Some o' ∧ osm_id o' = osm_id o)
  ∧ ∀ k, (items k s' = items k s ∧ lowest_id k s' = lowest_id k s)
       ∨ ∃ l o z, heap s' !! l = Some o ∧ int_of_id (osm_id o) = Some z
           ∧ items k s' = <[osm_id o := l]> (items k s)
           ∧ lowest_id k s' = Z.min z (lowest_id k s).

(** *** What a run leaves alone *)

(** Between [s] and [s'] the heap has not shrunk, the buckets and the join
    tag are the same, and the objects at the addresses below [n] that [P]
    protects are the same. *)
Definition unchanged_on (n : nat) (P : loc → Prop) (s s' : state) : Prop :=
  (length (heap s) ≤ length (heap s'))%nat
  ∧ bldgs s' = bldgs s ∧ bldg_id_tag s' = bldg_id_tag s
  ∧ ∀ l, (l < n)%nat → P l → heap s' !! l = heap s !! l.

(** An address the run may write to: a new one, or one [P] does not protect. *)
Definition writable (n : nat) (P : loc → Prop) (l : loc) : Prop :=
  (n ≤ l)%nat ∨ ¬ P l.

(** Started on a heap of at least [n] objects, [m] leaves the protected
    objects alone whenever it returns, and what it returns satisfies [Q]. *)
Definition safe {A} (n : nat) (P : loc → Prop) (m : M state A) (Q : A → Prop) : Prop :=
  ∀ s a s', (n ≤ length (heap s))%nat → m s = inr (a, s') → unchanged_on n P s s' ∧ Q a.


(** The dictionary key [add_new_if_not_exist] looks a request up under. *)
Definition lat_lon_key (r : string * string) : option (float * float) :=
  match float_of_str r.1, float_of_str r.2 with
  | Some x, Some y => Some (x, y)
  | _, _ => None
  end.


(** The dictionary key of the node [_points_to_way] asks for at a point. *)
Definition point_key (pt : float * float) : option (float * float) :=
  lat_lon_key (str_of_float pt.2, str_of_float pt.1).



End Model.

(** ** A runtime to evaluate the program with

    Coordinates are whole numbers written in decimal, and the three Shapely
    calls are stand-ins that agree with Shapely where the examples below use
    them: [Polygon] closes an open ring and refuses fewer than three points,
    [polygonize] keeps the lines that are closed rings already, and the union
    of polygons that do not touch is the collection of them. *)

Definition Z_of_string (s : string) : option Z :=
  Z.of_int <$> NilZero.int_of_string s.

Definition string_of_Z (z : Z) : string :=
  NilZero.string_of_int (Z.to_int z).

Lemma Z_of_string_of_Z z : Z_of_string (string_of_Z z) = Some z.
Proof.
  unfold Z_of_string, string_of_Z.
  rewrite NilZero.isi.
  - simpl. f_equal. apply DecimalZ.of_to.
  - destruct z; simpl; try discriminate.
    intros [= Hp]. by apply DecimalPos.Unsigned.to_uint_nonnil in Hp.
  - destruct z; simpl; try discriminate.
    intros [= Hp]. by apply DecimalPos.Unsigned.to_uint_nonnil in Hp.
Qed.

Definition close_ring (points : list (Z * Z)) : list (Z * Z) :=
  match points, last points with
  | p :: _, Some q => if decide (p = q) then points else points ++ [p]
  | _, _ => points
  end.

Definition is_ring (points : list (Z * Z)) : bool :=
  bool_decide (3 < length points)%nat && bool_decide (head points = last points).

Definition toy_Polygon (points : list (Z * Z)) : exn + polygon Z :=
  if decide (length points < 3)%nat then inl ValueError
  else inr (mkPolygon (close_ring points) []).

Definition toy_polygonize (lines : list (list (Z * Z))) : exn + list (polygon Z) :=
  inr ((λ ring, mkPolygon ring []) <$> filter (λ line, is_ring line = true) lines).

Definition toy_cascaded_union (polygons : list (polygon Z)) : exn + geometry Z :=
  match polygons with
  | [] => inr GOther
  | [p] => inr (GPolygon p)
  | _ => inr (GMultiPolygon polygons)
  end.

Definition toy_runtime : PyRuntime := {|
  float := Z;
  float_of_str := Z_of_string;
  str_of_float := string_of_Z;
  int_of_str := Z_of_string;
  str_of_int := string_of_Z;
  int_of_str_of_int := Z_of_string_of_Z;
  float_of_str_of_float := λ x, ex_intro _ x (Z_of_string_of_Z x);
  Polygon := toy_Polygon;
  polygonize := toy_polygonize;
  cascaded_union := toy_cascaded_union;
|}.

(** ** Inputs to evaluate the program on *)

(** The state the parser leaves behind before [close] runs. *)
Definition loaded (join : string) (doc : list event) : state (R := toy_runtime) :=
  match for_each doc handle (init join) with
  | inr (_, s) => s
  | inl _ => init join
  end.

(** The state a run of method calls reaches from the empty collections. *)
Definition reached (join : string) (calls : list api_call) : state (R := toy_runtime) :=
  match for_each calls call (init join) with
  | inr (_, s) => s
  | inl _ => init join
  end.

(** Two squares that do not touch, as nodes 1 to 4 and 5 to 8. *)
Definition two_squares : list event :=
  xml_node "1" "0" "0" [] ++ xml_node "2" "0" "1" [] ++ xml_node "3" "1" "1" []
  ++ xml_node "4" "1" "0" [] ++ xml_node "5" "5" "5" [] ++ xml_node "6" "5" "6" []
  ++ xml_node "7" "6" "6" [] ++ xml_node "8" "6" "5" [].

(** Two building parts over them, with the tags [tgs1] and [tgs2]. *)
Definition two_parts (tgs1 tgs2 : list (string * string)) : list event :=
  two_squares ++ xml_way "10" ["1"; "2"; "3"; "4"; "1"] tgs1
  ++ xml_way "11" ["5"; "6"; "7"; "8"; "5"] tgs2.

(** A part with the tags of the worked example, at address 0, and a fresh
    outline way at address 1. *)
Definition dome_state : state (R := toy_runtime) :=
  mkState
    [ Obj (IdStr "10")
        (list_to_map [("height", "10"); ("building", "yes"); ("roof:shape", "dome")])
        (BWay []);
      Way (IdInt (-2)) ]
    (mkNodes ∅ ∅ (-1))
    (mkWays (list_to_map [(IdStr "10", 0%nat); (IdInt (-2), 1%nat)]) (-2))
    (mkRelations ∅ (-1)) ∅ "bid" None.

(** The two parts tagged as in a typical input: a join tag [bid], one part
    with only [building:part], the other with [building]. *)
Definition parts_doc : list event :=
  two_parts [("bid", "B1"); ("building:part", "Yes"); ("height", "5")]
            [("bid", "B1"); ("building", "yes"); ("roof:shape", "dome")].

(** The two parts joined by the tag [building:part] itself. *)
Definition building_part_doc : list event :=
  two_parts [("building:part", "yes"); ("height", "5")] [("building:part", "yes")].

(** A way that is not closed: three corners of a square. *)
Definition open_way_doc : list event :=
  xml_node "1" "0" "0" [] ++ xml_node "2" "0" "1" [] ++ xml_node "3" "1" "1" []
  ++ xml_way "10" ["1"; "2"; "3"] [].

(** Two nodes with the identifier 1 and two ways with the identifier 7. *)
Definition duplicates_doc : list event :=
  xml_node "1" "0" "0" [] ++ xml_node "1" "5" "5" []
  ++ xml_way "7" ["1"] [("name", "first")] ++ xml_way "7" ["1"] [("name", "second")].

(** The two parts of bucket B1 and a third way, alone in bucket B2. *)
Definition three_parts_doc : list event :=
  parts_doc
  ++ xml_way "12" ["1"; "2"; "3"; "4"; "1"] [("bid", "B2"); ("building:part", "Roof")].



(** A building relation without members yet, alone in the collections. *)
Definition relation_state : state (R := toy_runtime) :=
  mkState [Obj (IdInt (-2)) {["type" := "building"]} (BRelation [])]
    (mkNodes ∅ ∅ (-1)) (mkWays ∅ (-1))
    (mkRelations {[IdInt (-2) := 0%nat]} (-2)) ∅ "bid" None.

(** A square, a square with a square courtyard, and a square far from both. *)
Definition square : polygon Z :=
  mkPolygon [(0, 0); (0, 3); (3, 3); (3, 0); (0, 0)] [].
Definition courtyard : polygon Z :=
  mkPolygon [(0, 0); (0, 3); (3, 3); (3, 0); (0, 0)]
    [[(1, 1); (1, 2); (2, 2); (2, 1); (1, 1)]].
Definition annex : polygon Z :=
  mkPolygon [(5, 5); (5, 6); (6, 6); (6, 5); (5, 5)] [].

(** ** The collections and the loops of [close], seen from their callers *)

Section Lookup.
Context `{R : PyRuntime}.

(** [__getitem__] of the collection of a kind. *)
Definition getitem (k : kind) (key : pyid) : M state loc :=
  match k with
  | KNode => Nodes_getitem key
  | KWay => Ways_getitem key
  | KRelation => Relations_getitem key
  end.

(** The value of the tag [k] the loop over the parts leaves on the outline,
    [r] being its value before: each part that carries [k], a key that is not
    part-only, overwrites it in turn.  [t p] are the tags of the part [p]. *)
Definition outline_tag (t : loc → option (gmap string string)) (k : string)
    (r : option string) (parts : list loc) : option string :=
  foldl (λ r p, match t p with
                | Some tp => match tp !! k with
                             | Some v => if decide (k ∉ part_level_tags) then Some v else r
                             | None => r
                             end
                | None => r
                end) r parts.

(** The way object at [m] has its nodes at the points of [line]. *)
Definition way_along (s : state) (m : loc) (line : list (float * float)) : Prop :=
  ∃ w ns, heap s !! m = Some w ∧ obj_body w = BWay ns ∧ Forall2 (node_at s) ns line.

End Lookup.

(** ** What holds of every state the program reaches *)

Section Invariant.
Context `{R : PyRuntime}.

(** The element at [l] is listed in the collection of the kind [k]: the
    collection holds an element under the identifier of the object at [l]
    (that very object, unless a later one with the same identifier has taken
    its place). *)
Definition listed (k : kind) (s : state) (l : loc) : Prop :=
  ∃ o, heap s !! l = Some o ∧ is_Some (items k s !! osm_id o).

(** The object at [n] is a node that has coordinates [float] accepts and is
    listed among the nodes. *)
Definition readable_node (s : state) (n : loc) : Prop :=
  (∃ pt, node_at s n pt) ∧ listed KNode s n.

(** What an object refers to is there: the nodes of a way are readable nodes,
    the members of a relation are objects. *)
Definition body_ok (s : state) (o : obj) : Prop :=
  match obj_body o with
  | BNode _ _ => True
  | BWay ns => Forall (readable_node s) ns
  | BRelation ms => Forall (λ m, m < length (heap s))%nat ms.*1
  end.

(** The state is consistent: every collection holds its elements under their
    own identifiers, which [int] accepts and which are not below the lowest
    identifier the collection has recorded, itself at most -1; the nodes of
    the collection have coordinates [float] accepts, and the index by
    coordinates leads to a listed node that lies at those coordinates; the
    objects refer to what is there; and so do the buckets and the parser's
    current element. *)
Definition wf (s : state) : Prop :=
  (∀ k i l, items k s !! i = Some l →
     ∃ o z, heap s !! l = Some o ∧ osm_id o = i ∧ int_of_id i = Some z ∧ lowest_id k s ≤ z)
  ∧ (∀ k, lowest_id k s ≤ -1)
  ∧ (∀ i l, nodes (st_nodes s) !! i = Some l → ∃ pt, node_at s l pt)
  ∧ (∀ κ l, nodes_by_lat_lon (st_nodes s) !! κ = Some l →
       node_at s l (κ.2, κ.1) ∧ listed KNode s l)
  ∧ (∀ l o, heap s !! l = Some o → body_ok s o)
  ∧ (∀ v parts, bldgs s !! v = Some parts → Forall (λ p, p < length (heap s))%nat parts)
  ∧ (∀ p, primary_osm_element s = Some p → (p < length (heap s))%nat).

(** From [s] to [s'] nothing has been taken away: every object is still
    there, with its identifier and its class, a node with its coordinates, a
    way with the nodes it had and a relation with the members it had, in
    front of any it has gained; every collection still holds something under
    each identifier it held, the index under each pair of coordinates, and
    every bucket the members it had, in front of any it has gained; the join
    tag is the same. *)
Definition grows (s s' : state) : Prop :=
  (∀ l o, heap s !! l = Some o →
     ∃ o', heap s' !! l = Some o' ∧ osm_id o' = osm_id o
       ∧ match obj_body o with
         | BNode lat lon => obj_body o' = BNode lat lon
         | BWay ns => ∃ more, obj_body o' = BWay (ns ++ more)
         | BRelation ms => ∃ more, obj_body o' = BRelation (ms ++ more)
         end)
  ∧ (∀ k i, is_Some (items k s !! i) → is_Some (items k s' !! i))
  ∧ (∀ κ, is_Some (nodes_by_lat_lon (st_nodes s) !! κ)
        → is_Some (nodes_by_lat_lon (st_nodes s') !! κ))
  ∧ (∀ v parts, bldgs s !! v = Some parts → ∃ more, bldgs s' !! v = Some (parts ++ more))
  ∧ bldg_id_tag s' = bldg_id_tag s.

(** The object [o'] can take the place of [o]: the same identifier, the same
    class, the same coordinates for a node, and for a way or a relation the
    nodes or members of [o], in front of any more, which are there in [s]. *)
Definition extends (s : state) (o o' : obj) : Prop :=
  osm_id o' = osm_id o
  ∧ match obj_body o with
    | BNode lat lon => obj_body o' = BNode lat lon
    | BWay ns => ∃ more, obj_body o' = BWay (ns ++ more) ∧ Forall (readable_node s) more
    | BRelation ms =>
        ∃ more, obj_body o' = BRelation (ms ++ more)
          ∧ Forall (λ m, m < length (heap s))%nat more.*1
    end.

(** Started in a consistent state where [P] holds, [m] ends, whenever it
    returns, in a consistent state that has only grown, and [Q] holds of what
    it returns and of that state. *)
Definition keeps {A} (P : state → Prop) (m : M state A) (Q : A → state → Prop) : Prop :=
  ∀ s a s', wf s → P s → m s = inr (a, s') → wf s' ∧ grows s s' ∧ Q a s'.

(** A fact no growth undoes. *)
Definition stable (F : state → Prop) : Prop := ∀ s s', grows s s' → F s → F s'.

(** The address is in use. *)
Definition in_heap (l : loc) (s : state) : Prop := (l < length (heap s))%nat.

(** From [s] to [s'] the objects at the addresses below [n] have been left
    alone but for the tags of ways and relations: each has its identifier and
    its body, a node also its tags; no entry of a collection or of the index by
    coordinates has been removed or replaced; the buckets and the parser's
    current element are the same; the heap has not shrunk. *)
Definition undisturbed (n : nat) (s s' : state) : Prop :=
  (length (heap s) ≤ length (heap s'))%nat
  ∧ (∀ l o, (l < n)%nat → heap s !! l = Some o →
       ∃ o', heap s' !! l = Some o' ∧ osm_id o' = osm_id o ∧ obj_body o' = obj_body o
         ∧ (isinstance_Node o = true → tags o' = tags o))
  ∧ (∀ k i l, items k s !! i = Some l → items k s' !! i = Some l)
  ∧ (∀ κ l, nodes_by_lat_lon (st_nodes s) !! κ = Some l
        → nodes_by_lat_lon (st_nodes s') !! κ = Some l)
  ∧ bldgs s' = bldgs s
  ∧ primary_osm_element s' = primary_osm_element s.

(** [keeps], for a run that moreover leaves alone what was there when the
    heap had [n] objects. *)
Definition leaves {A} (n : nat) (P : state → Prop) (m : M state A)
    (Q : A → state → Prop) : Prop :=
  ∀ s a s', wf s → (n ≤ length (heap s))%nat → P s → m s = inr (a, s') →
    wf s' ∧ grows s s' ∧ undisturbed n s s' ∧ Q a s'.

End Invariant.

(** ** OSM elements as the parser is told of them *)

Section Document.
Context `{R : PyRuntime}.

(** A child of an element: [<tag k v/>], [<nd ref/>] or
    [<member type ref role/>]. *)
Inductive child :=
  | CTag (k v : string)
  | CNd (ref : string)
  | CMember (ty ref role : string).

(** The parser tells its target of the start and of the end of every
    element, children included. *)
Definition child_events (c : child) : list event :=
  match c with
  | CTag k v => [Start "tag" [("k", k); ("v", v)]; End "tag"]
  | CNd ref => [Start "nd" [("ref", ref)]; End "nd"]
  | CMember ty ref role =>
      [Start "member" [("type", ty); ("ref", ref); ("role", role)]; End "member"]
  end.

Definition element_events (tag : string) (attrib : list (string * string))
    (children : list child) : list event :=
  Start tag attrib :: concat (child_events <$> children) ++ [End tag].

(** The XML tag of the elements of a kind. *)
Definition tag_name (k : kind) : string :=
  match k with
  | KNode => "node"
  | KWay => "way"
  | KRelation => "relation"
  end.

(** What the constructor [start] calls for the tag of a kind gives the new
    object, from the attributes. *)
Definition new_body (k : kind) (a : gmap string string) : option body :=
  match k with
  | KNode =>
      match a !! "lat", a !! "lon" with
      | Some lat, Some lon => Some (BNode lat lon)
      | _, _ => None
      end
  | KWay => Some (BWay [])
  | KRelation => Some (BRelation [])
  end.

(** The tags the children give an element that has the tags [t]: each
    [<tag>] in turn, a later one replacing an earlier one with the same key. *)
Definition child_tags (children : list child) (t : gmap string string)
  : gmap string string :=
  foldl (λ t c, match c with CTag k v => <[k := v]> t | _ => t end) t children.

(** The element a [<member>] refers to: the one the collection named by its
    type holds under the reference. *)
Definition member_lookup (s : state) (ty ref : string) : option loc :=
  if decide (ty = "node") then nodes (st_nodes s) !! IdStr ref
  else if decide (ty = "way") then _ways (st_ways s) !! IdStr ref
  else if decide (ty = "relation") then _relations (st_relations s) !! IdStr ref
  else None.

(** What one child adds to an element that has the body [b]: a [<nd>] a node
    to a way, a [<member>] a member to a relation; [None] where the parser
    raises, on a child the element cannot have or a reference that leads
    nowhere. *)
Definition child_body (s : state) (b : body) (c : child) : option body :=
  match c, b with
  | CTag _ _, _ => Some b
  | CNd ref, BWay ns => (λ n, BWay (ns ++ [n])) <$> nodes (st_nodes s) !! IdStr ref
  | CMember ty ref role, BRelation ms =>
      (λ m, BRelation (ms ++ [(m, role)])) <$> member_lookup s ty ref
  | _, _ => None
  end.

Fixpoint children_body (s : state) (b : body) (children : list child) : option body :=
  match children with
  | [] => Some b
  | c :: children' =>
      match child_body s b c with
      | Some b' => children_body s b' children'
      | None => None
      end
  end.

(** A child whose reference no element read so far answers to. *)
Definition dangling (s : state) (k : kind) (c : child) : Prop :=
  match c with
  | CTag _ _ => False
  | CNd ref => k = KWay ∧ nodes (st_nodes s) !! IdStr ref = None
  | CMember ty ref _ =>
      k = KRelation ∧ ty ∈ ["node"; "way"; "relation"] ∧ member_lookup s ty ref = None
  end.

End Document.

(** ** More inputs *)

(** A single part: a bucket of one member. *)
Definition lone_part_doc : list event :=
  two_squares
  ++ xml_way "10" ["1"; "2"; "3"; "4"; "1"] [("bid", "B1"); ("building:part", "Yes")].

(** Two parts that disagree on [name], the first with a [height]; the
    building relation at address 2 and a fresh outline way at address 3. *)
Definition conflict_state : state (R := toy_runtime) :=
  mkState
    [ Obj (IdStr "1") (list_to_map [("name", "north"); ("height", "5")]) (BWay []);
      Obj (IdStr "2") (list_to_map [("name", "south")]) (BWay []);
      Relation (IdInt (-2));
      Way (IdInt (-2)) ]
    (mkNodes ∅ ∅ (-1))
    (mkWays (list_to_map [(IdStr "1", 0%nat); (IdStr "2", 1%nat); (IdInt (-2), 3%nat)]) (-2))
    (mkRelations (list_to_map [(IdInt (-2), 2%nat)]) (-2)) ∅ "bid" None.

(** A triangle, a node apart, and two relations over them: the first with the
    triangle alone, the second with the node as well. *)
Definition members_doc : list event :=
  xml_node "1" "0" "0" [] ++ xml_node "2" "0" "1" [] ++ xml_node "3" "1" "1" []
  ++ xml_node "9" "5" "5" [("name", "label")]
  ++ xml_way "10" ["1"; "2"; "3"; "1"] []
  ++ [Start "relation" [("id", "20")];
      Start "member" [("type", "way"); ("ref", "10"); ("role", "outer")];
      End "relation";
      Start "relation" [("id", "21")];
      Start "member" [("type", "way"); ("ref", "10"); ("role", "outer")];
      Start "member" [("type", "node"); ("ref", "9"); ("role", "label")];
      End "relation"].

(** ** The output

    Every [write_xml] and the end of [close] write to the output file; here
    they return what they write, one string for each call of [write], in
    order. *)

Section Output.
Context `{R : PyRuntime}.
Local Open Scope py_scope.






















End Output.

(** ** Files whose elements do not nest *)

Section Flat.
Context `{R : PyRuntime}.

(** The class of an object, as a kind. *)
Definition kind_of (o : obj) : kind :=
  match obj_body o with
  | BNode _ _ => KNode
  | BWay _ => KWay
  | BRelation _ => KRelation
  end.

(** An element of a file: its kind, its attributes and its children. *)
Definition element : Type := kind * list (string * string) * list child.

(** The events of the elements of a file, one element after the other. *)
Definition document_events (els : list element) : list event :=
  concat ((λ el : element, element_events (tag_name el.1.1) el.1.2 el.2) <$> els).

(** The events of an OSM file: the root element around its elements. *)
Definition osm_file (attrib : list (string * string)) (els : list element) : list event :=
  Start "osm" attrib :: document_events els ++ [End "osm"].

(** The element at [l] is held by the collection of its own class, under its
    identifier (or a later element with the same identifier is). *)
Definition registered (s : state) (l : loc) : Prop :=
  ∃ o, heap s !! l = Some o ∧ is_Some (items (kind_of o) s !! osm_id o).

(** The state is tidy: every collection holds objects of its own class, and
    the members of every relation and of every bucket are registered, those of
    a bucket being ways or relations. *)
Definition tidy (s : state) : Prop :=
  (∀ k i l, items k s !! i = Some l → ∃ o, heap s !! l = Some o ∧ kind_of o = k)
  ∧ (∀ l o ms, heap s !! l = Some o → obj_body o = BRelation ms →
       Forall (registered s) ms.*1)
  ∧ (∀ v parts, bldgs s !! v = Some parts →
       Forall (λ p, registered s p ∧ ∃ o, heap s !! p = Some o ∧ kind_of o ≠ KNode) parts).

(** Every bucket holds each of its members once, and holds it because the
    member carries the join tag with the value of the bucket. *)
Definition buckets_by_tag (s : state) : Prop :=
  ∀ v parts, bldgs s !! v = Some parts →
    NoDup parts
    ∧ Forall (λ p, ∃ o, heap s !! p = Some o ∧ tags o !! bldg_id_tag s = Some v) parts.

End Flat.
(** ** Reasoning about runs *)

Section Proofs.
Context `{R : PyRuntime}.
Local Open Scope py_scope.
Implicit Types (s : state) (l : loc) (o : obj) (t : gmap string string).

Lemma bind_inr {A B} (m : M state A) (k : A → M state B) s r :
  bind m k s = inr r ↔ ∃ a s1, m s = inr (a, s1) ∧ k a s1 = inr r.
Proof.
  unfold bind. split.
  - destruct (m s) as [e|[a s1]]; [discriminate|]. eauto.
  - intros (a & s1 & -> & Hk). done.
Qed.

Lemma bind_eq {A B} (m : M state A) (k : A → M state B) s a s1 :
  m s = inr (a, s1) → bind m k s = k a s1.
Proof. unfold bind. by intros ->. Qed.

Lemma bind_bind {A B C} (m : M state A) (f : A → M state B) (g : B → M state C) s :
  bind (bind m f) g s = bind m (λ x, bind (f x) g) s.
Proof. unfold bind. by destruct (m s) as [e|[a s1]]. Qed.

Lemma bind_ret {A B} (a : A) (k : A → M state B) s : bind (ret a) k s = k a s.
Proof. reflexivity. Qed.

Lemma set_heap_set_heap h1 h2 s : set_heap h2 (set_heap h1 s) = set_heap h2 s.
Proof. reflexivity. Qed.

Lemma set_heap_id s : set_heap (heap s) s = s.
Proof. by destruct s. Qed.

Lemma with_tags_id o : with_tags (λ t, t) o = o.
Proof. by destruct o. Qed.


Lemma deref_eq s l o : heap s !! l = Some o → deref l s = inr (o, s).
Proof. unfold deref, bind, gets, of_option. by intros ->. Qed.

Lemma deref_inr s l o s' : deref l s = inr (o, s') → heap s !! l = Some o ∧ s' = s.
Proof.
  unfold deref, bind, gets, of_option.
  destruct (heap s !! l); [|discriminate]. by intros [= -> ->].
Qed.

Lemma add_tag_eq s l o key value :
  heap s !! l = Some o →
  add_tag l key value s
  = inr (tt, set_heap (<[l := with_tags (insert key value) o]> (heap s)) s).
Proof. intros Hl. unfold add_tag. by rewrite (bind_eq _ _ _ _ _ (deref_eq _ _ _ Hl)). Qed.

Lemma delete_tag_eq s l o key value :
  heap s !! l = Some o → isinstance_Node o = false → tags o !! key = Some value →
  delete_tag l key s
  = inr (tt, set_heap (<[l := with_tags (delete key) o]> (heap s)) s).
Proof.
  intros Hl Hn Hk. unfold delete_tag.
  rewrite (bind_eq _ _ _ _ _ (deref_eq _ _ _ Hl)).
  unfold isinstance_Node in Hn. destruct (obj_body o); [discriminate| |]; by rewrite Hk.
Qed.

(** *** The clean-up pass *)




Lemma clean_all_length ls h : length (clean_all ls h) = length h.
Proof.
  revert h. induction ls as [|l0 ls IH]; intros h; simpl; [done|].
  by rewrite IH, length_alter.
Qed.





(** *** Propagating the tags of a part *)

Lemma copy_tags_eq element e kvs acc s :
  heap s !! element = Some e →
  for_fold kvs acc (copy_tag element) s
  = inr (acc ++ to_delete kvs,
         set_heap (<[element := with_tags (copy_list kvs) e]> (heap s)) s).
Proof.
  revert acc s e. induction kvs as [|[k v] kvs IH]; intros acc s e He; simpl.
  - unfold ret, to_delete. simpl. rewrite app_nil_r.
    by rewrite with_tags_id, list_insert_id, set_heap_id.
  - unfold copy_tag at 1. simpl. unfold to_delete. rewrite filter_cons. simpl.
    fold (to_delete kvs).
    assert (Hlt : (element < length (heap s))%nat) by by eapply lookup_lt_Some.
    destruct (decide (k ∉ part_level_tags)) as [Hk|Hk].
    + rewrite bind_bind, (bind_eq _ _ _ _ _ (add_tag_eq _ _ _ _ _ He)), bind_ret.
      erewrite IH by (simpl; by apply list_lookup_insert_eq).
      simpl. rewrite list_insert_insert_eq. f_equal. f_equal.
      * case_decide; simpl; [by rewrite <-app_assoc|done].
      * rewrite set_heap_set_heap. do 2 f_equal.
        unfold with_tags, copy_list. simpl. by rewrite decide_True.
    + rewrite bind_bind, !bind_ret.
      rewrite decide_False by tauto. rewrite decide_False by tauto.
      erewrite IH by done. do 4 f_equal.
      unfold with_tags, copy_list. simpl. by rewrite decide_False.
Qed.

Lemma copy_list_lookup kvs t k :
  NoDup kvs.*1 →
  copy_list kvs t !! k
  = match (list_to_map kvs : gmap string string) !! k with
    | Some v => if decide (k ∉ part_level_tags) then Some v else t !! k
    | None => t !! k
    end.
Proof.
  revert t. induction kvs as [|[k0 v0] kvs IH]; intros t Hnd; [done|].
  rewrite fmap_cons in Hnd. apply NoDup_cons in Hnd as [Hk0 Hnd]. simpl in Hk0.
  change (copy_list ((k0, v0) :: kvs) t)
    with (copy_list kvs (if decide (k0 ∉ part_level_tags) then <[k0:=v0]> t else t)).
  rewrite IH by done.
  change (list_to_map ((k0, v0) :: kvs) : gmap string string)
    with (<[k0:=v0]> (list_to_map kvs : gmap string string)).
  destruct (decide (k = k0)) as [->|Hne].
  - rewrite lookup_insert_eq. rewrite (not_elem_of_list_to_map_1 _ _ Hk0).
    destruct (decide (k0 ∉ part_level_tags)); [by rewrite lookup_insert_eq|done].
  - assert (Hne' : k0 ≠ k) by (intros Heq; by apply Hne).
    rewrite (lookup_insert_ne (list_to_map kvs)) by exact Hne'.
    destruct (decide (k0 ∉ part_level_tags)); [|done].
    by rewrite (lookup_insert_ne t) by exact Hne'.
Qed.

Lemma copy_map_lookup (m t : gmap string string) k :
  copy_list (map_to_list m) t !! k
  = match m !! k with
    | Some v => if decide (k ∉ part_level_tags) then Some v else t !! k
    | None => t !! k
    end.
Proof.
  rewrite copy_list_lookup by apply NoDup_fst_map_to_list.
  by rewrite list_to_map_to_list.
Qed.

Lemma elem_of_to_delete (m : gmap string string) k :
  k ∈ to_delete (map_to_list m)
  ↔ is_Some (m !! k) ∧ (k ∉ part_level_tags) ∧ k ∉ bldg_and_part_level_tags.
Proof.
  unfold to_delete. rewrite list_elem_of_fmap. split.
  - intros ([k' v] & -> & Hin). apply list_elem_of_filter in Hin as [Hp Hin].
    apply elem_of_map_to_list in Hin. simpl in *. eauto.
  - intros ([v Hv] & Hp). exists (k, v). split; [done|].
    apply list_elem_of_filter. split; [done|]. by apply elem_of_map_to_list.
Qed.

Lemma NoDup_to_delete (m : gmap string string) : NoDup (to_delete (map_to_list m)).
Proof.
  unfold to_delete. eapply sublist_NoDup; [apply (NoDup_fst_map_to_list m)|].
  apply fmap_sublist, sublist_filter.
Qed.

Lemma delete_list_lookup ks t k :
  delete_list ks t !! k = if decide (k ∈ ks) then None else t !! k.
Proof.
  revert t. induction ks as [|k0 ks IH]; intros t.
  - destruct (decide (k ∈ [])) as [H|]; [by apply not_elem_of_nil in H|done].
  - change (delete_list (k0 :: ks) t) with (delete_list ks (delete k0 t)). rewrite IH.
    destruct (decide (k ∈ ks)), (decide (k ∈ k0 :: ks)) as [Hin|Hin]; try done.
    + destruct Hin. by right.
    + apply elem_of_cons in Hin as [->|?]; [|done]. by rewrite lookup_delete_eq.
    + rewrite lookup_delete_ne; [done|]. intros ->. apply Hin. by left.
Qed.

Lemma delete_tags_eq part o ks s :
  heap s !! part = Some o → isinstance_Node o = false →
  NoDup ks → (∀ k, k ∈ ks → is_Some (tags o !! k)) →
  for_each ks (delete_tag part) s
  = inr (tt, set_heap (<[part := with_tags (delete_list ks) o]> (heap s)) s).
Proof.
  revert s o. induction ks as [|k ks IH]; intros s o Hp Hn Hnd Hks; simpl.
  - unfold ret. by rewrite with_tags_id, list_insert_id, set_heap_id.
  - apply NoDup_cons in Hnd as [Hk Hnd].
    destruct (Hks k) as [v Hv]; [by left|].
    rewrite (bind_eq _ _ _ _ _ (delete_tag_eq _ _ _ _ _ Hp Hn Hv)).
    rewrite (IH _ (with_tags (delete k) o)); simpl.
    + by rewrite list_insert_insert_eq.
    + apply list_lookup_insert_eq. by eapply lookup_lt_Some.
    + done.
    + done.
    + intros k' Hk'. rewrite lookup_delete_ne by (by intros ->).
      apply Hks. by right.
Qed.

Lemma propagate_tags_eq s element part o e :
  heap s !! part = Some o → heap s !! element = Some e →
  element ≠ part → isinstance_Node o = false →
  propagate_tags element part s
  = inr (tt, set_heap (<[part := with_tags retagged o]>
                         (<[element := with_tags (copy_list (map_to_list (tags o))) e]>
                            (heap s))) s).
Proof.
  intros Hp He Hne Hn. unfold propagate_tags.
  rewrite (bind_eq _ _ _ _ _ (deref_eq _ _ _ Hp)).
  rewrite (bind_eq _ _ _ _ _ (copy_tags_eq _ _ _ _ _ He)). simpl app.
  set (h1 := <[element := _]> (heap s)).
  assert (Hp1 : h1 !! part = Some o) by (unfold h1; by rewrite list_lookup_insert_ne).
  rewrite (bind_eq _ _ _ _ _ (delete_tags_eq part o _ (set_heap h1 s) Hp1 Hn
    (NoDup_to_delete _) (λ k Hk, proj1 (proj1 (elem_of_to_delete _ _) Hk)))).
  simpl. set (o2 := with_tags (delete_list _) o).
  assert (Hlt : (part < length h1)%nat) by by eapply lookup_lt_Some.
  erewrite bind_eq by (apply deref_eq; simpl; by apply list_lookup_insert_eq).
  assert (Hret : with_tags retagged o
                 = match tags o2 !! "building" with
                   | Some v => with_tags (delete "building")
                                 (with_tags (insert "building:part" v) o2)
                   | None => o2
                   end).
  { unfold with_tags at 1, retagged.
    change (delete_list (to_delete (map_to_list (tags o))) (tags o)) with (tags o2).
    by destruct (tags o2 !! "building"). }
  rewrite Hret. clear Hret.
  destruct (tags o2 !! "building") as [v|] eqn:Hb.
  - erewrite bind_eq by (apply add_tag_eq; simpl; by apply list_lookup_insert_eq).
    rewrite (delete_tag_eq _ _ (with_tags (insert "building:part" v) o2) _ v); simpl.
    + by rewrite !list_insert_insert_eq.
    + apply list_lookup_insert_eq. by rewrite length_insert.
    + done.
    + by rewrite lookup_insert_ne.
  - done.
Qed.
Lemma kept_lookup t k :
  delete_list (to_delete (map_to_list t)) t !! k
  = if decide ((k ∉ part_level_tags) ∧ k ∉ bldg_and_part_level_tags) then None else t !! k.
Proof.
  rewrite delete_list_lookup.
  destruct (decide (k ∈ to_delete (map_to_list t))) as [Hin|Hin];
    rewrite elem_of_to_delete in Hin.
  - by rewrite decide_True by tauto.
  - case_decide; [|done]. destruct (t !! k) eqn:Hk; [|done].
    destruct Hin. eauto.
Qed.

Lemma in_part_level_tags k : k ∈ part_level_tags ↔ k = "height" ∨ k = "type".
Proof. unfold part_level_tags. rewrite !elem_of_cons, elem_of_nil. tauto. Qed.

Lemma in_bldg_and_part_level_tags k : k ∈ bldg_and_part_level_tags ↔ k = "building".
Proof. unfold bldg_and_part_level_tags. rewrite !elem_of_cons, elem_of_nil. tauto. Qed.

Lemma retagged_building t : retagged t !! "building" = None.
Proof.
  unfold retagged.
  destruct (delete_list (to_delete (map_to_list t)) t !! "building") eqn:Hb; [|done].
  apply lookup_delete_eq.
Qed.

Lemma retagged_building_part t : retagged t !! "building:part" = t !! "building".
Proof.
  unfold retagged. rewrite !kept_lookup.
  rewrite (decide_False (P := ("building" ∉ _) ∧ _)).
  2:{ rewrite in_bldg_and_part_level_tags. tauto. }
  destruct (t !! "building") eqn:Hb.
  - by rewrite lookup_delete_ne, lookup_insert_eq.
  - rewrite kept_lookup, decide_True; [done|].
    rewrite in_part_level_tags, in_bldg_and_part_level_tags. split; intros H; [destruct H|]; done.
Qed.

Lemma retagged_other t k :
  k ≠ "building" → k ≠ "building:part" →
  retagged t !! k
  = if decide ((k ∉ part_level_tags) ∧ k ∉ bldg_and_part_level_tags) then None else t !! k.
Proof.
  intros H1 H2. unfold retagged.
  destruct (delete_list (to_delete (map_to_list t)) t !! "building") eqn:Hb.
  - rewrite lookup_delete_ne, lookup_insert_ne by done. apply kept_lookup.
  - apply kept_lookup.
Qed.

(** C2. Propagating the tags of a part (a way or a relation) to an outline
    element that is another object always succeeds, and afterwards: every tag
    of the part whose key is not part-only ([height], [type]) is on the outline
    with the part's value, the other tags of the outline being as before; on
    the part, the part-only tags are as before, [building] is gone and
    [building:part] holds the value [building] had (nothing if there was
    none), and every other key is removed. *)
Theorem propagate_tags_spec s element part o e :
  heap s !! part = Some o → heap s !! element = Some e →
  element ≠ part → isinstance_Node o = false →
  ∃ s' o' e', propagate_tags element part s = inr (tt, s') ∧
    heap s' !! part = Some o' ∧ heap s' !! element = Some e' ∧
    (osm_id o', obj_body o', osm_id e', obj_body e')
      = (osm_id o, obj_body o, osm_id e, obj_body e) ∧
    (∀ k v, tags o !! k = Some v → k ∉ part_level_tags → tags e' !! k = Some v) ∧
    (∀ k, tags o !! k = None ∨ k ∈ part_level_tags → tags e' !! k = tags e !! k) ∧
    (∀ k, k ∈ part_level_tags → tags o' !! k = tags o !! k) ∧
    (∀ k, k ∉ part_level_tags → k ∉ bldg_and_part_level_tags → k ≠ "building:part" →
       tags o' !! k = None) ∧
    tags o' !! "building" = None ∧
    tags o' !! "building:part" = tags o !! "building".
Proof.
  intros Hp He Hne Hn.
  assert (Hlp : (part < length (heap s))%nat) by by eapply lookup_lt_Some.
  assert (Hle : (element < length (heap s))%nat) by by eapply lookup_lt_Some.
  eexists _, (with_tags retagged o), (with_tags (copy_list (map_to_list (tags o))) e).
  split; [by apply propagate_tags_eq|]. simpl.
  split; [apply list_lookup_insert_eq; by rewrite length_insert|].
  split; [rewrite list_lookup_insert_ne by done; by apply list_lookup_insert_eq|].
  split; [done|].
  split; [|split; [|split; [|split; [|split]]]].
  - intros k v Hk Hpl. by rewrite copy_map_lookup, Hk, decide_True.
  - intros k [Hk|Hk]; rewrite copy_map_lookup.
    + by rewrite Hk.
    + destruct (tags o !! k); [|done]. by rewrite decide_False by tauto.
  - intros k Hk. rewrite retagged_other.
    + by rewrite decide_False by tauto.
    + apply in_part_level_tags in Hk as [->| ->]; done.
    + apply in_part_level_tags in Hk as [->| ->]; done.
  - intros k H1 H2 H3. rewrite retagged_other; [by rewrite decide_True| |done].
    intros ->. apply H2. by apply in_bldg_and_part_level_tags.
  - apply retagged_building.
  - apply retagged_building_part.
Qed.
(** *** The loop over the parts of a bucket *)

Lemma add_member_eq s l o ms x role :
  heap s !! l = Some o → obj_body o = BRelation ms →
  add_member l x role s
  = inr (tt, set_heap (<[l := Obj (osm_id o) (tags o) (BRelation (ms ++ [(x, role)]))]>
                         (heap s)) s).
Proof.
  intros Hl Hb. unfold add_member.
  rewrite (bind_eq _ _ _ _ _ (deref_eq _ _ _ Hl)). by rewrite Hb.
Qed.

Lemma add_node_eq s l o ns n :
  heap s !! l = Some o → obj_body o = BWay ns →
  add_node l n s
  = inr (tt, set_heap (<[l := Obj (osm_id o) (tags o) (BWay (ns ++ [n]))]> (heap s)) s).
Proof.
  intros Hl Hb. unfold add_node.
  rewrite (bind_eq _ _ _ _ _ (deref_eq _ _ _ Hl)). by rewrite Hb.
Qed.

Lemma retag_parts_spec br element parts s :
  NoDup parts → element ∉ parts → br ∉ parts → br ≠ element →
  (∃ rel ms, heap s !! br = Some rel ∧ obj_body rel = BRelation ms) →
  is_Some (heap s !! element) →
  (∀ p, p ∈ parts → ∃ o, heap s !! p = Some o ∧ isinstance_Node o = false) →
  ∃ s', retag_parts br element parts s = inr (tt, s') ∧
    (∀ rel ms, heap s !! br = Some rel → obj_body rel = BRelation ms →
       heap s' !! br = Some (Obj (osm_id rel) (tags rel)
                               (BRelation (ms ++ ((λ p, (p, "part")) <$> parts))))) ∧
    (∀ e, heap s !! element = Some e →
       ∃ e', heap s' !! element = Some e' ∧ osm_id e' = osm_id e ∧ obj_body e' = obj_body e ∧
         ∀ k, tags e' !! k
              = foldl (λ r p, match heap s !! p with
                              | Some o => match tags o !! k with
                                          | Some v => if decide (k ∉ part_level_tags)
                                                      then Some v else r
                                          | None => r
                                          end
                              | None => r
                              end) (tags e !! k) parts) ∧
    (∀ p o, p ∈ parts → heap s !! p = Some o →
       heap s' !! p = Some (with_tags retagged o)) ∧
    (∀ l, l ∉ parts → l ≠ element → l ≠ br → heap s' !! l = heap s !! l).
Proof.
  revert s. induction parts as [|p parts IH];
    intros s Hnd Hel Hbr Hne (rel & ms & Hrel & Hms) [e He] Hparts.
  - exists s. split; [done|]. split; [|split; [|split]].
    + intros rel' ms' Hrel' Hms'. rewrite Hrel'. f_equal. simpl. rewrite app_nil_r.
      destruct rel'. simpl in *. by subst.
    + intros e' He'. exists e'. split; [done|]. done.
    + intros p o Hp. by apply not_elem_of_nil in Hp.
    + done.
  - apply NoDup_cons in Hnd as [Hp Hnd].
    apply not_elem_of_cons in Hel as [Hep Hel]. apply not_elem_of_cons in Hbr as [Hbp Hbr].
    destruct (Hparts p) as (o & Ho & Hn); [by left|].
    assert (Hlp : (p < length (heap s))%nat) by by eapply lookup_lt_Some.
    assert (Hle : (element < length (heap s))%nat) by by eapply lookup_lt_Some.
    assert (Hlb : (br < length (heap s))%nat) by by eapply lookup_lt_Some.
    unfold retag_parts. simpl. rewrite bind_bind.
    rewrite (bind_eq _ _ _ _ _ (propagate_tags_eq _ _ _ _ _ Ho He Hep Hn)).
    set (e1 := with_tags (copy_list (map_to_list (tags o))) e).
    set (h1 := <[p := with_tags retagged o]> (<[element := e1]> (heap s))).
    assert (Hrel1 : h1 !! br = Some rel).
    { unfold h1. by rewrite !list_lookup_insert_ne. }
    rewrite (bind_eq _ _ _ _ _ (add_member_eq (set_heap h1 s) _ _ _ p "part" Hrel1 Hms)).
    simpl. rewrite set_heap_set_heap.
    set (rel2 := Obj (osm_id rel) (tags rel) (BRelation (ms ++ [(p, "part")]))).
    set (h2 := <[br := rel2]> h1).
    assert (Hlen : length h2 = length (heap s)).
    { unfold h2, h1. by rewrite !length_insert. }
    assert (Hrel2 : h2 !! br = Some rel2).
    { unfold h2. apply list_lookup_insert_eq. unfold h1. by rewrite !length_insert. }
    assert (He2 : h2 !! element = Some e1).
    { unfold h2, h1. rewrite !list_lookup_insert_ne by done. by apply list_lookup_insert_eq. }
    assert (Hp2 : h2 !! p = Some (with_tags retagged o)).
    { unfold h2, h1. rewrite list_lookup_insert_ne by done.
      apply list_lookup_insert_eq. by rewrite length_insert. }
    assert (Hother : ∀ l, l ≠ p → l ≠ element → l ≠ br → h2 !! l = heap s !! l).
    { intros l H1 H2 H3. unfold h2, h1. by rewrite !list_lookup_insert_ne. }
    destruct (IH (set_heap h2 s)) as (s' & Hrun & Hbr' & He' & Hps' & Hfr'); try done.
    { simpl. eauto. }
    { simpl. intros p' Hp'. rewrite Hother.
      - apply Hparts. by right.
      - intros ->. done.
      - intros ->. done.
      - intros ->. done. }
    exists s'. fold (retag_parts br element parts). split; [exact Hrun|].
    split; [|split; [|split]].
    + intros rel' ms' Hrel' Hms'. rewrite Hrel in Hrel'. injection Hrel' as <-.
      rewrite Hms in Hms'. injection Hms' as <-.
      rewrite (Hbr' rel2 (ms ++ [(p, "part")])); [|done|done].
      simpl. by rewrite <-app_assoc.
    + intros e0 He0. rewrite He in He0. injection He0 as <-.
      destruct (He' e1 He2) as (e' & He'' & Hid & Hbody & Htags).
      exists e'. split; [done|]. split; [done|]. split; [done|].
      intros k. rewrite Htags. simpl. rewrite Ho.
      rewrite copy_map_lookup. clear -Hother Hp Hel Hbr.
      generalize (match tags o !! k with
                  | Some v => if decide (k ∉ part_level_tags) then Some v else tags e !! k
                  | None => tags e !! k
                  end).
      induction parts as [|q parts IHq]; intros r; simpl; [done|].
      apply not_elem_of_cons in Hp as [Hpq Hp].
      apply not_elem_of_cons in Hel as [Heq Hel]. apply not_elem_of_cons in Hbr as [Hbq Hbr].
      rewrite Hother by done. by apply IHq.
    + intros q oq Hq Hoq. apply elem_of_cons in Hq as [->|Hq].
      * rewrite Ho in Hoq. injection Hoq as <-.
        rewrite Hfr'; [done|done| |]; by intros ->.
      * apply Hps'; [done|]. simpl. rewrite Hother; [done| | |]; by intros ->.
    + intros l Hl H2 H3. apply not_elem_of_cons in Hl as [Hlp' Hl].
      rewrite Hfr' by done. simpl. by apply Hother.
Qed.
Lemma retagged_keys t k :
  is_Some (retagged t !! k) → k ∈ ["height"; "type"; "building:part"].
Proof.
  intros Hk. destruct (decide (k = "building:part")) as [->|Hbp].
  { rewrite !elem_of_cons. tauto. }
  destruct (decide (k = "building")) as [->|Hb].
  { rewrite retagged_building in Hk. by destruct Hk. }
  rewrite retagged_other in Hk by done.
  destruct (decide ((k ∉ part_level_tags) ∧ k ∉ bldg_and_part_level_tags)) as [|Hn].
  { by destruct Hk. }
  destruct (decide (k ∈ part_level_tags)) as [Hin|Hout].
  - apply in_part_level_tags in Hin. rewrite !elem_of_cons. tauto.
  - destruct Hn. split; [done|]. by rewrite in_bldg_and_part_level_tags.
Qed.

(** C10, amended. When the join tag is none of [height], [type] and
    [building:part], and every part of a bucket carries it with the value [v]
    when the bucket is consolidated, the loop over the parts puts the join tag
    with the value [v] on the outline, and leaves every part without the join
    tag, with tag keys among [height], [type] and [building:part]. *)
Theorem retag_parts_join_tag s br element parts join v :
  join ∉ part_level_tags → join ≠ "building:part" →
  parts ≠ [] → NoDup parts → element ∉ parts → br ∉ parts → br ≠ element →
  (∃ rel, heap s !! br = Some rel ∧ isinstance_Relation rel = true) →
  is_Some (heap s !! element) →
  (∀ p, p ∈ parts →
     ∃ o, heap s !! p = Some o ∧ isinstance_Node o = false ∧ tags o !! join = Some v) →
  ∃ s', retag_parts br element parts s = inr (tt, s') ∧
    (∃ e', heap s' !! element = Some e' ∧ tags e' !! join = Some v) ∧
    ∀ p, p ∈ parts →
      ∃ o', heap s' !! p = Some o' ∧ tags o' !! join = None ∧
        ∀ k, is_Some (tags o' !! k) → k ∈ ["height"; "type"; "building:part"].
Proof.
  intros Hj1 Hj2 Hne Hnd Hel Hbr Hbe (rel & Hrel & Hisrel) [e He] Hparts.
  destruct (retag_parts_spec br element parts s) as (s' & Hrun & _ & Hout & Hps & _);
    try done.
  { exists rel. unfold isinstance_Relation in Hisrel.
    destruct (obj_body rel) as [| |ms] eqn:Hb; try discriminate. eauto. }
  { intros p Hp. destruct (Hparts p Hp) as (o & ? & ? & ?). eauto. }
  exists s'. split; [done|]. split.
  - destruct (Hout e He) as (e' & He' & _ & _ & Htags). exists e'. split; [done|].
    rewrite Htags. clear -Hparts Hne Hj1.
    assert (Hstep : ∀ p r, p ∈ parts →
      match heap s !! p with
      | Some o => match tags o !! join with
                  | Some v0 => if decide (join ∉ part_level_tags) then Some v0 else r
                  | None => r
                  end
      | None => r
      end = Some v).
    { intros p r Hp. destruct (Hparts p Hp) as (o & -> & _ & ->). by rewrite decide_True. }
    clear Hparts. generalize (tags e !! join).
    induction parts as [|p parts IH]; [done|]. intros r. simpl.
    rewrite Hstep by left. destruct parts as [|q parts]; [done|].
    apply IH; [done|]. intros p' r' Hp'. apply Hstep. by right.
  - intros p Hp. destruct (Hparts p Hp) as (o & Ho & _ & _).
    exists (with_tags retagged o). split; [by apply Hps|]. simpl. split.
    + destruct (retagged (tags o) !! join) eqn:Hk; [|done].
      assert (Hin : join ∈ ["height"; "type"; "building:part"]).
      { apply (retagged_keys (tags o)). by rewrite Hk. }
      rewrite !elem_of_cons, elem_of_nil in Hin.
      destruct Hj1. apply in_part_level_tags. tauto.
    + apply retagged_keys.
Qed.
(** *** Taking a successful run apart *)

Lemma ret_inr {A} (a b : A) s s' : ret a s = inr (b, s') → b = a ∧ s' = s.
Proof. by intros [= -> ->]. Qed.

Lemma gets_inr {A} (f : state → A) a s s' : gets f s = inr (a, s') → a = f s ∧ s' = s.
Proof. by intros [= -> ->]. Qed.

Lemma modify_inr (f : state → state) u s s' : modify f s = inr (u, s') → s' = f s.
Proof. unfold modify. intros H. by simplify_eq. Qed.

Lemma of_option_inr {A} e (x : option A) a s s' :
  of_option e x s = inr (a, s') → x = Some a ∧ s' = s.
Proof. destruct x; [by intros [= -> ->]|discriminate]. Qed.

Lemma of_sum_inr {A} (x : exn + A) a s s' :
  of_sum x s = inr (a, s') → x = inr a ∧ s' = s.
Proof. destruct x; [discriminate|by intros [= -> ->]]. Qed.

Lemma raise_inr {A} e s (r : A * state) : raise e s = inr r → False.
Proof. discriminate. Qed.

Lemma new_inr o s l s' :
  new o s = inr (l, s') → l = length (heap s) ∧ s' = set_heap (heap s ++ [o]) s.
Proof. unfold new. intros H. by simplify_eq. Qed.

Lemma store_inr l o s u s' :
  store l o s = inr (u, s') → s' = set_heap (<[l := o]> (heap s)) s.
Proof. unfold store, modify. intros H. by simplify_eq. Qed.

Lemma to_float_inr x a s s' : to_float x s = inr (a, s') → float_of_str x = Some a ∧ s' = s.
Proof. apply of_option_inr. Qed.

Lemma to_int_inr i z s s' : to_int i s = inr (z, s') → int_of_id i = Some z ∧ s' = s.
Proof. apply of_option_inr. Qed.

Lemma get_lat_lon_inr o p s s' :
  get_lat_lon o s = inr (p, s') → obj_body o = BNode p.1 p.2 ∧ s' = s.
Proof.
  unfold get_lat_lon. destruct (obj_body o); [|discriminate..]. by intros [= <- <-].
Qed.

Lemma get_nodes_inr o ns s s' :
  get_nodes o s = inr (ns, s') → obj_body o = BWay ns ∧ s' = s.
Proof.
  unfold get_nodes. destruct (obj_body o); [discriminate| |discriminate]. by intros [= <- <-].
Qed.

Lemma get_members_inr o ms s s' :
  get_members o s = inr (ms, s') → obj_body o = BRelation ms ∧ s' = s.
Proof.
  unfold get_members. destruct (obj_body o); [discriminate..|]. by intros [= <- <-].
Qed.

(** One step of taking the hypothesis [H] apart. *)
Ltac minv_step :=
  match goal with
  | H : bind _ _ _ = inr _ |- _ =>
      let H1 := fresh "Hrun" in
      apply bind_inr in H as (? & ? & H1 & H); cbv beta in H
  | H : ret _ _ = inr (_, _) |- _ => apply ret_inr in H as [? ?]
  | H : gets _ _ = inr (_, _) |- _ => apply gets_inr in H as [? ?]
  | H : modify _ _ = inr (_, _) |- _ => apply modify_inr in H
  | H : of_option _ _ _ = inr (_, _) |- _ => apply of_option_inr in H as [? ?]
  | H : of_sum _ _ = inr (_, _) |- _ => apply of_sum_inr in H as [? ?]
  | H : raise _ _ = inr _ |- _ => by apply raise_inr in H
  | H : new _ _ = inr (_, _) |- _ => apply new_inr in H as [? ?]
  | H : store _ _ _ = inr (_, _) |- _ => apply store_inr in H
  | H : deref _ _ = inr (_, _) |- _ => apply deref_inr in H as [? ?]
  | H : to_float _ _ = inr (_, _) |- _ => apply to_float_inr in H as [? ?]
  | H : to_int _ _ = inr (_, _) |- _ => apply to_int_inr in H as [? ?]
  | H : get_lat_lon _ _ = inr (_, _) |- _ => apply get_lat_lon_inr in H as [? ?]
  | H : get_nodes _ _ = inr (_, _) |- _ => apply get_nodes_inr in H as [? ?]
  | H : get_members _ _ = inr (_, _) |- _ => apply get_members_inr in H as [? ?]
  | H : upd_nodes _ _ = inr (_, _) |- _ => apply modify_inr in H
  | H : upd_ways _ _ = inr (_, _) |- _ => apply modify_inr in H
  | H : upd_relations _ _ = inr (_, _) |- _ => apply modify_inr in H
  | H : (let ' (_, _) := ?p in _) _ = inr _ |- _ => destruct p
  | H : (if decide ?P then _ else _) _ = inr _ |- _ => destruct (decide P)
  end.

Ltac minv := repeat (minv_step; subst).

(** *** The methods, when they succeed *)

Lemma add_tag_inr l key value s u s' :
  add_tag l key value s = inr (u, s') →
  ∃ o, heap s !! l = Some o
    ∧ s' = set_heap (<[l := with_tags (insert key value) o]> (heap s)) s.
Proof. unfold add_tag. intros H. minv. eauto. Qed.

Lemma delete_tag_inr l key s u s' :
  delete_tag l key s = inr (u, s') →
  ∃ o, heap s !! l = Some o ∧ isinstance_Node o = false ∧ is_Some (tags o !! key)
    ∧ s' = set_heap (<[l := with_tags (delete key) o]> (heap s)) s.
Proof.
  unfold delete_tag. intros H. minv. rename x into o. exists o.
  unfold isinstance_Node.
  destruct (obj_body o); [by apply raise_inr in H|..];
    (destruct (tags o !! key) eqn:Hk; [|by apply raise_inr in H]);
    apply store_inr in H; eauto.
Qed.

Lemma add_node_inr l n s u s' :
  add_node l n s = inr (u, s') →
  ∃ o ns, heap s !! l = Some o ∧ obj_body o = BWay ns
    ∧ s' = set_heap (<[l := Obj (osm_id o) (tags o) (BWay (ns ++ [n]))]> (heap s)) s.
Proof.
  unfold add_node. intros H. minv. rename x into o.
  destruct (obj_body o) eqn:Hb; [by apply raise_inr in H| |by apply raise_inr in H].
  apply store_inr in H. eauto.
Qed.

Lemma add_member_inr l x role s u s' :
  add_member l x role s = inr (u, s') →
  ∃ o ms, heap s !! l = Some o ∧ obj_body o = BRelation ms
    ∧ s' = set_heap (<[l := Obj (osm_id o) (tags o) (BRelation (ms ++ [(x, role)]))]>
                       (heap s)) s.
Proof.
  unfold add_member. intros H. minv. rename x0 into o.
  destruct (obj_body o) eqn:Hb; [by apply raise_inr in H..|].
  apply store_inr in H. eauto.
Qed.

(** [add] of each collection: the dictionary gets the element under its
    identifier, and the lowest identifier follows. *)
Lemma Ways_add_inr l s u s' :
  Ways_add l s = inr (u, s') →
  ∃ o z, heap s !! l = Some o ∧ int_of_id (osm_id o) = Some z
    ∧ s' = set_ways (mkWays (<[osm_id o := l]> (_ways (st_ways s)))
                       (Z.min z (ways_lowest_id (st_ways s)))) s.
Proof.
  unfold Ways_add. intros H. minv.
  all: do 2 eexists; (split; [eassumption|]); (split; [eassumption|]); simpl in *.
  - by rewrite Z.min_l by lia.
  - rewrite Z.min_r by lia. by destruct s as [? ? [] ? ? ? ?].
Qed.

Lemma Relations_add_inr l s u s' :
  Relations_add l s = inr (u, s') →
  ∃ o z, heap s !! l = Some o ∧ int_of_id (osm_id o) = Some z
    ∧ s' = set_relations (mkRelations (<[osm_id o := l]> (_relations (st_relations s)))
                            (Z.min z (relations_lowest_id (st_relations s)))) s.
Proof.
  unfold Relations_add. intros H. minv.
  all: do 2 eexists; (split; [eassumption|]); (split; [eassumption|]); simpl in *.
  - by rewrite Z.min_l by lia.
  - rewrite Z.min_r by lia. by destruct s as [? ? ? [] ? ? ?].
Qed.

Lemma Nodes_add_inr l s u s' :
  Nodes_add l s = inr (u, s') →
  ∃ o z lat lon x y, heap s !! l = Some o ∧ int_of_id (osm_id o) = Some z
    ∧ obj_body o = BNode lat lon ∧ float_of_str lat = Some x ∧ float_of_str lon = Some y
    ∧ s' = set_nodes (mkNodes (<[osm_id o := l]> (nodes (st_nodes s)))
                        (<[(x, y) := l]> (nodes_by_lat_lon (st_nodes s)))
                        (Z.min z (nodes_lowest_id (st_nodes s)))) s.
Proof.
  unfold Nodes_add. intros H. minv.
  all: do 6 eexists; repeat (split; [eassumption|]); simpl in *.
  - by rewrite Z.min_l by lia.
  - by rewrite Z.min_r by lia.
Qed.
(** *** From a way to a polygon *)

Lemma add_point_eq s n pt points :
  node_at s n pt → add_point points n s = inr (points ++ [pt], s).
Proof.
  intros (o & lat & lon & Ho & Hb & Hx & Hy). unfold add_point.
  rewrite (bind_eq _ _ _ _ _ (deref_eq _ _ _ Ho)).
  unfold get_lat_lon. rewrite Hb. rewrite bind_ret.
  unfold to_float. rewrite Hx, Hy. simpl. rewrite !bind_ret. by destruct pt.
Qed.

Lemma points_of_nodes_eq s ns pts acc :
  Forall2 (node_at s) ns pts → for_fold ns acc add_point s = inr (acc ++ pts, s).
Proof.
  intros Hall. revert acc. induction Hall as [|n pt ns pts Hn Hall IH]; intros acc; simpl.
  - by rewrite app_nil_r.
  - rewrite (bind_eq _ _ _ _ _ (add_point_eq _ _ _ _ Hn)). rewrite IH.
    by rewrite <-app_assoc.
Qed.

(** C8, amended. [way_to_polygon] does not look at whether the way is closed:
    for every way whose nodes have coordinates [float] accepts, it hands the
    list of their (lon, lat) pairs, in order, to the [Polygon] constructor
    and returns, or raises, what the constructor does; the state is not
    touched. *)
Theorem way_to_polygon_unchecked s way w ns pts :
  heap s !! way = Some w → obj_body w = BWay ns → Forall2 (node_at s) ns pts →
  way_to_polygon way s
  = match Polygon pts with
    | inl e => inl e
    | inr p => inr (p, s)
    end.
Proof.
  intros Hw Hb Hall. unfold way_to_polygon.
  rewrite (bind_eq _ _ _ _ _ (deref_eq _ _ _ Hw)).
  unfold get_nodes. rewrite Hb, bind_ret. unfold points_of_nodes.
  rewrite (bind_eq _ _ _ _ _ (points_of_nodes_eq _ _ _ [] Hall)). simpl.
  by destruct (Polygon pts).
Qed.

(** *** Adding to a collection *)

Lemma add_inr k l s u s' :
  add k l s = inr (u, s') →
  ∃ o z, heap s !! l = Some o ∧ int_of_id (osm_id o) = Some z ∧ can_add k o
    ∧ heap s' = heap s
    ∧ items k s' = <[osm_id o := l]> (items k s)
    ∧ lowest_id k s' = Z.min z (lowest_id k s)
    ∧ (∀ k', k' ≠ k → items k' s' = items k' s ∧ lowest_id k' s' = lowest_id k' s)
    ∧ (bldgs s', bldg_id_tag s', primary_osm_element s')
      = (bldgs s, bldg_id_tag s, primary_osm_element s).
Proof.
  destruct k; simpl; intros H.
  - apply Nodes_add_inr in H as (o & z & lat & lon & x & y & Ho & Hz & Hb & Hx & Hy & ->).
    assert (Hc : can_add KNode o).
    { unfold can_add. rewrite Hz. split; [done|]. intros _. exists lat, lon.
      by rewrite Hx, Hy. }
    exists o, z. repeat (split; [done|]). split; [|done]. by intros [].
  - apply Ways_add_inr in H as (o & z & Ho & Hz & ->).
    assert (Hc : can_add KWay o) by (unfold can_add; rewrite Hz; split; done).
    exists o, z. repeat (split; [done|]). split; [|done]. by intros [].
  - apply Relations_add_inr in H as (o & z & Ho & Hz & ->).
    assert (Hc : can_add KRelation o) by (unfold can_add; rewrite Hz; split; done).
    exists o, z. repeat (split; [done|]). split; [|done]. by intros [].
Qed.

Lemma add_total k l s o :
  heap s !! l = Some o → can_add k o → ∃ s', add k l s = inr (tt, s').
Proof.
  intros Ho [[z Hz] Hnode].
  destruct k; simpl.
  - destruct Hnode as (lat & lon & Hb & [x Hx] & [y Hy]); [done|].
    unfold Nodes_add. rewrite (bind_eq _ _ _ _ _ (deref_eq _ _ _ Ho)).
    unfold bind, upd_nodes, modify, get_lat_lon, to_float, to_int, of_option, gets, ret.
    rewrite Hb. simpl. rewrite Hx, Hy, Hz. simpl. case_decide; eauto.
  - unfold Ways_add. rewrite (bind_eq _ _ _ _ _ (deref_eq _ _ _ Ho)).
    unfold bind, upd_ways, modify, to_int, of_option, gets, ret.
    rewrite Hz. simpl. case_decide; eauto.
  - unfold Relations_add. rewrite (bind_eq _ _ _ _ _ (deref_eq _ _ _ Ho)).
    unfold bind, upd_relations, modify, to_int, of_option, gets, ret.
    rewrite Hz. simpl. case_decide; eauto.
Qed.

(** C9, amended. No collection checks for duplicates: whether [add] succeeds
    depends on the element alone, and adding a second element under an
    identifier the collection already holds puts the second in the place of
    the first, without any error. *)
Theorem add_replaces k s l1 l2 o1 o2 :
  heap s !! l1 = Some o1 → heap s !! l2 = Some o2 → osm_id o1 = osm_id o2 →
  can_add k o1 → can_add k o2 →
  ∃ s1 s2, add k l1 s = inr (tt, s1) ∧ items k s1 !! osm_id o1 = Some l1
    ∧ add k l2 s1 = inr (tt, s2) ∧ items k s2 !! osm_id o1 = Some l2
    ∧ (∀ i, i ≠ osm_id o1 → items k s2 !! i = items k s !! i)
    ∧ heap s2 = heap s.
Proof.
  intros Ho1 Ho2 Hid Hc1 Hc2.
  destruct (add_total k l1 s o1 Ho1 Hc1) as [s1 Hrun1].
  destruct (add_inr _ _ _ _ _ Hrun1) as (o & z & Ho & _ & _ & Hh1 & Hi1 & _).
  rewrite Ho1 in Ho. injection Ho as <-.
  assert (Ho2' : heap s1 !! l2 = Some o2) by by rewrite Hh1.
  destruct (add_total k l2 s1 o2 Ho2' Hc2) as [s2 Hrun2].
  destruct (add_inr _ _ _ _ _ Hrun2) as (o & z' & Ho & _ & _ & Hh2 & Hi2 & _).
  rewrite Ho2' in Ho. injection Ho as <-.
  exists s1, s2. split; [done|]. split; [by rewrite Hi1, lookup_insert_eq|].
  split; [done|]. split; [by rewrite Hi2, Hid, lookup_insert_eq|].
  split; [|by rewrite Hh2].
  intros i Hi. rewrite Hi2, Hi1, <-Hid. by rewrite !lookup_insert_ne.
Qed.
(** *** Creating elements *)

Lemma Ways_add_new_eq s :
  let z := ways_lowest_id (st_ways s) - 1 in
  Ways_add_new s
  = inr (length (heap s),
         set_ways (mkWays (<[IdInt z := length (heap s)]> (_ways (st_ways s))) z)
           (set_heap (heap s ++ [Way (IdInt z)]) s)).
Proof.
  intros z. unfold Ways_add_new, Ways_add, new, deref.
  unfold bind, upd_ways, modify, to_int, of_option, gets, ret. simpl.
  rewrite lookup_app_r, Nat.sub_diag by done. simpl.
  fold z. by rewrite decide_False by lia.
Qed.

Lemma Relations_add_new_eq s :
  let z := relations_lowest_id (st_relations s) - 1 in
  Relations_add_new s
  = inr (length (heap s),
         set_relations
           (mkRelations (<[IdInt z := length (heap s)]> (_relations (st_relations s))) z)
           (set_heap (heap s ++ [Relation (IdInt z)]) s)).
Proof.
  intros z. unfold Relations_add_new, Relations_add, new, deref.
  unfold bind, upd_relations, modify, to_int, of_option, gets, ret. simpl.
  rewrite lookup_app_r, Nat.sub_diag by done. simpl.
  fold z. by rewrite decide_False by lia.
Qed.

Lemma Nodes_add_new_eq s lat lon x y :
  float_of_str lat = Some x → float_of_str lon = Some y →
  let z := nodes_lowest_id (st_nodes s) - 1 in
  Nodes_add_new lat lon s
  = inr (length (heap s),
         set_nodes
           (mkNodes (<[IdStr (str_of_int z) := length (heap s)]> (nodes (st_nodes s)))
              (<[(x, y) := length (heap s)]> (nodes_by_lat_lon (st_nodes s))) z)
           (set_heap (heap s ++ [Node (IdStr (str_of_int z)) lat lon]) s)).
Proof.
  intros Hx Hy z. unfold Nodes_add_new, Nodes_add, new, deref.
  unfold bind, upd_nodes, modify, get_lat_lon, to_float, to_int, of_option, gets, ret. simpl.
  rewrite lookup_app_r, Nat.sub_diag by done. simpl.
  rewrite Hx, Hy. simpl. fold z. rewrite int_of_str_of_int. simpl.
  by rewrite decide_False by lia.
Qed.

(** *** Nodes found by their coordinates *)

Lemma Nodes_add_new_if_not_exist_eq s lat lon x y :
  float_of_str lat = Some x → float_of_str lon = Some y →
  Nodes_add_new_if_not_exist lat lon s
  = match nodes_by_lat_lon (st_nodes s) !! (x, y) with
    | Some l => inr (l, s)
    | None => Nodes_add_new lat lon s
    end.
Proof.
  intros Hx Hy. unfold Nodes_add_new_if_not_exist.
  unfold bind at 1. unfold to_float at 1. rewrite Hx. simpl.
  unfold bind at 1. unfold to_float at 1. rewrite Hy. simpl.
  unfold bind at 1. simpl.
  by destruct (nodes_by_lat_lon (st_nodes s) !! (x, y)).
Qed.

Lemma lat_lon_key_Some r κ :
  lat_lon_key r = Some κ → float_of_str r.1 = Some κ.1 ∧ float_of_str r.2 = Some κ.2.
Proof.
  unfold lat_lon_key. destruct (float_of_str r.1), (float_of_str r.2); try discriminate.
  by intros [= <-].
Qed.



(** *** The identifiers of a collection *)

Lemma items_set_heap k h s : items k (set_heap h s) = items k s.
Proof. by destruct k. Qed.

Lemma lowest_id_set_heap k h s : lowest_id k (set_heap h s) = lowest_id k s.
Proof. by destruct k. Qed.

Lemma evolves_refl s : evolves s s.
Proof. split; [eauto|]. intros k. by left. Qed.

Lemma evolves_inv k s s' : ids_inv k s → evolves s s' → ids_inv k s'.
Proof.
  intros (I1 & I2 & I3 & I4) [E1 E2].
  destruct (E2 k) as [[Hi Hl]|(l & o & z & Ho & Hz & Hi & Hl)]; unfold ids_inv.
  - rewrite Hi, Hl. repeat split; try done.
    intros i l Hil. destruct (I2 i l Hil) as (o & Ho & Hid).
    destruct (E1 l o Ho) as (o' & Ho' & Hid'). exists o'. split; [done|congruence].
  - rewrite Hi, Hl. split; [lia|]. split; [|split].
    + intros i l' Hil. destruct (decide (i = osm_id o)) as [->|Hne].
      * rewrite lookup_insert_eq in Hil. injection Hil as <-. eauto.
      * rewrite lookup_insert_ne in Hil by done.
        destruct (I2 i l' Hil) as (o0 & Ho0 & Hid).
        destruct (E1 l' o0 Ho0) as (o' & Ho' & Hid'). exists o'. split; [done|congruence].
    + intros i Hil. destruct (decide (i = osm_id o)) as [->|Hne].
      * exists z. split; [done|lia].
      * rewrite lookup_insert_ne in Hil by done.
        destruct (I3 i Hil) as (zi & Hzi & Hle). exists zi. split; [done|lia].
    + destruct (decide (z < lowest_id k s)) as [Hlt|Hge].
      * right. exists (osm_id o). rewrite lookup_insert_eq, Z.min_l by lia. eauto.
      * rewrite Z.min_r by lia. destruct I4 as [?|(i & Hil & Hzi)]; [by left|].
        right. exists i. split; [|done].
        destruct (decide (i = osm_id o)) as [->|Hne].
        -- rewrite lookup_insert_eq. eauto.
        -- by rewrite lookup_insert_ne.
Qed.

Lemma evolves_lowest k s s' : evolves s s' → lowest_id k s' ≤ lowest_id k s.
Proof.
  intros [_ E2]. destruct (E2 k) as [[_ ->]|(l & o & z & _ & _ & _ & ->)]; lia.
Qed.

Lemma store_evolves s l o o' :
  heap s !! l = Some o → osm_id o' = osm_id o →
  evolves s (set_heap (<[l := o']> (heap s)) s).
Proof.
  intros Ho Hid. split.
  - intros l0 o0 Ho0. simpl. destruct (decide (l0 = l)) as [->|Hne].
    + exists o'. rewrite list_lookup_insert_eq by by eapply lookup_lt_Some.
      split; [done|]. congruence.
    + exists o0. by rewrite list_lookup_insert_ne.
  - intros k. left. by rewrite items_set_heap, lowest_id_set_heap.
Qed.

Lemma new_evolves s o : evolves s (set_heap (heap s ++ [o]) s).
Proof.
  split.
  - intros l o0 Ho0. exists o0. simpl. split; [|done].
    rewrite lookup_app_l; [done|]. by eapply lookup_lt_Some.
  - intros k. left. by rewrite items_set_heap, lowest_id_set_heap.
Qed.

Lemma add_evolves k l s u s' : add k l s = inr (u, s') → evolves s s'.
Proof.
  intros H. apply add_inr in H as (o & z & Ho & Hz & _ & Hh & Hi & Hl & Hk & _).
  split.
  - intros l0 o0 Ho0. exists o0. by rewrite Hh.
  - intros k'. destruct (decide (k' = k)) as [->|Hne].
    + right. exists l, o, z. by rewrite Hh.
    + left. by apply Hk.
Qed.

Lemma int_of_new_element k z lat lon :
  int_of_id (osm_id (new_element k z lat lon)) = Some z.
Proof. destruct k; simpl; [apply int_of_str_of_int|done..]. Qed.

(** [add_new] of each collection appends the new element to the heap, puts
    it into the dictionary under the identifier one below the lowest, and
    makes that identifier the lowest. *)
Lemma add_new_spec k lat lon s :
  (k = KNode → is_Some (lat_lon_key (lat, lon))) →
  let z := lowest_id k s - 1 in
  ∃ s', add_new k lat lon s = inr (length (heap s), s')
    ∧ heap s' = heap s ++ [new_element k z lat lon]
    ∧ items k s' = <[osm_id (new_element k z lat lon) := length (heap s)]> (items k s)
    ∧ lowest_id k s' = z
    ∧ ∀ k', k' ≠ k → items k' s' = items k' s ∧ lowest_id k' s' = lowest_id k' s.
Proof.
  intros Hkey z. destruct k; simpl in *.
  - destruct Hkey as [κ Hκ]; [done|]. apply lat_lon_key_Some in Hκ as [Hx Hy].
    rewrite (Nodes_add_new_eq _ _ _ _ _ Hx Hy). eexists. split; [done|].
    repeat split; by destruct k'.
  - rewrite Ways_add_new_eq. eexists. split; [done|]. repeat split; by destruct k'.
  - rewrite Relations_add_new_eq. eexists. split; [done|]. repeat split; by destruct k'.
Qed.

Lemma Nodes_add_new_inr lat lon s l s' :
  Nodes_add_new lat lon s = inr (l, s') → is_Some (lat_lon_key (lat, lon)).
Proof.
  unfold Nodes_add_new. intros H. minv.
  match goal with Hadd : Nodes_add _ _ = inr _ |- _ =>
    apply Nodes_add_inr in Hadd
      as (o & z & lat' & lon' & fx & fy & Ho & _ & Hb & Hx & Hy & _) end.
  simpl in Ho. rewrite lookup_app_r, Nat.sub_diag in Ho by done. injection Ho as <-.
  injection Hb as <- <-. unfold lat_lon_key. simpl. rewrite Hx, Hy. eauto.
Qed.

Lemma add_new_evolves k lat lon s l s' :
  add_new k lat lon s = inr (l, s') → evolves s s'.
Proof.
  intros H.
  destruct (add_new_spec k lat lon s) as (s1 & Hrun & Hh & Hi & Hl & Hk).
  { intros ->. by eapply Nodes_add_new_inr. }
  rewrite Hrun in H. injection H as <- <-. split.
  - intros l0 o0 Ho0. exists o0. split; [|done]. rewrite Hh.
    rewrite lookup_app_l; [done|]. by eapply lookup_lt_Some.
  - intros k'. destruct (decide (k' = k)) as [->|Hne].
    + right. exists (length (heap s)), (new_element k (lowest_id k s - 1) lat lon),
        (lowest_id k s - 1).
      split; [by rewrite Hh, lookup_app_r, Nat.sub_diag|].
      split; [apply int_of_new_element|]. split; [done|]. rewrite Hl. lia.
    + left. by apply Hk.
Qed.

Lemma call_evolves c s u s' : call c s = inr (u, s') → evolves s s'.
Proof.
  destruct c; simpl; intros H.
  - minv. apply new_evolves.
  - apply add_tag_inr in H as (o' & Ho & ->). by eapply store_evolves.
  - apply delete_tag_inr in H as (o' & Ho & _ & _ & ->). by eapply store_evolves.
  - apply add_node_inr in H as (o' & ns & Ho & _ & ->). by eapply store_evolves.
  - apply add_member_inr in H as (o' & ms & Ho & _ & ->). by eapply store_evolves.
  - by eapply add_evolves.
  - minv. by eapply add_new_evolves.
  - unfold Nodes_add_new_if_not_exist in H. minv.
    match goal with Hm : match ?x with _ => _ end _ = inr _ |- _ =>
      destruct x; [minv; apply evolves_refl|by eapply (add_new_evolves KNode)] end.
Qed.

Lemma calls_inv k calls s s' :
  for_each calls call s = inr (tt, s') → ids_inv k s →
  ids_inv k s' ∧ lowest_id k s' ≤ lowest_id k s.
Proof.
  revert s. induction calls as [|c calls IH]; intros s H Hinv; simpl in H.
  - minv. split; [done|lia].
  - minv. apply call_evolves in Hrun.
    destruct (IH _ H) as [Hinv' Hle]; [by eapply evolves_inv|].
    split; [done|]. pose proof (evolves_lowest k _ _ Hrun). lia.
Qed.

Lemma ids_inv_init k join : ids_inv k (init join).
Proof.
  unfold ids_inv. destruct k; simpl; (split; [done|]);
    (split; [intros i l Hi; by rewrite lookup_empty in Hi|]);
    (split; [intros i [l Hi]; by rewrite lookup_empty in Hi|by left]).
Qed.

Lemma elem_of_ids_in_use k s z :
  z ∈ ids_in_use k s ↔ ∃ i, is_Some (items k s !! i) ∧ int_of_id i = Some z.
Proof.
  unfold ids_in_use. rewrite list_elem_of_omap. split.
  - intros (i & Hi & Hz). apply list_elem_of_fmap in Hi as ([i' l] & -> & Hil).
    apply elem_of_map_to_list in Hil. exists i'. simpl in *. eauto.
  - intros (i & [l Hil] & Hz). exists i. split; [|done].
    apply list_elem_of_fmap. exists (i, l). split; [done|]. by apply elem_of_map_to_list.
Qed.

Lemma foldr_min_spec (L : list Z) :
  let m := foldr Z.min (-1) L in
  m ≤ -1 ∧ (∀ z, z ∈ L → m ≤ z) ∧ (m = -1 ∨ m ∈ L).
Proof.
  induction L as [|z L (IH1 & IH2 & IH3)]; simpl.
  - split; [done|]. split; [|by left]. intros z Hz. by apply elem_of_nil in Hz.
  - split; [lia|]. split.
    + intros z' Hz'. apply elem_of_cons in Hz' as [->|Hz']; [lia|].
      specialize (IH2 z' Hz'). lia.
    + destruct (decide (z < foldr Z.min (-1) L)).
      * right. rewrite Z.min_l by lia. by left.
      * rewrite Z.min_r by lia. destruct IH3 as [?|?]; [by left|]. right. by right.
Qed.

Lemma lowest_in_use_eq k s : ids_inv k s → lowest_in_use k s = lowest_id k s.
Proof.
  intros (I1 & _ & I3 & I4). unfold lowest_in_use.
  destruct (foldr_min_spec (ids_in_use k s)) as (F1 & F2 & F3).
  apply Z.le_antisymm.
  - destruct I4 as [->|(i & Hi & Hz)]; [done|].
    apply F2. apply elem_of_ids_in_use. eauto.
  - destruct F3 as [->|Hin]; [done|].
    apply elem_of_ids_in_use in Hin as (i & Hi & Hz).
    destruct (I3 i Hi) as (z & Hz' & Hle). congruence.
Qed.

(** C4, amended. In every state a run of method calls can reach from the
    empty collections: no two elements of a collection share an identifier;
    and [add_new] creates an element whose identifier is one less than the
    lowest of -1 and the identifiers in use, hence negative and below every
    identifier of the collection, and every later [add_new] of that
    collection yields a lower one still. *)
Theorem add_new_identifiers join calls s k :
  for_each calls call (init join) = inr (tt, s) →
  (∀ i1 i2 l1 l2 o1 o2,
     items k s !! i1 = Some l1 → items k s !! i2 = Some l2 →
     heap s !! l1 = Some o1 → heap s !! l2 = Some o2 →
     osm_id o1 = osm_id o2 → i1 = i2 ∧ l1 = l2)
  ∧ ∀ lat lon, (k = KNode → is_Some (lat_lon_key (lat, lon))) →
      let z := lowest_in_use k s - 1 in
      ∃ l s', add_new k lat lon s = inr (l, s')
        ∧ l = length (heap s)
        ∧ heap s' = heap s ++ [new_element k z lat lon]
        ∧ items k s' = <[osm_id (new_element k z lat lon) := l]> (items k s)
        ∧ int_of_id (osm_id (new_element k z lat lon)) = Some z
        ∧ z < 0
        ∧ (∀ i, is_Some (items k s !! i) → ∃ zi, int_of_id i = Some zi ∧ z < zi)
        ∧ ∀ calls' s2, for_each calls' call s' = inr (tt, s2) →
            lowest_in_use k s2 - 1 < z.
Proof.
  intros Hrun.
  destruct (calls_inv k _ _ _ Hrun (ids_inv_init k join)) as [Hinv _].
  pose proof Hinv as (I1 & I2 & I3 & I4). split.
  - intros i1 i2 l1 l2 o1 o2 H1 H2 Ho1 Ho2 Hid.
    destruct (I2 _ _ H1) as (o1' & Ho1' & <-). destruct (I2 _ _ H2) as (o2' & Ho2' & <-).
    assert (osm_id o1' = osm_id o2') as Heq by congruence.
    split; [done|]. rewrite Heq in H1. congruence.
  - intros lat lon Hkey z. unfold z. rewrite (lowest_in_use_eq _ _ Hinv).
    destruct (add_new_spec k lat lon s Hkey) as (s' & Hnew & Hh & Hi & Hl & _).
    exists (length (heap s)), s'. repeat (split; [done|]).
    split; [apply int_of_new_element|]. split; [lia|]. split.
    + intros i Hi'. destruct (I3 i Hi') as (zi & Hzi & Hle). exists zi. split; [done|lia].
    + intros calls' s2 Hrun2.
      assert (Hinv' : ids_inv k s') by (eapply evolves_inv; [done|by eapply add_new_evolves]).
      destruct (calls_inv k _ _ _ Hrun2 Hinv') as [Hinv2 Hle].
      rewrite (lowest_in_use_eq _ _ Hinv2). lia.
Qed.
(** *** What a run leaves alone *)

Section Safe.
Context (n : nat) (P : loc → Prop).

Lemma unchanged_on_refl s : unchanged_on n P s s.
Proof. by repeat split. Qed.

Lemma unchanged_on_trans s1 s2 s3 :
  unchanged_on n P s1 s2 → unchanged_on n P s2 s3 → unchanged_on n P s1 s3.
Proof.
  intros (L1 & B1 & J1 & H1) (L2 & B2 & J2 & H2). split; [lia|].
  split; [congruence|]. split; [congruence|].
  intros l Hl HP. by rewrite H2, H1.
Qed.

Lemma safe_ret {A} (a : A) (Q : A → Prop) : Q a → safe n P (ret a) Q.
Proof. intros HQ s a' s' _ H. minv. split; [apply unchanged_on_refl|done]. Qed.

Lemma safe_raise {A} e (Q : A → Prop) : safe n P (raise e) Q.
Proof. intros s a s' _ H. by apply raise_inr in H. Qed.

Lemma safe_bind {A B} (m : M state A) (k : A → M state B) Q Q' :
  safe n P m Q → (∀ a, Q a → safe n P (k a) Q') → safe n P (bind m k) Q'.
Proof.
  intros Hm Hk s b s' Hn H. apply bind_inr in H as (a & s1 & H1 & H2).
  destruct (Hm _ _ _ Hn H1) as [U1 HQ].
  destruct (Hk a HQ s1 b s') as [U2 HQ']; [destruct U1; lia|done|].
  split; [by eapply unchanged_on_trans|done].
Qed.

Lemma safe_weaken {A} (m : M state A) (Q Q' : A → Prop) :
  safe n P m Q → (∀ a, Q a → Q' a) → safe n P m Q'.
Proof. intros Hm HQ s a s' Hn H. destruct (Hm _ _ _ Hn H). eauto. Qed.

(** A step that only reads. *)
Lemma safe_read {A} (m : M state A) :
  (∀ s a s', m s = inr (a, s') → s' = s) → safe n P m (λ _, True).
Proof.
  intros Hm s a s' _ H. apply Hm in H as ->. split; [apply unchanged_on_refl|done].
Qed.

Lemma safe_gets {A} (f : state → A) : safe n P (gets f) (λ _, True).
Proof. apply safe_read. intros s a s' H. by minv. Qed.

Lemma safe_of_option {A} e (x : option A) : safe n P (of_option e x) (λ _, True).
Proof. apply safe_read. intros s a s' H. by minv. Qed.

Lemma safe_of_sum {A} (x : exn + A) : safe n P (of_sum x) (λ _, True).
Proof. apply safe_read. intros s a s' H. by minv. Qed.

Lemma safe_deref l : safe n P (deref l) (λ _, True).
Proof. apply safe_read. intros s a s' H. by minv. Qed.

(** A step that changes something other than the heap and the buckets. *)
Lemma safe_modify (f : state → state) :
  (∀ s, heap (f s) = heap s ∧ bldgs (f s) = bldgs s ∧ bldg_id_tag (f s) = bldg_id_tag s) →
  safe n P (modify f) (λ _, True).
Proof.
  intros Hf s a s' _ H. minv. destruct (Hf s) as (Hh & Hb & Hj).
  split; [|done]. split; [by rewrite Hh|]. repeat split; try done.
  intros l _ _. by rewrite Hh.
Qed.

Lemma safe_new o : safe n P (new o) (λ l, n ≤ l)%nat.
Proof.
  intros s l s' Hn H. minv. split; [|done]. split; [simpl; rewrite length_app; lia|].
  repeat split; try done. intros l Hl _. simpl. apply lookup_app_l. lia.
Qed.

Lemma safe_store l o : writable n P l → safe n P (store l o) (λ _, True).
Proof.
  intros Hw s u s' Hn H. minv. split; [|done]. split; [simpl; by rewrite length_insert|].
  repeat split; try done. intros l' Hl' HP. simpl.
  apply list_lookup_insert_ne. intros ->. destruct Hw; [lia|done].
Qed.

Lemma safe_for_each {A} (l : list A) (f : A → M state unit) :
  (∀ a, a ∈ l → safe n P (f a) (λ _, True)) → safe n P (for_each l f) (λ _, True).
Proof.
  induction l as [|a l IH]; intros Hf; simpl.
  - by apply safe_ret.
  - eapply safe_bind; [apply Hf; by left|]. intros _ _. apply IH.
    intros a' Ha'. apply Hf. by right.
Qed.

Lemma safe_for_fold {A B} (l : list A) (b : B) (f : B → A → M state B) (Q : B → Prop) :
  Q b → (∀ b a, Q b → a ∈ l → safe n P (f b a) Q) → safe n P (for_fold l b f) Q.
Proof.
  revert b. induction l as [|a l IH]; intros b Hb Hf; simpl.
  - by apply safe_ret.
  - eapply safe_bind; [apply Hf; [done|by left]|]. intros b' Hb'. apply IH; [done|].
    intros b'' a' Hb'' Ha'. apply Hf; [done|by right].
Qed.

Lemma safe_true {A} (m : M state A) (Q : A → Prop) : safe n P m Q → safe n P m (λ _, True).
Proof. intros H. eapply safe_weaken; [exact H|done]. Qed.

Lemma safe_add_tag l key value : writable n P l → safe n P (add_tag l key value) (λ _, True).
Proof.
  intros Hw. unfold add_tag. eapply safe_bind; [apply safe_deref|]. intros o _.
  by apply safe_store.
Qed.

Lemma safe_delete_tag l key : writable n P l → safe n P (delete_tag l key) (λ _, True).
Proof.
  intros Hw. unfold delete_tag. eapply safe_bind; [apply safe_deref|]. intros o _.
  destruct (obj_body o); [apply safe_raise|..];
    (destruct (tags o !! key); [by apply safe_store|apply safe_raise]).
Qed.

Lemma safe_add_node l node : writable n P l → safe n P (add_node l node) (λ _, True).
Proof.
  intros Hw. unfold add_node. eapply safe_bind; [apply safe_deref|]. intros o _.
  destruct (obj_body o); [apply safe_raise|by apply safe_store|apply safe_raise].
Qed.

Lemma safe_add_member l x role : writable n P l → safe n P (add_member l x role) (λ _, True).
Proof.
  intros Hw. unfold add_member. eapply safe_bind; [apply safe_deref|]. intros o _.
  destruct (obj_body o); [apply safe_raise..|by apply safe_store].
Qed.

Lemma safe_add k l : safe n P (add k l) (λ _, True).
Proof.
  intros s u s' _ H. apply add_inr in H as (o & z & _ & _ & _ & Hh & _ & _ & _ & Hb).
  injection Hb as Hb Hj _. split; [|done]. split; [by rewrite Hh|].
  repeat split; try done. intros l' _ _. by rewrite Hh.
Qed.

Lemma safe_add_new k lat lon : safe n P (add_new k lat lon) (λ l, n ≤ l)%nat.
Proof.
  assert (Hupd : ∀ f : state → state,
    (∀ s, heap (f s) = heap s ∧ bldgs (f s) = bldgs s ∧ bldg_id_tag (f s) = bldg_id_tag s) →
    safe n P (modify f) (λ _, True)) by apply safe_modify.
  destruct k; simpl.
  - unfold Nodes_add_new. eapply safe_bind; [by apply Hupd|]. intros _ _.
    eapply safe_bind; [apply safe_gets|]. intros z _.
    eapply safe_bind; [apply safe_new|]. intros l Hl.
    eapply safe_bind; [apply (safe_add KNode)|]. intros _ _. by apply safe_ret.
  - unfold Ways_add_new. eapply safe_bind; [by apply Hupd|]. intros _ _.
    eapply safe_bind; [apply safe_gets|]. intros z _.
    eapply safe_bind; [apply safe_new|]. intros l Hl.
    eapply safe_bind; [apply (safe_add KWay)|]. intros _ _. by apply safe_ret.
  - unfold Relations_add_new. eapply safe_bind; [by apply Hupd|]. intros _ _.
    eapply safe_bind; [apply safe_gets|]. intros z _.
    eapply safe_bind; [apply safe_new|]. intros l Hl.
    eapply safe_bind; [apply (safe_add KRelation)|]. intros _ _. by apply safe_ret.
Qed.

Lemma safe_add_new_if_not_exist lat lon :
  safe n P (Nodes_add_new_if_not_exist lat lon) (λ _, True).
Proof.
  unfold Nodes_add_new_if_not_exist.
  eapply safe_bind; [apply safe_of_option|]. intros x _.
  eapply safe_bind; [apply safe_of_option|]. intros y _.
  eapply safe_bind; [apply safe_gets|]. intros index _.
  destruct (index !! (x, y)); [by apply safe_ret|].
  eapply safe_true. apply (safe_add_new KNode).
Qed.

Lemma safe_points_to_way points : safe n P (_points_to_way points) (λ l, n ≤ l)%nat.
Proof.
  unfold _points_to_way. eapply safe_bind; [apply (safe_add_new KWay "" "")|].
  intros way Hway. eapply safe_bind.
  - apply safe_for_each. intros point _.
    eapply safe_bind; [apply safe_add_new_if_not_exist|]. intros node _.
    apply safe_add_node. by left.
  - intros _ _. by apply safe_ret.
Qed.

Lemma safe_add_polygon_to_relation polygon relation :
  writable n P relation → safe n P (add_polygon_to_relation polygon relation) (λ _, True).
Proof.
  intros Hw. unfold add_polygon_to_relation.
  eapply safe_bind; [apply safe_points_to_way|]. intros way _.
  eapply safe_bind; [by apply safe_add_member|]. intros _ _.
  apply safe_for_each. intros ring _.
  eapply safe_bind; [apply safe_points_to_way|]. intros way' _.
  by apply safe_add_member.
Qed.

Lemma safe_polygon_with_interior_to_relation polygon :
  safe n P (_polygon_with_interior_to_relation polygon) (λ l, n ≤ l)%nat.
Proof.
  unfold _polygon_with_interior_to_relation.
  eapply safe_bind; [apply (safe_add_new KRelation "" "")|]. intros rel Hrel.
  eapply safe_bind; [apply safe_add_tag; by left|]. intros _ _.
  eapply safe_bind; [apply safe_add_polygon_to_relation; by left|]. intros _ _.
  by apply safe_ret.
Qed.

Lemma safe_convert_multipolygon multi :
  safe n P (convert_multipolygon multi) (λ l, n ≤ l)%nat.
Proof.
  unfold convert_multipolygon.
  eapply safe_bind; [apply (safe_add_new KRelation "" "")|]. intros rel Hrel.
  eapply safe_bind; [apply safe_add_tag; by left|]. intros _ _.
  eapply safe_bind.
  - apply safe_for_each. intros polygon _. apply safe_add_polygon_to_relation. by left.
  - intros _ _. by apply safe_ret.
Qed.

Lemma safe_outline_to_element outline element :
  (∀ e, element = Some e → writable n P e) →
  safe n P (outline_to_element outline element) (λ r, ∀ e, r = Some e → writable n P e).
Proof.
  intros He. unfold outline_to_element. destruct outline as [p|ps|].
  - destruct (interiors p).
    + eapply safe_bind; [apply safe_points_to_way|]. intros e Hle.
      apply safe_ret. intros e' [= <-]. by left.
    + eapply safe_bind; [apply safe_polygon_with_interior_to_relation|]. intros e Hle.
      apply safe_ret. intros e' [= <-]. by left.
  - eapply safe_bind; [apply safe_convert_multipolygon|]. intros e Hle.
    apply safe_ret. intros e' [= <-]. by left.
  - by apply safe_ret.
Qed.

Lemma add_point_read points node s a s' : add_point points node s = inr (a, s') → s' = s.
Proof. unfold add_point. intros H. by minv. Qed.

Lemma for_fold_read {A B} (l : list A) (b : B) (f : B → A → M state B) s r s' :
  (∀ b a s r s', f b a s = inr (r, s') → s' = s) →
  for_fold l b f s = inr (r, s') → s' = s.
Proof.
  intros Hf. revert b s. induction l as [|a l IH]; intros b s H; simpl in H.
  - by minv.
  - apply bind_inr in H as (b' & s1 & H1 & H2). apply Hf in H1 as ->. by eapply IH.
Qed.

Lemma points_of_nodes_read ns s a s' : points_of_nodes ns s = inr (a, s') → s' = s.
Proof. apply for_fold_read. apply add_point_read. Qed.

Lemma way_to_polygon_read way s a s' : way_to_polygon way s = inr (a, s') → s' = s.
Proof.
  unfold way_to_polygon. intros H. minv.
  match goal with Hp : points_of_nodes _ _ = inr _ |- _ =>
    by apply points_of_nodes_read in Hp end.
Qed.

Lemma relation_to_polygons_read relation s a s' :
  relation_to_polygons relation s = inr (a, s') → s' = s.
Proof.
  unfold relation_to_polygons. intros H. minv.
  match goal with Hp : for_fold _ _ _ _ = inr _ |- _ =>
    apply for_fold_read in Hp; [by subst|] end.
  clear. intros lines member s r s' H. minv.
  match goal with Hp : points_of_nodes _ _ = inr _ |- _ =>
    by apply points_of_nodes_read in Hp end.
Qed.

Lemma collect_polygons_read parts s a s' : collect_polygons parts s = inr (a, s') → s' = s.
Proof.
  apply for_fold_read. intros polygons part s0 r s0' H. minv.
  destruct (isinstance_Way _); minv.
  - match goal with Hp : way_to_polygon _ _ = inr _ |- _ =>
      by apply way_to_polygon_read in Hp end.
  - match goal with Hp : relation_to_polygons _ _ = inr _ |- _ =>
      by apply relation_to_polygons_read in Hp end.
Qed.

Lemma safe_copy_tag element acc kv :
  writable n P element → safe n P (copy_tag element acc kv) (λ _, True).
Proof.
  intros Hw. unfold copy_tag. eapply safe_bind.
  - case_decide; [by apply safe_add_tag|by apply safe_ret].
  - intros _ _. by apply safe_ret.
Qed.

Lemma safe_propagate_tags element part :
  writable n P element → writable n P part →
  safe n P (propagate_tags element part) (λ _, True).
Proof.
  intros He Hp. unfold propagate_tags.
  eapply safe_bind; [apply safe_deref|]. intros o _.
  eapply safe_bind.
  { apply safe_for_fold with (Q := λ _, True); [done|]. intros acc kv _ _.
    by apply safe_copy_tag. }
  intros ks _. eapply safe_bind.
  { apply safe_for_each. intros k _. by apply safe_delete_tag. }
  intros _ _. eapply safe_bind; [apply safe_deref|]. intros o' _.
  destruct (tags o' !! "building"); [|by apply safe_ret].
  eapply safe_bind; [by apply safe_add_tag|]. intros _ _. by apply safe_delete_tag.
Qed.

Lemma safe_retag_parts br element parts :
  writable n P br → writable n P element → (∀ p, p ∈ parts → writable n P p) →
  safe n P (retag_parts br element parts) (λ _, True).
Proof.
  intros Hbr He Hparts. unfold retag_parts. apply safe_for_each. intros p Hp.
  eapply safe_bind; [apply safe_propagate_tags; auto|]. intros _ _.
  by apply safe_add_member.
Qed.

Lemma safe_of_option_some {A} e (x : option A) (Q : A → Prop) :
  (∀ a, x = Some a → Q a) → safe n P (of_option e x) Q.
Proof.
  intros HQ s a s' _ H. minv. split; [apply unchanged_on_refl|by apply HQ].
Qed.

Lemma safe_add_outline br outline element :
  writable n P br → (∀ e, element = Some e → writable n P e) →
  safe n P (add_outline br outline element) (writable n P).
Proof.
  intros Hbr He. unfold add_outline.
  eapply safe_bind; [by apply safe_outline_to_element|]. intros r Hr.
  eapply safe_bind; [apply (safe_of_option_some _ _ (writable n P)), Hr|].
  intros e Hwe.
  eapply safe_bind; [by apply safe_add_member|]. intros _ _. by apply safe_ret.
Qed.

Lemma safe_build_relation element parts :
  (∀ e, element = Some e → writable n P e) →
  ((1 < length parts)%nat → ∀ p, p ∈ parts → writable n P p) →
  safe n P (build_relation element parts) (λ r, ∀ e, r = Some e → writable n P e).
Proof.
  intros He Hparts. unfold build_relation.
  destruct (decide (1 < length parts)%nat) as [Hlen|]; [|by apply safe_ret].
  eapply safe_bind; [apply (safe_add_new KRelation "" "")|]. intros br Hbr.
  eapply safe_bind; [apply safe_add_tag; by left|]. intros _ _.
  eapply safe_bind; [apply safe_read, collect_polygons_read|]. intros polygons _.
  eapply safe_bind; [apply safe_of_sum|]. intros outline _.
  eapply safe_bind; [apply safe_add_outline; [by left|done]|]. intros e Hwe.
  eapply safe_bind; [apply safe_retag_parts; [by left|done|auto]|]. intros _ _.
  apply safe_ret. by intros e' [= <-].
Qed.

Lemma safe_for_fold_build buckets element :
  (∀ e, element = Some e → writable n P e) →
  (∀ parts, parts ∈ buckets → (1 < length parts)%nat → ∀ p, p ∈ parts → writable n P p) →
  safe n P (for_fold buckets element build_relation)
    (λ r, ∀ e, r = Some e → writable n P e).
Proof.
  intros He Hb. apply safe_for_fold; [done|]. intros element' parts He' Hparts.
  apply safe_build_relation; [done|]. by apply Hb.
Qed.

Lemma safe_clean_building_tags l :
  writable n P l → safe n P (clean_building_tags l) (λ _, True).
Proof.
  intros Hw. unfold clean_building_tags. eapply safe_bind; [apply safe_deref|]. intros o _.
  destruct (tags o !! "building"), (tags o !! "building:part");
    try (by apply safe_ret); try (by apply safe_delete_tag).
  eapply safe_bind; [by apply safe_add_tag|]. intros _ _. by apply safe_delete_tag.
Qed.

End Safe.

Lemma clean_up_buckets s u s' :
  clean_up s = inr (u, s') →
  (length (heap s) ≤ length (heap s'))%nat ∧ bldgs s' = bldgs s
  ∧ bldg_id_tag s' = bldg_id_tag s.
Proof.
  intros H.
  assert (Hsafe : safe 0 (λ _, False) clean_up (λ _, True)).
  { unfold clean_up. eapply safe_bind; [apply safe_gets|]. intros ws _.
    eapply safe_bind.
    { apply safe_for_each. intros l _. apply safe_clean_building_tags. right. simpl. tauto. }
    intros _ _. eapply safe_bind; [apply safe_gets|]. intros rs _.
    apply safe_for_each. intros l _. apply safe_clean_building_tags. right. simpl. tauto. }
  destruct (Hsafe s u s') as [(Hl & Hb & Hj & _) _]; [lia|done|done].
Qed.
(** *** Buckets of one part *)

Lemma elem_of_buckets s parts :
  parts ∈ (map_to_list (bldgs s)).*2 ↔ ∃ b, bldgs s !! b = Some parts.
Proof.
  rewrite list_elem_of_fmap. split.
  - intros ([b parts'] & -> & Hin). apply elem_of_map_to_list in Hin. eauto.
  - intros [b Hb]. exists (b, parts). split; [done|]. by apply elem_of_map_to_list.
Qed.

(** C3. A bucket of exactly one member gives rise to nothing: the body of the
    bucket loop returns at once on it, in the state it was called in; and when
    [close] returns, the member, provided no bucket of several members holds
    it as well, is the object the clean-up pass made of it, and its bucket is
    as it was. *)
Theorem single_part_bucket_untouched s b m :
  bldgs s !! b = Some [m] →
  (∀ b' parts, bldgs s !! b' = Some parts → (1 < length parts)%nat → m ∉ parts) →
  (m < length (heap s))%nat →
  (∀ element s0, build_relation element [m] s0 = inr (element, s0))
  ∧ ∀ s', close s = inr (tt, s') →
      bldgs s' !! b = Some [m]
      ∧ ∃ s1, clean_up s = inr (tt, s1) ∧ heap s' !! m = heap s1 !! m.
Proof.
  intros Hb Hothers Hm. split; [done|].
  intros s' H. unfold close in H.
  apply bind_inr in H as ([] & s1 & Hclean & H).
  apply bind_inr in H as (r & s2 & Hbuild & H). minv.
  destruct (clean_up_buckets _ _ _ Hclean) as (Hlen & Hbl & _).
  unfold build_relations in Hbuild.
  apply bind_inr in Hbuild as (buckets & s1' & Hg & Hbuild). minv.
  destruct (safe_for_fold_build (length (heap s1)) (λ l, l = m)
              ((map_to_list (bldgs s1)).*2) None) with (s := s1) (a := r) (s' := s2)
    as [(_ & Hb2 & _ & Hkeep) _]; try done.
  - intros parts Hparts Hlong p Hp. right. intros ->.
    apply elem_of_buckets in Hparts as [b' Hb']. rewrite Hbl in Hb'.
    by apply (Hothers b' parts).
  - split; [by rewrite Hb2, Hbl|]. exists s1. split; [done|]. apply Hkeep; [lia|done].
Qed.

(** *** The building relation *)



(** *** From a polygon back to elements *)

Lemma point_key_is_Some pt : is_Some (point_key pt).
Proof.
  unfold point_key, lat_lon_key. simpl.
  destruct (float_of_str_of_float pt.2) as [x ->].
  destruct (float_of_str_of_float pt.1) as [y ->]. eauto.
Qed.

Lemma request_total s r κ :
  lat_lon_key r = Some κ →
  ∃ l s', Nodes_add_new_if_not_exist r.1 r.2 s = inr (l, s')
    ∧ nodes_by_lat_lon (st_nodes s') !! κ = Some l
    ∧ nodes_by_lat_lon (st_nodes s) ⊆ nodes_by_lat_lon (st_nodes s')
    ∧ (∃ k, heap s' = heap s ++ k)
    ∧ st_ways s' = st_ways s ∧ st_relations s' = st_relations s.
Proof.
  intros Hκ. apply lat_lon_key_Some in Hκ as [Hx Hy]. destruct κ as [x y]. simpl in *.
  rewrite (Nodes_add_new_if_not_exist_eq _ _ _ _ _ Hx Hy).
  destruct (nodes_by_lat_lon (st_nodes s) !! (x, y)) as [l|] eqn:Hl.
  - exists l, s. repeat split; try done. exists []. by rewrite app_nil_r.
  - rewrite (Nodes_add_new_eq _ _ _ _ _ Hx Hy). eexists _, _. split; [done|]. simpl.
    split; [apply lookup_insert_eq|]. split; [by apply insert_subseteq|].
    split; [eauto|done].
Qed.

(** The loop of [_points_to_way]: the way gets one node for each point, the
    node the index holds for the key of the point once the loop is over. *)
Lemma points_loop way i t pts s ns0 :
  heap s !! way = Some (Obj i t (BWay ns0)) →
  ∃ s' ns,
    for_each pts (λ point,
      let* node := Nodes_add_new_if_not_exist (str_of_float point.2) (str_of_float point.1) in
      add_node way node) s = inr (tt, s')
    ∧ heap s' !! way = Some (Obj i t (BWay (ns0 ++ ns)))
    ∧ length ns = length pts
    ∧ nodes_by_lat_lon (st_nodes s) ⊆ nodes_by_lat_lon (st_nodes s')
    ∧ (∀ j pt, pts !! j = Some pt →
         ∃ κ l, point_key pt = Some κ ∧ ns !! j = Some l
           ∧ nodes_by_lat_lon (st_nodes s') !! κ = Some l)
    ∧ st_ways s' = st_ways s ∧ st_relations s' = st_relations s.
Proof.
  revert s ns0. induction pts as [|pt pts IH]; intros s ns0 Hway.
  - exists s, []. rewrite app_nil_r. by repeat split.
  - destruct (point_key_is_Some pt) as [κ Hκ].
    destruct (request_total s _ κ Hκ) as (l & s1 & Hreq & Hl & Hsub & [k Hk] & Hw1 & Hr1).
    simpl in Hreq.
    assert (Hway1 : heap s1 !! way = Some (Obj i t (BWay ns0))).
    { rewrite Hk. apply lookup_app_l_Some. done. }
    pose proof (add_node_eq s1 way _ ns0 l Hway1 eq_refl) as Hadd. simpl in Hadd.
    set (s2 := set_heap _ s1) in Hadd.
    destruct (IH s2 (ns0 ++ [l])) as (s' & ns & Hrun & Hway' & Hlen & Hsub' & Hidx & Hw' & Hr').
    { unfold s2. simpl. apply list_lookup_insert_eq. by eapply lookup_lt_Some. }
    exists s', (l :: ns). simpl.
    rewrite bind_bind, (bind_eq _ _ _ _ _ Hreq), (bind_eq _ _ _ _ _ Hadd).
    split; [done|]. split; [by rewrite Hway', <-app_assoc|]. split; [by rewrite Hlen|].
    split; [by etrans|]. split; [|by rewrite Hw', Hr'].
    intros [|j] pt' Hj; simpl in *.
    + injection Hj as <-. exists κ, l. split; [done|]. split; [done|].
      by eapply lookup_weaken.
    + by apply Hidx.
Qed.






(** ** Beyond the single steps: how the loops of [close] compose *)

(** *** The bucket loop on buckets of one member *)

Lemma for_fold_short_buckets buckets element s :
  Forall (λ parts : list nat, (length parts ≤ 1)%nat) buckets →
  for_fold buckets element build_relation s = inr (element, s).
Proof.
  induction 1 as [|parts buckets Hshort _ IH]; [done|].
  simpl. unfold bind, build_relation at 1.
  destruct (decide (1 < length parts)%nat); [lia|]. exact IH.
Qed.

(** When no bucket has two members, [close] is the clean-up pass and nothing
    else: whatever the clean-up gives, a state or an exception, is what
    [close] gives. *)
Theorem close_without_work s :
  (∀ v parts, bldgs s !! v = Some parts → (length parts ≤ 1)%nat) →
  close s = clean_up s.
Proof.
  intros Hshort. unfold close, bind at 1.
  destruct (clean_up s) as [e|[[] s1]] eqn:Hclean; [done|].
  destruct (clean_up_buckets _ _ _ Hclean) as (_ & Hb & _).
  unfold build_relations, bind, gets.
  rewrite for_fold_short_buckets; [done|].
  apply Forall_forall. intros parts Hparts.
  apply elem_of_buckets in Hparts as [v Hv]. rewrite Hb in Hv. by eapply Hshort.
Qed.

(** *** The members of the building relation *)

Lemma retag_parts_members br e parts s s' rel ms :
  br ∉ parts → br ≠ e →
  heap s !! br = Some rel → obj_body rel = BRelation ms →
  retag_parts br e parts s = inr (tt, s') →
  heap s' !! br
  = Some (Obj (osm_id rel) (tags rel) (BRelation (ms ++ ((λ p, (p, "part")) <$> parts)))).
Proof.
  revert s rel ms. induction parts as [|p parts IH]; intros s rel ms Hnot Hne Hbr Hms Hrun.
  - apply ret_inr in Hrun as [_ ->]. rewrite app_nil_r, <-Hms. by destruct rel.
  - apply not_elem_of_cons in Hnot as [Hp Hnot].
    unfold retag_parts in Hrun. simpl in Hrun.
    apply bind_inr in Hrun as ([] & s2 & Hstep & Hrun).
    apply bind_inr in Hstep as ([] & s1 & Hprop & Hadd).
    assert (Hlen : (S br ≤ length (heap s))%nat) by (apply lookup_lt_Some in Hbr; lia).
    destruct (safe_propagate_tags (S br) (λ l, l = br) e p) with (s := s) (a := tt) (s' := s1)
      as [(Hlen1 & _ & _ & Hkeep) _]; [right; congruence|right; congruence|done|done|].
    apply add_member_inr in Hadd as (o & ms' & Ho & Hms' & ->).
    rewrite Hkeep, Hbr in Ho by (done || lia). injection Ho as <-.
    rewrite Hms in Hms'. injection Hms' as <-.
    rewrite fmap_cons, cons_middle, app_assoc.
    eapply (IH _ (Obj (osm_id rel) (tags rel) (BRelation (ms ++ [(p, "part")]))));
      [done|done| |done|exact Hrun].
    simpl. apply list_lookup_insert_eq. lia.
Qed.

(** Whenever the body of the bucket loop returns on a bucket of several
    members, the building relation it has made (the next free address when it
    started) holds the outline first, with the role "outline", and then the
    members of the bucket in their order, each with the role "part"; that
    outline is what the body returns. *)
Theorem build_relation_members s element parts r s' :
  (1 < length parts)%nat →
  (∀ p, p ∈ parts → (p < length (heap s))%nat) →
  (∀ e, element = Some e → (e < length (heap s))%nat) →
  build_relation element parts s = inr (r, s') →
  ∃ e, r = Some e
    ∧ heap s' !! length (heap s)
      = Some (Obj (IdInt (relations_lowest_id (st_relations s) - 1)) {["type" := "building"]}
                (BRelation ((e, "outline") :: ((λ p, (p, "part")) <$> parts)))).
Proof.
  intros Hlong Hparts Helement Hrun. unfold build_relation in Hrun.
  destruct (decide (1 < length parts)%nat); [|done].
  set (br := length (heap s)). set (z := relations_lowest_id (st_relations s) - 1).
  rewrite (bind_eq _ _ _ _ _ (Relations_add_new_eq s)) in Hrun. fold br z in Hrun.
  set (s1 := set_relations _ _) in Hrun.
  assert (Hbr1 : heap s1 !! br = Some (Relation (IdInt z))).
  { unfold s1, br. simpl. by rewrite lookup_app_r, Nat.sub_diag. }
  rewrite (bind_eq _ _ _ _ _ (add_tag_eq _ _ _ _ _ Hbr1)) in Hrun.
  set (s2 := set_heap _ s1) in Hrun.
  assert (Hlen2 : length (heap s2) = S br).
  { unfold s2, s1, br. simpl. rewrite length_insert, length_app. simpl. lia. }
  assert (Hbr2 : heap s2 !! br
                 = Some (Obj (IdInt z) {["type" := "building"]} (BRelation []))).
  { unfold s2. simpl. rewrite list_lookup_insert_eq by by eapply lookup_lt_Some.
    unfold with_tags, Relation. simpl. by rewrite insert_empty. }
  apply bind_inr in Hrun as (polygons & s3 & Hcollect & Hrun).
  apply collect_polygons_read in Hcollect as ->.
  apply bind_inr in Hrun as (outline & s3 & Hunion & Hrun).
  apply of_sum_inr in Hunion as [_ ->].
  apply bind_inr in Hrun as (e & s3 & Houtline & Hrun).
  apply bind_inr in Hrun as ([] & s4 & Hretag & Hrun).
  apply ret_inr in Hrun as [-> ->]. exists e. split; [done|].
  (* the outline joins the relation, which the making of it has left alone *)
  unfold add_outline in Houtline.
  apply bind_inr in Houtline as (oe & s5 & Hmake & Houtline).
  apply bind_inr in Houtline as (e' & s6 & Hsome & Houtline).
  apply of_option_inr in Hsome as [-> ->].
  apply bind_inr in Houtline as ([] & s6 & Hjoin & Houtline).
  apply ret_inr in Houtline as [<- ->].
  destruct (safe_outline_to_element (S br) (λ l, l = br) outline element)
    with (s := s2) (a := Some e) (s' := s5) as [(Hlen5 & _ & _ & Hkeep) Hwritable];
    [|lia|done|].
  { intros e0 He0. right. apply Helement in He0. fold br in He0. lia. }
  specialize (Hwritable e eq_refl).
  assert (Hne : br ≠ e) by (destruct Hwritable; [lia|congruence]).
  apply add_member_inr in Hjoin as (o & ms & Ho & Hms & ->).
  rewrite Hkeep, Hbr2 in Ho by (done || lia). injection Ho as <-.
  injection Hms as <-.
  simpl in Hretag.
  apply (retag_parts_members br e parts _ s4
           (Obj (IdInt z) {["type" := "building"]} (BRelation [(e, "outline")]))
           [(e, "outline")]) in Hretag; [exact Hretag| |done| |done].
  - intros Hin. apply Hparts in Hin. fold br in Hin. lia.
  - simpl. apply list_lookup_insert_eq. lia.
Qed.

(** *** The tags of the outline when the parts disagree *)

Lemma outline_tag_part_level tg k r parts :
  k ∈ part_level_tags → outline_tag tg k r parts = r.
Proof.
  intros Hk. unfold outline_tag. revert r.
  induction parts as [|p parts IH]; intros r; [done|].
  simpl. rewrite IH. destruct (tg p) as [tp|]; [|done]. destruct (tp !! k); [|done].
  by destruct (decide (k ∉ part_level_tags)).
Qed.

Lemma outline_tag_heap s k r parts :
  foldl (λ r p, match heap s !! p with
                | Some o => match tags o !! k with
                            | Some v => if decide (k ∉ part_level_tags) then Some v else r
                            | None => r
                            end
                | None => r
                end) r parts
  = outline_tag (λ p, tags <$> heap s !! p) k r parts.
Proof.
  unfold outline_tag. revert r. induction parts as [|p parts IH]; intros r; [done|].
  simpl. rewrite IH. by destruct (heap s !! p).
Qed.

Lemma outline_tag_absent tg k r parts :
  (∀ p tp, p ∈ parts → tg p = Some tp → tp !! k = None) → outline_tag tg k r parts = r.
Proof.
  revert r. induction parts as [|p parts IH]; intros r Hnone; [done|].
  unfold outline_tag in *. simpl.
  rewrite IH by (intros p' tp' Hp'; apply Hnone; by right).
  destruct (tg p) as [tp|] eqn:Htp; [|done].
  by rewrite (Hnone p tp) by (done || by left).
Qed.

Lemma outline_tag_last tg k r before p tp v after :
  k ∉ part_level_tags → tg p = Some tp → tp !! k = Some v →
  (∀ q tq, q ∈ after → tg q = Some tq → tq !! k = None) →
  outline_tag tg k r (before ++ p :: after) = Some v.
Proof.
  intros Hk Htp Hv Hafter.
  rewrite <-(outline_tag_absent tg k (Some v) after Hafter).
  unfold outline_tag. rewrite foldl_app. simpl. rewrite Htp, Hv.
  by destruct (decide (k ∉ part_level_tags)).
Qed.

(** The loop over the parts of a bucket (distinct ways and relations, none of
    them the outline or the building relation) always returns, and the outline
    ends with: its own [height] and [type], whatever the parts carry; for any
    other key, the value of the last part that carries it, silently, whatever
    the earlier parts say; and its own value where no part carries the key. *)
Theorem outline_tags_last_part_wins br element parts s e :
  NoDup parts → element ∉ parts → br ∉ parts → br ≠ element →
  (∃ rel ms, heap s !! br = Some rel ∧ obj_body rel = BRelation ms) →
  heap s !! element = Some e →
  (∀ p, p ∈ parts → ∃ o, heap s !! p = Some o ∧ isinstance_Node o = false) →
  ∃ s' e', retag_parts br element parts s = inr (tt, s')
    ∧ heap s' !! element = Some e'
    ∧ (∀ k, k ∈ part_level_tags → tags e' !! k = tags e !! k)
    ∧ (∀ k, (∀ p o, p ∈ parts → heap s !! p = Some o → tags o !! k = None) →
         tags e' !! k = tags e !! k)
    ∧ ∀ k v before p o after,
        k ∉ part_level_tags → parts = before ++ p :: after →
        heap s !! p = Some o → tags o !! k = Some v →
        (∀ q oq, q ∈ after → heap s !! q = Some oq → tags oq !! k = None) →
        tags e' !! k = Some v.
Proof.
  intros Hnd He Hbr Hne Hrel Helem Hparts.
  destruct (retag_parts_spec br element parts s) as (s' & Hrun & _ & Hout & _); try done.
  destruct (Hout e Helem) as (e' & He' & _ & _ & Htags).
  assert (Hfold : ∀ k, tags e' !! k
            = outline_tag (λ p, tags <$> heap s !! p) k (tags e !! k) parts).
  { intros k. rewrite Htags. apply outline_tag_heap. }
  exists s', e'. split; [done|]. split; [done|]. split; [|split].
  - intros k Hk. rewrite Hfold. by apply outline_tag_part_level.
  - intros k Hnone. rewrite Hfold. apply outline_tag_absent.
    intros p tp Hp Htp. destruct (heap s !! p) as [o|] eqn:Ho; [|done].
    injection Htp as <-. by eapply Hnone.
  - intros k v before p o after Hk -> Ho Hv Hafter. rewrite Hfold.
    apply (outline_tag_last _ _ _ _ _ (tags o)); try done.
    + by rewrite Ho.
    + intros q tq Hq Htq. destruct (heap s !! q) as [oq|] eqn:Hoq; [|done].
      injection Htq as <-. by eapply Hafter.
Qed.

(** *** A relation as a list of polygons *)

Lemma lines_loop s (ms : list (nat * string)) lines acc :
  Forall2 (λ m line, way_along s m.1 line) ms lines →
  for_fold ms acc (λ lines member,
    let* way := deref member.1 in
    let* ns := get_nodes way in
    let* points := points_of_nodes ns in
    ret (lines ++ [points])) s
  = inr (acc ++ lines, s).
Proof.
  intros Hall. revert acc.
  induction Hall as [|m line ms lines (w & ns & Hw & Hns & Hpts) _ IH]; intros acc.
  - by rewrite app_nil_r.
  - simpl. unfold bind at 1. rewrite (bind_eq _ _ _ _ _ (deref_eq _ _ _ Hw)).
    unfold get_nodes. rewrite Hns, bind_ret.
    unfold points_of_nodes. rewrite (bind_eq _ _ _ _ _ (points_of_nodes_eq _ _ _ [] Hpts)).
    simpl. unfold ret at 1. rewrite IH. by rewrite <-app_assoc.
Qed.

(** [relation_to_polygons] goes by the members alone: when every member of
    the relation is a way whose nodes have coordinates [float] accepts, it
    hands [polygonize] one line for each member, in the order of the members
    and whatever their roles, "inner" or "outer" or any other, and returns
    what [polygonize] returns, leaving the state as it is. *)
Theorem relation_to_polygons_lines s relation r ms lines :
  heap s !! relation = Some r → obj_body r = BRelation ms →
  Forall2 (λ m line, way_along s m.1 line) ms lines →
  relation_to_polygons relation s
  = match polygonize lines with
    | inl e => inl e
    | inr ps => inr (ps, s)
    end.
Proof.
  intros Hr Hms Hall. unfold relation_to_polygons.
  rewrite (bind_eq _ _ _ _ _ (deref_eq _ _ _ Hr)).
  unfold get_members. rewrite Hms, bind_ret.
  rewrite (bind_eq _ _ _ _ _ (lines_loop _ _ _ [] Hall)). simpl.
  by destruct (polygonize lines).
Qed.

(** A member that is not a way, a node or another relation, makes the
    conversion of a relation raise [AttributeError], when the members before
    it are ways that can be read: it is asked for the nodes it does not
    have. *)
Theorem relation_to_polygons_member_not_way s relation r before m role after lines om :
  heap s !! relation = Some r →
  obj_body r = BRelation (before ++ (m, role) :: after) →
  Forall2 (λ m line, way_along s m.1 line) before lines →
  heap s !! m = Some om → isinstance_Way om = false →
  relation_to_polygons relation s = inl AttributeError.
Proof.
  intros Hr Hms Hall Hm Hnot. unfold relation_to_polygons.
  rewrite (bind_eq _ _ _ _ _ (deref_eq _ _ _ Hr)).
  unfold get_members. rewrite Hms, bind_ret.
  unfold bind at 1.
  assert (Hloop : ∀ acc,
    for_fold (before ++ (m, role) :: after) acc (λ lines member,
      let* way := deref member.1 in
      let* ns := get_nodes way in
      let* points := points_of_nodes ns in
      ret (lines ++ [points])) s = inl AttributeError).
  { clear Hms. induction Hall as [|m0 line ms lines (w & ns & Hw & Hns & Hpts) _ IH];
      intros acc.
    - simpl. unfold bind at 1. rewrite (bind_eq _ _ _ _ _ (deref_eq _ _ _ Hm)).
      unfold get_nodes, isinstance_Way in *. by destruct (obj_body om).
    - simpl. unfold bind at 1. rewrite (bind_eq _ _ _ _ _ (deref_eq _ _ _ Hw)).
      unfold get_nodes. rewrite Hns, bind_ret.
      unfold points_of_nodes.
      rewrite (bind_eq _ _ _ _ _ (points_of_nodes_eq _ _ _ [] Hpts)).
      simpl. unfold ret at 1. apply IH. }
  by rewrite Hloop.
Qed.

(** *** Adding an element and finding it again *)

Lemma getitem_eq k i s l : items k s !! i = Some l → getitem k i s = inr (l, s).
Proof.
  intros Hl. destruct k; simpl in Hl;
    unfold getitem, Nodes_getitem, Ways_getitem, Relations_getitem, bind, gets;
    by rewrite Hl.
Qed.


(** ** Consistency of the state *)

(** *** What only grows *)

Lemma grows_refl s : grows s s.
Proof.
  split; [|split; [done|split; [done|split; [|done]]]].
  - intros l o Ho. exists o. split; [done|]. split; [done|].
    destruct (obj_body o); [done|exists []; by rewrite app_nil_r..].
  - intros v parts Hv. exists []. by rewrite app_nil_r.
Qed.

Lemma grows_trans s1 s2 s3 : grows s1 s2 → grows s2 s3 → grows s1 s3.
Proof.
  intros (Hh1 & Hi1 & Hx1 & Hb1 & Hj1) (Hh2 & Hi2 & Hx2 & Hb2 & Hj2).
  split; [|split; [|split; [|split]]].
  - intros l o Ho. destruct (Hh1 l o Ho) as (o2 & Ho2 & Hid2 & Hbody2).
    destruct (Hh2 l o2 Ho2) as (o3 & Ho3 & Hid3 & Hbody3).
    exists o3. split; [done|]. split; [congruence|].
    destruct (obj_body o) as [lat lon|ns|ms].
    + by rewrite Hbody2 in Hbody3.
    + destruct Hbody2 as [more2 Hbody2]. rewrite Hbody2 in Hbody3.
      destruct Hbody3 as [more3 Hbody3]. exists (more2 ++ more3). by rewrite app_assoc.
    + destruct Hbody2 as [more2 Hbody2]. rewrite Hbody2 in Hbody3.
      destruct Hbody3 as [more3 Hbody3]. exists (more2 ++ more3). by rewrite app_assoc.
  - intros k i Hi. by apply Hi2, Hi1.
  - intros κ Hκ. by apply Hx2, Hx1.
  - intros v parts Hv. destruct (Hb1 v parts Hv) as [more2 Hv2].
    destruct (Hb2 v _ Hv2) as [more3 Hv3]. exists (more2 ++ more3). by rewrite app_assoc.
  - congruence.
Qed.

Lemma grows_length s s' : grows s s' → (length (heap s) ≤ length (heap s'))%nat.
Proof.
  intros (Hh & _). destruct (heap s) as [|o h] eqn:Hheap using rev_ind; [simpl; lia|].
  clear IHh. destruct (Hh (length h) o) as (o' & Ho' & _).
  { by rewrite lookup_app_r, Nat.sub_diag. }
  apply lookup_lt_Some in Ho'. rewrite length_app. simpl. lia.
Qed.

Lemma node_at_grows s s' n pt : grows s s' → node_at s n pt → node_at s' n pt.
Proof.
  intros (Hh & _) (o & lat & lon & Ho & Hbody & Hx & Hy).
  destruct (Hh n o Ho) as (o' & Ho' & _ & Hbody'). rewrite Hbody in Hbody'.
  by exists o', lat, lon.
Qed.

Lemma listed_grows k s s' l : grows s s' → listed k s l → listed k s' l.
Proof.
  intros (Hh & Hi & _) (o & Ho & Hlisted).
  destruct (Hh l o Ho) as (o' & Ho' & Hid & _).
  exists o'. split; [done|]. rewrite Hid. by apply Hi.
Qed.

Lemma readable_node_grows s s' n : grows s s' → readable_node s n → readable_node s' n.
Proof.
  intros Hg [[pt Hpt] Hl]. split; [exists pt; by eapply node_at_grows|by eapply listed_grows].
Qed.

Lemma body_ok_grows s s' o : grows s s' → body_ok s o → body_ok s' o.
Proof.
  intros Hg. unfold body_ok. destruct (obj_body o) as [lat lon|ns|ms]; [done|..].
  - intros H. eapply Forall_impl; [exact H|]. intros n. by apply readable_node_grows.
  - intros H. eapply Forall_impl; [exact H|]. intros m Hm. apply grows_length in Hg.
    cbv beta in *. lia.
Qed.

(** *** The steps that change the heap *)

Lemma grows_set_heap s h' :
  (∀ l o, heap s !! l = Some o →
     ∃ o', h' !! l = Some o' ∧ osm_id o' = osm_id o
       ∧ match obj_body o with
         | BNode lat lon => obj_body o' = BNode lat lon
         | BWay ns => ∃ more, obj_body o' = BWay (ns ++ more)
         | BRelation ms => ∃ more, obj_body o' = BRelation (ms ++ more)
         end) →
  grows s (set_heap h' s).
Proof.
  intros Hh. split; [exact Hh|]. split; [intros k i; by destruct k|].
  split; [done|]. split; [|done].
  intros v parts Hv. exists []. by rewrite app_nil_r.
Qed.

Lemma wf_set_heap s h' :
  wf s → grows s (set_heap h' s) →
  (∀ l o, h' !! l = Some o →
     (∃ o0, heap s !! l = Some o0 ∧ obj_body o0 = obj_body o) ∨ body_ok (set_heap h' s) o) →
  wf (set_heap h' s).
Proof.
  intros (W1 & W2 & W3 & W4 & W5 & W6 & W7) Hg Hbodies.
  assert (Hlen := grows_length _ _ Hg).
  split; [|split; [|split; [|split; [|split; [|split]]]]].
  - intros k i l Hl. rewrite items_set_heap in Hl.
    destruct (W1 k i l Hl) as (o & z & Ho & Hid & Hz & Hlow).
    destruct Hg as (Hh & _). destruct (Hh l o Ho) as (o' & Ho' & Hid' & _).
    exists o', z. rewrite lowest_id_set_heap. split; [done|]. split; [congruence|done].
  - intros k. rewrite lowest_id_set_heap. apply W2.
  - intros i l Hl. destruct (W3 i l Hl) as [pt Hpt]. exists pt. by eapply node_at_grows.
  - intros κ l Hl. destruct (W4 κ l Hl) as [Hat Hlisted].
    split; [by eapply node_at_grows|by eapply listed_grows].
  - intros l o Ho. destruct (Hbodies l o Ho) as [(o0 & Ho0 & Hsame)|Hok]; [|done].
    eapply body_ok_grows; [exact Hg|]. specialize (W5 l o0 Ho0).
    unfold body_ok in *. by rewrite <-Hsame.
  - intros v parts Hv. eapply Forall_impl; [exact (W6 v parts Hv)|].
    intros p Hp. simpl in *. lia.
  - intros p Hp. specialize (W7 p Hp). simpl in *. lia.
Qed.

(** A new object that refers to what is there. *)
Lemma wf_new s o :
  wf s → body_ok s o →
  wf (set_heap (heap s ++ [o]) s) ∧ grows s (set_heap (heap s ++ [o]) s).
Proof.
  intros Hwf Hok.
  assert (Hg : grows s (set_heap (heap s ++ [o]) s)).
  { apply grows_set_heap. intros l o0 Ho0. exists o0.
    split; [by apply lookup_app_l_Some|]. split; [done|].
    destruct (obj_body o0); [done|exists []; by rewrite app_nil_r..]. }
  split; [|done]. apply wf_set_heap; [done|done|].
  intros l o1 Ho1. destruct (decide (l < length (heap s))%nat) as [Hlt|Hge].
  - left. exists o1. split; [|done]. by rewrite lookup_app_l in Ho1.
  - right. rewrite lookup_app_r in Ho1 by lia.
    destruct (l - length (heap s))%nat; [|done]. injection Ho1 as <-.
    by eapply body_ok_grows.
Qed.

Lemma wf_store s l o o' :
  wf s → heap s !! l = Some o → extends s o o' →
  wf (set_heap (<[l := o']> (heap s)) s) ∧ grows s (set_heap (<[l := o']> (heap s)) s).
Proof.
  intros Hwf Ho [Hid Hbody].
  assert (Hl : (l < length (heap s))%nat) by by eapply lookup_lt_Some.
  assert (Hg : grows s (set_heap (<[l := o']> (heap s)) s)).
  { apply grows_set_heap. intros l0 o0 Ho0. destruct (decide (l0 = l)) as [->|Hne].
    - rewrite Ho in Ho0. injection Ho0 as <-. exists o'.
      split; [by apply list_lookup_insert_eq|]. split; [done|].
      destruct (obj_body o); [done|destruct Hbody as (more & ? & _); by exists more..].
    - exists o0. split; [by rewrite list_lookup_insert_ne|]. split; [done|].
      destruct (obj_body o0); [done|exists []; by rewrite app_nil_r..]. }
  split; [|done]. apply wf_set_heap; [done|done|].
  intros l0 o0 Ho0. destruct (decide (l0 = l)) as [->|Hne].
  - rewrite list_lookup_insert_eq in Ho0 by done. injection Ho0 as <-. right.
    destruct Hwf as (_ & _ & _ & _ & W5 & _). specialize (W5 l o Ho).
    unfold body_ok in *. destruct (obj_body o) as [lat lon|ns|ms].
    + by rewrite Hbody.
    + destruct Hbody as (more & -> & Hmore). apply Forall_app. split.
      * eapply Forall_impl; [exact W5|]. intros n. by apply readable_node_grows.
      * eapply Forall_impl; [exact Hmore|]. intros n. by apply readable_node_grows.
    + destruct Hbody as (more & -> & Hmore). rewrite fmap_app. apply Forall_app.
      simpl. rewrite length_insert. split; [done|done].
  - left. exists o0. split; [|done]. by rewrite list_lookup_insert_ne in Ho0.
Qed.

Lemma extends_tags s o f : extends s o (with_tags f o).
Proof.
  split; [done|]. simpl.
  destruct (obj_body o); [done|exists []; by rewrite app_nil_r..].
Qed.

(** *** The steps that change a collection *)

Lemma grows_same_heap s s' :
  heap s' = heap s → bldgs s' = bldgs s → bldg_id_tag s' = bldg_id_tag s →
  (∀ k i, is_Some (items k s !! i) → is_Some (items k s' !! i)) →
  (∀ κ, is_Some (nodes_by_lat_lon (st_nodes s) !! κ)
        → is_Some (nodes_by_lat_lon (st_nodes s') !! κ)) →
  grows s s'.
Proof.
  intros Hh Hb Hj Hi Hx. split; [|split; [done|split; [done|split; [|done]]]].
  - intros l o Ho. exists o. rewrite Hh. split; [done|]. split; [done|].
    destruct (obj_body o); [done|exists []; by rewrite app_nil_r..].
  - intros v parts Hv. exists []. by rewrite Hb, app_nil_r.
Qed.

Lemma wf_same_heap s s' :
  wf s → grows s s' → heap s' = heap s → bldgs s' = bldgs s →
  primary_osm_element s' = primary_osm_element s →
  (∀ k i l, items k s' !! i = Some l →
     ∃ o z, heap s !! l = Some o ∧ osm_id o = i ∧ int_of_id i = Some z ∧ lowest_id k s' ≤ z) →
  (∀ k, lowest_id k s' ≤ -1) →
  (∀ i l, nodes (st_nodes s') !! i = Some l → ∃ pt, node_at s l pt) →
  (∀ κ l, nodes_by_lat_lon (st_nodes s') !! κ = Some l →
     node_at s l (κ.2, κ.1) ∧ listed KNode s' l) →
  wf s'.
Proof.
  intros (W1 & W2 & W3 & W4 & W5 & W6 & W7) Hg Hh Hb Hp W1' W2' W3' W4'.
  split; [|split; [|split; [|split; [|split; [|split]]]]].
  - intros k i l Hl. rewrite Hh. by apply W1'.
  - done.
  - intros i l Hl. destruct (W3' i l Hl) as [pt Hpt]. exists pt. by eapply node_at_grows.
  - intros κ l Hl. destruct (W4' κ l Hl) as [Hat Hlisted].
    split; [by eapply node_at_grows|done].
  - intros l o Ho. rewrite Hh in Ho. eapply body_ok_grows; [exact Hg|]. by eapply W5.
  - intros v parts Hv. rewrite Hb in Hv. rewrite Hh. by eapply W6.
  - intros p Hp'. rewrite Hp in Hp'. rewrite Hh. by apply W7.
Qed.

Lemma wf_Nodes_add s l u s' :
  wf s → Nodes_add l s = inr (u, s') → wf s' ∧ grows s s' ∧ readable_node s' l.
Proof.
  intros Hwf Hadd.
  apply Nodes_add_inr in Hadd as (o & z & lat & lon & x & y & Ho & Hz & Hbody & Hx & Hy & ->).
  assert (Hat : node_at s l (y, x)) by by exists o, lat, lon.
  set (s' := set_nodes _ s).
  assert (Hg : grows s s').
  { apply grows_same_heap; try done.
    - intros [] i Hi; simpl in *; [|done..].
      destruct (decide (osm_id o = i)) as [->|]; [by rewrite lookup_insert_eq|].
      by rewrite lookup_insert_ne.
    - intros κ Hκ. simpl. destruct (decide ((x, y) = κ)) as [->|];
        [by rewrite lookup_insert_eq|by rewrite lookup_insert_ne]. }
  assert (Hlisted : listed KNode s' l).
  { exists o. split; [done|]. simpl. by rewrite lookup_insert_eq. }
  split; [|split; [done|]].
  - pose proof Hwf as (W1 & W2 & W3 & W4 & _).
    apply (wf_same_heap s s'); try done.
    + intros [] i l0 Hl0; simpl in *.
      * destruct (decide (osm_id o = i)) as [<-|Hne].
        -- rewrite lookup_insert_eq in Hl0. injection Hl0 as <-. exists o, z.
           repeat split; try done. lia.
        -- rewrite lookup_insert_ne in Hl0 by done.
           destruct (W1 KNode i l0 Hl0) as (o0 & z0 & ? & ? & ? & Hlow). simpl in Hlow.
           exists o0, z0. repeat split; try done. lia.
      * by apply (W1 KWay).
      * by apply (W1 KRelation).
    + intros []; simpl; [|apply (W2 KWay)|apply (W2 KRelation)].
      specialize (W2 KNode). simpl in W2. lia.
    + intros i l0 Hl0. simpl in Hl0. destruct (decide (osm_id o = i)) as [<-|Hne].
      * rewrite lookup_insert_eq in Hl0. injection Hl0 as <-. by exists (y, x).
      * rewrite lookup_insert_ne in Hl0 by done. by eapply W3.
    + intros κ l0 Hl0. simpl in Hl0. destruct (decide ((x, y) = κ)) as [<-|Hne].
      * rewrite lookup_insert_eq in Hl0. by injection Hl0 as <-.
      * rewrite lookup_insert_ne in Hl0 by done. destruct (W4 κ l0 Hl0) as [? ?].
        split; [done|]. by eapply listed_grows.
  - split; [|done]. exists (y, x). by eapply node_at_grows.
Qed.

Lemma wf_Ways_add s l u s' :
  wf s → Ways_add l s = inr (u, s') → wf s' ∧ grows s s'.
Proof.
  intros Hwf Hadd. apply Ways_add_inr in Hadd as (o & z & Ho & Hz & ->).
  set (s' := set_ways _ s).
  assert (Hg : grows s s').
  { apply grows_same_heap; try done.
    intros [] i Hi; simpl in *; [done| |done].
    destruct (decide (osm_id o = i)) as [->|]; [by rewrite lookup_insert_eq|].
    by rewrite lookup_insert_ne. }
  split; [|done].
  pose proof Hwf as (W1 & W2 & W3 & W4 & _).
  apply (wf_same_heap s s'); try done.
  - intros [] i l0 Hl0; simpl in *.
    + by apply (W1 KNode).
    + destruct (decide (osm_id o = i)) as [<-|Hne].
      * rewrite lookup_insert_eq in Hl0. injection Hl0 as <-. exists o, z.
        repeat split; try done. lia.
      * rewrite lookup_insert_ne in Hl0 by done.
        destruct (W1 KWay i l0 Hl0) as (o0 & z0 & ? & ? & ? & Hlow). simpl in Hlow.
        exists o0, z0. repeat split; try done. lia.
    + by apply (W1 KRelation).
  - intros []; simpl; [apply (W2 KNode)| |apply (W2 KRelation)].
    specialize (W2 KWay). simpl in W2. lia.
Qed.

Lemma wf_Relations_add s l u s' :
  wf s → Relations_add l s = inr (u, s') → wf s' ∧ grows s s'.
Proof.
  intros Hwf Hadd. apply Relations_add_inr in Hadd as (o & z & Ho & Hz & ->).
  set (s' := set_relations _ s).
  assert (Hg : grows s s').
  { apply grows_same_heap; try done.
    intros [] i Hi; simpl in *; [done|done|].
    destruct (decide (osm_id o = i)) as [->|]; [by rewrite lookup_insert_eq|].
    by rewrite lookup_insert_ne. }
  split; [|done].
  pose proof Hwf as (W1 & W2 & W3 & W4 & _).
  apply (wf_same_heap s s'); try done.
  - intros [] i l0 Hl0; simpl in *.
    + by apply (W1 KNode).
    + by apply (W1 KWay).
    + destruct (decide (osm_id o = i)) as [<-|Hne].
      * rewrite lookup_insert_eq in Hl0. injection Hl0 as <-. exists o, z.
        repeat split; try done. lia.
      * rewrite lookup_insert_ne in Hl0 by done.
        destruct (W1 KRelation i l0 Hl0) as (o0 & z0 & ? & ? & ? & Hlow). simpl in Hlow.
        exists o0, z0. repeat split; try done. lia.
  - intros []; simpl; [apply (W2 KNode)|apply (W2 KWay)|].
    specialize (W2 KRelation). simpl in W2. lia.
Qed.

(** Lowering the lowest identifier, as [add_new] does first. *)
Lemma wf_lower s s' :
  wf s → heap s' = heap s → bldgs s' = bldgs s → bldg_id_tag s' = bldg_id_tag s →
  primary_osm_element s' = primary_osm_element s →
  (∀ k, items k s' = items k s) →
  nodes_by_lat_lon (st_nodes s') = nodes_by_lat_lon (st_nodes s) →
  (∀ k, lowest_id k s' ≤ lowest_id k s) →
  wf s' ∧ grows s s'.
Proof.
  intros Hwf Hh Hb Hj Hp Hi Hx Hlow.
  assert (Hg : grows s s').
  { apply grows_same_heap; try done; [intros k i; by rewrite Hi|by rewrite Hx]. }
  split; [|done].
  pose proof Hwf as (W1 & W2 & W3 & W4 & _).
  apply (wf_same_heap s s'); try done.
  - intros k i l Hl. rewrite Hi in Hl. destruct (W1 k i l Hl) as (o & z & ? & ? & ? & ?).
    exists o, z. repeat split; try done. specialize (Hlow k). lia.
  - intros k. specialize (Hlow k). specialize (W2 k). lia.
  - intros i l Hl. specialize (Hi KNode). simpl in Hi. rewrite Hi in Hl. by eapply W3.
  - intros κ l Hl. rewrite Hx in Hl. destruct (W4 κ l Hl) as [? ?]. split; [done|].
    by eapply listed_grows.
Qed.

(** *** Runs that keep the state consistent *)

Lemma stable_in_heap l : stable (in_heap l).
Proof. intros s s' Hg Hl. apply grows_length in Hg. unfold in_heap in *. lia. Qed.

Lemma stable_readable_node n : stable (λ s, readable_node s n).
Proof. intros s s' Hg. by apply readable_node_grows. Qed.

Lemma stable_True : stable (λ _, True).
Proof. done. Qed.

Lemma stable_and F G : stable F → stable G → stable (λ s, F s ∧ G s).
Proof. intros HF HG s s' Hg [? ?]. split; [by eapply HF|by eapply HG]. Qed.

Lemma stable_forall {A} (F : A → state → Prop) :
  (∀ a, stable (F a)) → stable (λ s, ∀ a, F a s).
Proof. intros HF s s' Hg H a. by eapply HF. Qed.

Lemma stable_impl (C : Prop) F : stable F → stable (λ s, C → F s).
Proof. intros HF s s' Hg H HC. eapply HF; [done|by apply H]. Qed.

Lemma keeps_ret {A} (a : A) (P : state → Prop) (Q : A → state → Prop) :
  (∀ s, wf s → P s → Q a s) → keeps P (ret a) Q.
Proof.
  intros HQ s b s' Hwf HP Hrun. apply ret_inr in Hrun as [-> ->].
  split; [done|]. split; [apply grows_refl|by apply HQ].
Qed.

Lemma keeps_raise {A} e P (Q : A → state → Prop) : keeps P (raise e) Q.
Proof. intros s a s' _ _ Hrun. by apply raise_inr in Hrun. Qed.

Lemma keeps_bind {A B} (m : M state A) (k : A → M state B) P Q Q' :
  keeps P m Q → (∀ a, keeps (Q a) (k a) Q') → keeps P (bind m k) Q'.
Proof.
  intros Hm Hk s b s' Hwf HP Hrun. apply bind_inr in Hrun as (a & s1 & H1 & H2).
  destruct (Hm _ _ _ Hwf HP H1) as (Hwf1 & Hg1 & HQ).
  destruct (Hk a _ _ _ Hwf1 HQ H2) as (Hwf2 & Hg2 & HQ').
  split; [done|]. split; [by eapply grows_trans|done].
Qed.

Lemma keeps_conseq {A} (m : M state A) (P P' : state → Prop) (Q Q' : A → state → Prop) :
  keeps P m Q → (∀ s, wf s → P' s → P s) → (∀ a s, wf s → Q a s → Q' a s) →
  keeps P' m Q'.
Proof.
  intros Hm HP HQ s a s' Hwf HP' Hrun.
  destruct (Hm _ _ _ Hwf (HP _ Hwf HP') Hrun) as (Hwf' & Hg & HQa).
  split; [done|]. split; [done|by apply HQ].
Qed.

Lemma keeps_frame {A} (m : M state A) P Q F :
  stable F → keeps P m Q → keeps (λ s, P s ∧ F s) m (λ a s, Q a s ∧ F s).
Proof.
  intros HF Hm s a s' Hwf [HP HFs] Hrun.
  destruct (Hm _ _ _ Hwf HP Hrun) as (Hwf' & Hg & HQ).
  split; [done|]. split; [done|]. split; [done|by eapply HF].
Qed.

(** A step that changes nothing and tells [Φ] of what it returns. *)
Lemma keeps_read {A} (m : M state A) P (Φ : A → state → Prop) :
  (∀ s a s', wf s → m s = inr (a, s') → s' = s ∧ Φ a s) →
  keeps P m (λ a s, P s ∧ Φ a s).
Proof.
  intros Hm s a s' Hwf HP Hrun. destruct (Hm _ _ _ Hwf Hrun) as [-> HΦ].
  split; [done|]. split; [apply grows_refl|done].
Qed.

Lemma keeps_for_each {A} (l : list A) (f : A → M state unit) (I : state → Prop) :
  (∀ a, a ∈ l → keeps I (f a) (λ _, I)) → keeps I (for_each l f) (λ _, I).
Proof.
  induction l as [|a l IH]; intros Hf.
  - by apply keeps_ret.
  - simpl. eapply keeps_bind; [apply Hf; by left|].
    intros []. apply IH. intros a' Ha'. apply Hf. by right.
Qed.

Lemma keeps_for_fold {A B} (l : list A) (b : B) (f : B → A → M state B)
    (I : B → state → Prop) :
  (∀ b a, a ∈ l → keeps (I b) (f b a) I) → keeps (I b) (for_fold l b f) I.
Proof.
  revert b. induction l as [|a l IH]; intros b Hf.
  - by apply keeps_ret.
  - simpl. eapply keeps_bind; [apply Hf; by left|].
    intros b'. apply IH. intros b'' a' Ha'. apply Hf. by right.
Qed.

(** The reading steps. *)

Lemma keeps_gets {A} (f : state → A) P : keeps P (gets f) (λ a s, P s ∧ a = f s).
Proof. apply keeps_read. intros s a s' _ H. apply gets_inr in H. by destruct H as [-> ->]. Qed.

Lemma keeps_of_option {A} e (x : option A) P :
  keeps P (of_option e x) (λ a s, P s ∧ x = Some a).
Proof. apply keeps_read. intros s a s' _ H. apply of_option_inr in H. by destruct H as [-> ->]. Qed.

Lemma keeps_of_sum {A} (x : exn + A) P : keeps P (of_sum x) (λ a s, P s ∧ x = inr a).
Proof. apply keeps_read. intros s a s' _ H. apply of_sum_inr in H. by destruct H as [-> ->]. Qed.

Lemma keeps_deref l P : keeps P (deref l) (λ o s, P s ∧ heap s !! l = Some o).
Proof. apply keeps_read. intros s a s' _ H. apply deref_inr in H. by destruct H as [? ->]. Qed.

Lemma keeps_attr attrib key P : keeps P (attr attrib key) (λ _ s, P s ∧ True).
Proof.
  apply keeps_read. intros s a s' _ H. unfold attr in H.
  by apply of_option_inr in H as [_ ->].
Qed.

Lemma keeps_get_nodes o P : keeps P (get_nodes o) (λ ns s, P s ∧ obj_body o = BWay ns).
Proof. apply keeps_read. intros s a s' _ H. apply get_nodes_inr in H. by destruct H as [? ->]. Qed.

Lemma keeps_get_members o P :
  keeps P (get_members o) (λ ms s, P s ∧ obj_body o = BRelation ms).
Proof. apply keeps_read. intros s a s' _ H. apply get_members_inr in H. by destruct H as [? ->]. Qed.

Lemma keeps_the_primary P : keeps P the_primary (λ p s, P s ∧ in_heap p s).
Proof.
  apply keeps_read. intros s a s' Hwf H. unfold the_primary in H.
  apply bind_inr in H as (p & s1 & Hp & H). apply gets_inr in Hp as [-> ->].
  apply of_option_inr in H as [Hp ->]. split; [done|].
  destruct Hwf as (_ & _ & _ & _ & _ & _ & W7). by apply W7.
Qed.

Lemma keeps_Nodes_getitem key P :
  keeps P (Nodes_getitem key) (λ n s, P s ∧ readable_node s n).
Proof.
  apply keeps_read. intros s a s' Hwf H. unfold Nodes_getitem in H.
  apply bind_inr in H as (c & s1 & Hc & H). apply gets_inr in Hc as [-> ->].
  apply of_option_inr in H as [Hn ->]. split; [done|].
  destruct Hwf as (W1 & _ & W3 & _). split; [by eapply W3|].
  destruct (W1 KNode key a Hn) as (o & z & Ho & Hid & _).
  exists o. split; [done|]. rewrite Hid. simpl. by rewrite Hn.
Qed.

Lemma keeps_getitem k key P : keeps P (getitem k key) (λ l s, P s ∧ in_heap l s).
Proof.
  apply keeps_read. intros s a s' Hwf H.
  assert (Hl : items k s !! key = Some a ∧ s' = s).
  { destruct k; simpl in *;
      unfold Nodes_getitem, Ways_getitem, Relations_getitem in H;
      apply bind_inr in H as (c & s1 & Hc & H); apply gets_inr in Hc as [-> ->];
      by apply of_option_inr in H as [? ->]. }
  destruct Hl as [Hl ->]. split; [done|].
  destruct Hwf as (W1 & _). destruct (W1 k key a Hl) as (o & z & Ho & _).
  by eapply lookup_lt_Some.
Qed.

(** The steps that write. *)

Lemma keeps_new o : keeps (λ s, body_ok s o) (new o) (λ l s, heap s !! l = Some o).
Proof.
  intros s l s' Hwf Hok Hrun. apply new_inr in Hrun as [-> ->].
  destruct (wf_new s o Hwf Hok) as [? ?]. split; [done|]. split; [done|].
  simpl. by rewrite lookup_app_r, Nat.sub_diag.
Qed.

Lemma keeps_add_tag l key value :
  keeps (λ _, True) (add_tag l key value) (λ _ _, True).
Proof.
  intros s u s' Hwf _ Hrun. apply add_tag_inr in Hrun as (o & Ho & ->).
  destruct (wf_store s l o _ Hwf Ho (extends_tags s o (insert key value))) as [? ?].
  split; [done|split; done].
Qed.

Lemma keeps_delete_tag l key :
  keeps (λ _, True) (delete_tag l key) (λ _ _, True).
Proof.
  intros s u s' Hwf _ Hrun. apply delete_tag_inr in Hrun as (o & Ho & _ & _ & ->).
  destruct (wf_store s l o _ Hwf Ho (extends_tags s o (delete key))) as [? ?].
  split; [done|split; done].
Qed.

Lemma keeps_add_node l n :
  keeps (λ s, readable_node s n) (add_node l n) (λ _ _, True).
Proof.
  intros s u s' Hwf Hn Hrun. apply add_node_inr in Hrun as (o & ns & Ho & Hns & ->).
  destruct (wf_store s l o (Obj (osm_id o) (tags o) (BWay (ns ++ [n]))) Hwf Ho) as [? ?];
    [|split; [done|split; done]].
  split; [done|]. rewrite Hns. exists [n]. split; [done|]. by apply Forall_singleton.
Qed.

Lemma keeps_add_member l m role :
  keeps (in_heap m) (add_member l m role) (λ _ _, True).
Proof.
  intros s u s' Hwf Hm Hrun. apply add_member_inr in Hrun as (o & ms & Ho & Hms & ->).
  destruct (wf_store s l o (Obj (osm_id o) (tags o) (BRelation (ms ++ [(m, role)]))) Hwf Ho)
    as [? ?]; [|split; [done|split; done]].
  split; [done|]. rewrite Hms. exists [(m, role)]. split; [done|]. by apply Forall_singleton.
Qed.

Lemma keeps_Nodes_add l :
  keeps (λ _, True) (Nodes_add l) (λ _ s, readable_node s l).
Proof. intros s u s' Hwf _ Hrun. by apply (wf_Nodes_add s l u). Qed.

Lemma keeps_Ways_add l : keeps (λ _, True) (Ways_add l) (λ _ _, True).
Proof.
  intros s u s' Hwf _ Hrun. destruct (wf_Ways_add s l u s' Hwf Hrun). split; [done|split; done].
Qed.

Lemma keeps_Relations_add l : keeps (λ _, True) (Relations_add l) (λ _ _, True).
Proof.
  intros s u s' Hwf _ Hrun. destruct (wf_Relations_add s l u s' Hwf Hrun). split; [done|split; done].
Qed.

Lemma keeps_pre_True {A} (m : M state A) P Q :
  keeps (λ _, True) m Q → keeps P m Q.
Proof. intros Hm. eapply keeps_conseq; [exact Hm|done|done]. Qed.

Lemma keeps_stable {A} (m : M state A) Q F :
  stable F → keeps (λ _, True) m Q → keeps F m (λ a s, Q a s ∧ F s).
Proof.
  intros HF Hm. eapply keeps_conseq; [apply (keeps_frame _ _ _ F HF Hm)|by intros|done].
Qed.

(** *** The parser keeps the state consistent *)

Lemma wf_meta s s' :
  wf s → heap s' = heap s → st_nodes s' = st_nodes s → st_ways s' = st_ways s →
  st_relations s' = st_relations s →
  (∀ v parts, bldgs s' !! v = Some parts → Forall (λ p, p < length (heap s))%nat parts) →
  (∀ p, primary_osm_element s' = Some p → (p < length (heap s))%nat) →
  wf s'.
Proof.
  intros (W1 & W2 & W3 & W4 & W5 & W6 & W7) Hh Hn Hw Hr W6' W7'.
  assert (Hi : ∀ k, items k s' = items k s) by (intros []; simpl; congruence).
  assert (Hl : ∀ k, lowest_id k s' = lowest_id k s) by (intros []; simpl; congruence).
  assert (Hat : ∀ n pt, node_at s n pt → node_at s' n pt).
  { intros n pt (o & lat & lon & ? & ?). exists o, lat, lon. by rewrite Hh. }
  assert (Hli : ∀ n, listed KNode s n → listed KNode s' n).
  { intros n (o & ? & ?). exists o. by rewrite Hh, Hi. }
  split; [|split; [|split; [|split; [|split; [|split]]]]].
  - intros k i l. rewrite Hi, Hl, Hh. apply W1.
  - intros k. rewrite Hl. apply W2.
  - intros i l. rewrite Hn. intros Hil. destruct (W3 i l Hil) as [pt ?]. exists pt. auto.
  - intros κ l. rewrite Hn. intros Hκ. destruct (W4 κ l Hκ). split; auto.
  - intros l o. rewrite Hh. intros Ho. specialize (W5 l o Ho). unfold body_ok in *.
    destruct (obj_body o); [done| |by rewrite Hh].
    eapply Forall_impl; [exact W5|]. intros n [[pt ?] ?]. split; [exists pt|]; auto.
  - intros v parts. rewrite Hh. apply W6'.
  - intros p. rewrite Hh. apply W7'.
Qed.

Lemma keeps_set_primary l :
  keeps (in_heap l) (modify (set_primary (Some l))) (λ _ _, True).
Proof.
  intros s u s' Hwf Hl Hrun. apply modify_inr in Hrun as ->.
  split; [|split; [|done]].
  - apply (wf_meta s); try done.
    + destruct Hwf as (_ & _ & _ & _ & _ & W6 & _). exact W6.
    + intros p [= <-]. exact Hl.
  - by apply grows_same_heap.
Qed.

Lemma keeps_bucket v p :
  keeps (in_heap p)
    (modify (λ s, set_bldgs (<[v := default [] (bldgs s !! v) ++ [p]]> (bldgs s)) s))
    (λ _ _, True).
Proof.
  intros s u s' Hwf Hp Hrun. apply modify_inr in Hrun as ->.
  pose proof Hwf as (_ & _ & _ & _ & _ & W6 & W7).
  split; [|split; [|done]].
  - apply (wf_meta s); try done.
    intros v' parts. simpl. destruct (decide (v = v')) as [<-|Hne].
    + rewrite lookup_insert_eq. intros [= <-]. apply Forall_app. split.
      * destruct (bldgs s !! v) as [parts|] eqn:Hv; [by eapply W6|by apply Forall_nil].
      * by apply Forall_singleton.
    + rewrite lookup_insert_ne by done. apply W6.
  - split; [|split; [done|split; [done|split; [|done]]]].
    + intros l o Ho. exists o. split; [done|]. split; [done|].
      destruct (obj_body o); [done|exists []; by rewrite app_nil_r..].
    + intros v' parts Hv'. simpl. destruct (decide (v = v')) as [<-|Hne].
      * rewrite lookup_insert_eq, Hv'. by exists [p].
      * rewrite lookup_insert_ne by done. exists []. by rewrite app_nil_r.
Qed.

Lemma keeps_lower_nodes :
  keeps (λ _, True)
    (upd_nodes (λ c, mkNodes (nodes c) (nodes_by_lat_lon c) (nodes_lowest_id c - 1)))
    (λ _ _, True).
Proof.
  intros s u s' Hwf _ Hrun. apply modify_inr in Hrun as ->.
  destruct (wf_lower s (set_nodes (mkNodes (nodes (st_nodes s))
              (nodes_by_lat_lon (st_nodes s)) (nodes_lowest_id (st_nodes s) - 1)) s))
    as [? ?]; [done|done|done|done|done|by intros []|done|intros []; simpl; lia|].
  split; [done|split; done].
Qed.

Lemma keeps_lower_ways :
  keeps (λ _, True) (upd_ways (λ c, mkWays (_ways c) (ways_lowest_id c - 1))) (λ _ _, True).
Proof.
  intros s u s' Hwf _ Hrun. apply modify_inr in Hrun as ->.
  destruct (wf_lower s (set_ways (mkWays (_ways (st_ways s))
              (ways_lowest_id (st_ways s) - 1)) s))
    as [? ?]; [done|done|done|done|done|by intros []|done|intros []; simpl; lia|].
  split; [done|split; done].
Qed.

Lemma keeps_lower_relations :
  keeps (λ _, True)
    (upd_relations (λ c, mkRelations (_relations c) (relations_lowest_id c - 1)))
    (λ _ _, True).
Proof.
  intros s u s' Hwf _ Hrun. apply modify_inr in Hrun as ->.
  destruct (wf_lower s (set_relations (mkRelations (_relations (st_relations s))
              (relations_lowest_id (st_relations s) - 1)) s))
    as [? ?]; [done|done|done|done|done|by intros []|done|intros []; simpl; lia|].
  split; [done|split; done].
Qed.

Lemma keeps_new_in_heap o P :
  (∀ s, body_ok s o) → keeps P (new o) (λ l s, in_heap l s).
Proof.
  intros Hok. eapply keeps_conseq; [apply keeps_new|intros; apply Hok|].
  intros l s _ Hl. unfold in_heap. cbv beta in Hl. by apply lookup_lt_Some in Hl.
Qed.

Lemma keeps_Nodes_add_new lat lon P :
  keeps P (Nodes_add_new lat lon) (λ l s, readable_node s l).
Proof.
  apply keeps_pre_True. unfold Nodes_add_new.
  eapply keeps_bind; [apply keeps_lower_nodes|]. intros [].
  eapply keeps_bind; [apply keeps_gets|]. intros lowest.
  eapply keeps_bind; [apply keeps_new_in_heap; intros; exact I|]. intros l.
  eapply keeps_bind; [apply keeps_pre_True, keeps_Nodes_add|]. intros [].
  by apply keeps_ret.
Qed.

Lemma keeps_Ways_add_new P : keeps P Ways_add_new (λ l s, in_heap l s).
Proof.
  apply keeps_pre_True. unfold Ways_add_new.
  eapply keeps_bind; [apply keeps_lower_ways|]. intros [].
  eapply keeps_bind; [apply keeps_gets|]. intros lowest.
  eapply keeps_bind; [apply keeps_new_in_heap; intros; by apply Forall_nil|]. intros l.
  eapply keeps_bind; [apply keeps_stable; [apply stable_in_heap|apply keeps_Ways_add]|].
  intros []. apply keeps_ret. by intros s _ [_ ?].
Qed.

Lemma keeps_Relations_add_new P : keeps P Relations_add_new (λ l s, in_heap l s).
Proof.
  apply keeps_pre_True. unfold Relations_add_new.
  eapply keeps_bind; [apply keeps_lower_relations|]. intros [].
  eapply keeps_bind; [apply keeps_gets|]. intros lowest.
  eapply keeps_bind; [apply keeps_new_in_heap; intros; by apply Forall_nil|]. intros l.
  eapply keeps_bind;
    [apply keeps_stable; [apply stable_in_heap|apply keeps_Relations_add]|].
  intros []. apply keeps_ret. by intros s _ [_ ?].
Qed.

Lemma keeps_to_float x P : keeps P (to_float x) (λ _ s, P s ∧ True).
Proof.
  apply keeps_read. intros s a s' _ H. apply to_float_inr in H. by destruct H as [_ ->].
Qed.

Lemma keeps_add_new_if_not_exist lat lon P :
  keeps P (Nodes_add_new_if_not_exist lat lon) (λ l s, readable_node s l).
Proof.
  apply keeps_pre_True. unfold Nodes_add_new_if_not_exist.
  eapply keeps_bind; [apply keeps_to_float|]. intros flat.
  eapply keeps_bind; [apply keeps_to_float|]. intros flon.
  eapply keeps_bind; [apply keeps_gets|]. intros index.
  destruct (index !! (flat, flon)) as [l|] eqn:Hl; [|apply keeps_Nodes_add_new].
  apply keeps_ret. intros s (_ & _ & _ & W4 & _) [_ ->].
  destruct (W4 _ _ Hl) as [Hat Hlisted]. split; [by eexists|done].
Qed.

(** [start] *)
Lemma keeps_start tag attrib : keeps (λ _, True) (start tag attrib) (λ _ _, True).
Proof.
  unfold start.
  destruct (decide (tag = "node")).
  { eapply keeps_bind; [apply keeps_attr|]. intros i.
    eapply keeps_bind; [apply keeps_attr|]. intros lat.
    eapply keeps_bind; [apply keeps_attr|]. intros lon.
    eapply keeps_bind; [apply keeps_new_in_heap; intros; exact I|]. intros l.
    apply keeps_set_primary. }
  destruct (decide (tag = "way")).
  { eapply keeps_bind; [apply keeps_attr|]. intros i.
    eapply keeps_bind; [apply keeps_new_in_heap; intros; by apply Forall_nil|]. intros l.
    apply keeps_set_primary. }
  destruct (decide (tag = "relation")).
  { eapply keeps_bind; [apply keeps_attr|]. intros i.
    eapply keeps_bind; [apply keeps_new_in_heap; intros; by apply Forall_nil|]. intros l.
    apply keeps_set_primary. }
  destruct (decide (tag = "tag")).
  { eapply keeps_bind; [apply keeps_the_primary|]. intros p.
    eapply keeps_bind; [apply keeps_attr|]. intros k.
    eapply keeps_bind; [apply keeps_attr|]. intros v.
    apply keeps_pre_True, keeps_add_tag. }
  destruct (decide (tag = "nd")).
  { eapply keeps_bind; [apply keeps_the_primary|]. intros p.
    eapply keeps_bind; [apply keeps_deref|]. intros o.
    eapply keeps_bind; [apply keeps_get_nodes|]. intros ns.
    eapply keeps_bind; [apply keeps_attr|]. intros ref.
    eapply keeps_bind; [apply keeps_Nodes_getitem|]. intros node.
    eapply keeps_conseq; [apply keeps_add_node|by intros s _ [_ ?]|done]. }
  destruct (decide (tag = "member")); [|by apply keeps_ret].
  eapply keeps_bind; [apply keeps_attr|]. intros ty.
  eapply keeps_bind with (Q := λ element s, ∀ e, element = Some e → in_heap e s).
  { destruct (decide (ty = "node")).
    { eapply keeps_bind; [apply keeps_attr|]. intros ref.
      eapply keeps_bind; [apply (keeps_getitem KNode)|]. intros el.
      apply keeps_ret. by intros s _ [_ ?] e' [= <-]. }
    destruct (decide (ty = "way")).
    { eapply keeps_bind; [apply keeps_attr|]. intros ref.
      eapply keeps_bind; [apply (keeps_getitem KWay)|]. intros el.
      apply keeps_ret. by intros s _ [_ ?] e' [= <-]. }
    destruct (decide (ty = "relation")).
    { eapply keeps_bind; [apply keeps_attr|]. intros ref.
      eapply keeps_bind; [apply (keeps_getitem KRelation)|]. intros el.
      apply keeps_ret. by intros s _ [_ ?] e' [= <-]. }
    apply keeps_ret. by intros. }
  intros element.
  eapply keeps_bind; [apply keeps_the_primary|]. intros p.
  eapply keeps_bind; [apply keeps_deref|]. intros o.
  eapply keeps_bind; [apply keeps_get_members|]. intros ms.
  eapply keeps_bind; [apply keeps_of_option|]. intros el.
  eapply keeps_bind; [apply keeps_attr|]. intros role.
  eapply keeps_conseq; [apply keeps_add_member| |done].
  intros s _ [[[[[Hel _] _] _] ->] _]. by apply Hel.
Qed.

(** [end] *)
Lemma keeps_end tag : keeps (λ _, True) (end_ tag) (λ _ _, True).
Proof.
  unfold end_.
  eapply keeps_bind with (Q := λ _ _, True).
  { destruct (decide (tag = "node")).
    { eapply keeps_bind; [apply keeps_the_primary|]. intros p.
      eapply keeps_conseq; [apply keeps_Nodes_add|done|done]. }
    destruct (decide (tag = "way")).
    { eapply keeps_bind; [apply keeps_the_primary|]. intros p.
      apply keeps_pre_True, keeps_Ways_add. }
    destruct (decide (tag = "relation")).
    { eapply keeps_bind; [apply keeps_the_primary|]. intros p.
      apply keeps_pre_True, keeps_Relations_add. }
    by apply keeps_ret. }
  intros [].
  destruct (decide (tag = "way" ∨ tag = "relation")) as [Hwr|Hwr]; [|by apply keeps_ret].
  eapply keeps_bind; [apply keeps_the_primary|]. intros p.
  eapply keeps_bind; [apply keeps_deref|]. intros o.
  eapply keeps_bind; [apply keeps_gets|]. intros key.
  destruct (tags o !! key) as [v|]; [|by apply keeps_ret].
  eapply keeps_conseq; [apply keeps_bucket| |done].
  by intros s _ [[[_ ?] _] _].
Qed.

Lemma keeps_handle e : keeps (λ _, True) (handle e) (λ _ _, True).
Proof. destruct e; [apply keeps_start|apply keeps_end]. Qed.

Lemma wf_init join : wf (init join).
Proof.
  split; [|split; [|split; [|split; [|split; [|split]]]]]; try done.
  - by intros [] i l.
  - by intros [].
Qed.


(** *** [close] keeps the state consistent *)

Lemma keeps_carry {A} (m : M state A) Q F :
  stable F → keeps F m Q → keeps F m (λ a s, Q a s ∧ F s).
Proof.
  intros HF Hm. eapply keeps_conseq; [apply (keeps_frame _ _ _ F HF Hm)|by intros|done].
Qed.

Lemma keeps_with {A} (m : M state A) Q F :
  stable F → keeps (λ _, True) m Q → keeps F m (λ _ s, F s).
Proof.
  intros HF Hm. eapply keeps_conseq; [apply (keeps_stable _ _ _ HF Hm)|done|].
  by intros a s _ [_ ?].
Qed.

Lemma keeps_clean_building_tags l :
  keeps (λ _, True) (clean_building_tags l) (λ _ _, True).
Proof.
  unfold clean_building_tags.
  eapply keeps_bind; [apply keeps_deref|]. intros o.
  destruct (tags o !! "building"), (tags o !! "building:part");
    try (by apply keeps_ret); try (apply keeps_pre_True, keeps_delete_tag).
  eapply keeps_bind; [apply keeps_pre_True, keeps_add_tag|]. intros [].
  apply keeps_delete_tag.
Qed.

Lemma keeps_clean_up : keeps (λ _, True) clean_up (λ _ _, True).
Proof.
  unfold clean_up.
  eapply keeps_bind; [apply keeps_gets|]. intros ws.
  eapply keeps_bind.
  { apply keeps_pre_True, keeps_for_each. intros l _. apply keeps_clean_building_tags. }
  intros []. eapply keeps_bind; [apply keeps_gets|]. intros rs.
  apply keeps_pre_True, keeps_for_each. intros l _. apply keeps_clean_building_tags.
Qed.

Lemma keeps_points_to_way points P :
  keeps P (_points_to_way points) (λ way s, in_heap way s).
Proof.
  unfold _points_to_way.
  eapply keeps_bind; [apply keeps_Ways_add_new|]. intros way.
  eapply keeps_bind.
  { apply keeps_for_each. intros point _.
    eapply keeps_bind.
    { apply keeps_carry; [apply stable_in_heap|apply keeps_add_new_if_not_exist]. }
    intros node. cbv beta.
    eapply keeps_conseq;
      [apply (keeps_frame _ _ _ (in_heap way) (stable_in_heap way) (keeps_add_node way node))
      |done|]. by intros [] s _ [_ ?]. }
  intros []. by apply keeps_ret.
Qed.

Lemma keeps_add_polygon_to_relation polygon relation :
  keeps (λ _, True) (add_polygon_to_relation polygon relation) (λ _ _, True).
Proof.
  unfold add_polygon_to_relation.
  eapply keeps_bind; [apply keeps_points_to_way|]. intros way.
  eapply keeps_bind; [apply keeps_add_member|]. intros [].
  apply keeps_for_each. intros ring _.
  eapply keeps_bind; [apply keeps_points_to_way|]. intros way'.
  apply keeps_add_member.
Qed.

Lemma keeps_polygon_with_interior_to_relation polygon P :
  keeps P (_polygon_with_interior_to_relation polygon) (λ r s, in_heap r s).
Proof.
  unfold _polygon_with_interior_to_relation.
  eapply keeps_bind; [apply keeps_Relations_add_new|]. intros relation.
  eapply keeps_bind.
  { eapply (keeps_with _ _ (in_heap relation)); [apply stable_in_heap|apply keeps_add_tag]. }
  intros []. eapply keeps_bind.
  { eapply (keeps_with _ _ (in_heap relation));
      [apply stable_in_heap|apply keeps_add_polygon_to_relation]. }
  intros []. by apply keeps_ret.
Qed.

Lemma keeps_convert_multipolygon multi P :
  keeps P (convert_multipolygon multi) (λ r s, in_heap r s).
Proof.
  unfold convert_multipolygon.
  eapply keeps_bind; [apply keeps_Relations_add_new|]. intros relation.
  eapply keeps_bind.
  { eapply (keeps_with _ _ (in_heap relation)); [apply stable_in_heap|apply keeps_add_tag]. }
  intros []. eapply keeps_bind.
  { eapply (keeps_with _ _ (in_heap relation)); [apply stable_in_heap|].
    apply keeps_for_each. intros polygon _. apply keeps_add_polygon_to_relation. }
  intros []. by apply keeps_ret.
Qed.

Lemma stable_option_in_heap (x : option nat) : stable (λ s, ∀ e, x = Some e → in_heap e s).
Proof. apply stable_forall. intros e. apply stable_impl, stable_in_heap. Qed.

Lemma keeps_outline_to_element outline element :
  keeps (λ s, ∀ e, element = Some e → in_heap e s) (outline_to_element outline element)
    (λ r s, ∀ e, r = Some e → in_heap e s).
Proof.
  unfold outline_to_element, _simple_polygon_to_way.
  destruct outline as [p|ps|]; [destruct (interiors p)|..].
  - eapply keeps_bind; [apply keeps_points_to_way|]. intros e0.
    apply keeps_ret. by intros s _ ? e' [= <-].
  - eapply keeps_bind; [apply keeps_polygon_with_interior_to_relation|]. intros e0.
    apply keeps_ret. by intros s _ ? e' [= <-].
  - eapply keeps_bind; [apply keeps_convert_multipolygon|]. intros e0.
    apply keeps_ret. by intros s _ ? e' [= <-].
  - by apply keeps_ret.
Qed.

Lemma keeps_add_outline br outline element :
  keeps (λ s, ∀ e, element = Some e → in_heap e s) (add_outline br outline element)
    (λ e s, in_heap e s).
Proof.
  unfold add_outline.
  eapply keeps_bind; [apply keeps_outline_to_element|]. intros r.
  eapply keeps_bind; [apply keeps_of_option|]. intros e0.
  eapply keeps_bind with (Q := λ _ s, in_heap e0 s).
  { eapply keeps_conseq;
      [apply (keeps_carry _ _ _ (stable_in_heap e0) (keeps_add_member br e0 "outline"))| |].
    - intros s _ [Hr ->]. by apply Hr.
    - by intros [] s _ [_ ?]. }
  intros []. by apply keeps_ret.
Qed.

Lemma keeps_copy_tag element acc kv :
  keeps (λ _, True) (copy_tag element acc kv) (λ _ _, True).
Proof.
  unfold copy_tag. eapply keeps_bind with (Q := λ _ _, True).
  - destruct (decide (kv.1 ∉ part_level_tags)); [apply keeps_add_tag|by apply keeps_ret].
  - intros []. by apply keeps_ret.
Qed.

Lemma keeps_propagate_tags element part :
  keeps (λ _, True) (propagate_tags element part) (λ _ _, True).
Proof.
  unfold propagate_tags.
  eapply keeps_bind; [apply keeps_deref|]. intros o.
  eapply keeps_bind with (Q := λ _ _, True).
  { apply keeps_pre_True.
    apply (keeps_for_fold _ _ _ (λ _ _, True)). intros acc kv _. apply keeps_copy_tag. }
  intros ks. eapply keeps_bind.
  { apply keeps_for_each. intros k _. apply keeps_delete_tag. }
  intros []. eapply keeps_bind; [apply keeps_deref|]. intros o'.
  destruct (tags o' !! "building"); [|by apply keeps_ret].
  eapply keeps_bind; [apply keeps_pre_True, keeps_add_tag|]. intros [].
  apply keeps_delete_tag.
Qed.

Lemma stable_all_in_heap (parts : list nat) : stable (λ s, ∀ p, p ∈ parts → in_heap p s).
Proof. apply stable_forall. intros p. apply stable_impl, stable_in_heap. Qed.

Lemma keeps_retag_parts br element parts :
  keeps (λ s, ∀ p, p ∈ parts → in_heap p s) (retag_parts br element parts) (λ _ _, True).
Proof.
  unfold retag_parts.
  eapply keeps_conseq with (P := λ s, ∀ p, p ∈ parts → in_heap p s)
                           (Q := λ _ s, ∀ p, p ∈ parts → in_heap p s); [|done|done].
  apply keeps_for_each. intros part Hpart.
  eapply keeps_bind.
  { eapply (keeps_with _ _ _ (stable_all_in_heap parts) (keeps_propagate_tags element part)). }
  intros []. cbv beta.
  eapply keeps_conseq;
    [apply (keeps_frame _ _ _ _ (stable_all_in_heap parts) (keeps_add_member br part "part"))
    | |by intros [] s _ [_ ?]].
  intros s _ Hall. split; [by apply Hall|done].
Qed.

Lemma keeps_collect_polygons parts P :
  keeps P (collect_polygons parts) (λ _ s, P s ∧ True).
Proof.
  apply keeps_read. intros s a s' _ H. by apply collect_polygons_read in H as ->.
Qed.

Lemma keeps_build_relation element parts :
  keeps (λ s, (∀ e, element = Some e → in_heap e s) ∧ ∀ p, p ∈ parts → in_heap p s)
    (build_relation element parts)
    (λ r s, ∀ e, r = Some e → in_heap e s).
Proof.
  unfold build_relation.
  destruct (decide (1 < length parts)%nat); [|apply keeps_ret; by intros s _ [? _]].
  set (F := λ s, (∀ e, element = Some e → in_heap e s) ∧ ∀ p, p ∈ parts → in_heap p s).
  assert (HF : stable F)
    by (apply stable_and; [apply stable_option_in_heap|apply stable_all_in_heap]).
  eapply keeps_bind with (Q := λ _, F).
  { eapply (keeps_with _ (λ l s, in_heap l s)); [done|apply keeps_Relations_add_new]. }
  intros br. eapply keeps_bind with (Q := λ _, F).
  { eapply (keeps_with _ (λ _ _, True)); [done|apply keeps_add_tag]. }
  intros []. eapply keeps_bind; [apply keeps_collect_polygons|]. intros polygons.
  eapply keeps_bind; [apply keeps_of_sum|]. intros outline.
  eapply keeps_bind with (Q := λ e s, in_heap e s ∧ ∀ p, p ∈ parts → in_heap p s).
  { eapply keeps_conseq;
      [apply (keeps_frame _ _ _ _ (stable_all_in_heap parts)
                (keeps_add_outline br outline element))| |done].
    by intros s _ [[[? ?] _] _]. }
  intros e0. eapply keeps_bind with (Q := λ _ s, in_heap e0 s).
  { eapply keeps_conseq;
      [apply (keeps_frame _ _ _ _ (stable_in_heap e0) (keeps_retag_parts br e0 parts))
      | |by intros [] s _ [_ ?]].
    by intros s _ [? ?]. }
  intros []. apply keeps_ret. by intros s _ ? e' [= <-].
Qed.

Lemma keeps_build_relations :
  keeps (λ _, True) build_relations (λ _ _, True).
Proof.
  unfold build_relations.
  eapply keeps_bind; [apply keeps_gets|]. intros buckets.
  set (F := λ s, ∀ parts, parts ∈ buckets → ∀ p, p ∈ parts → in_heap p s).
  assert (HF : stable F).
  { apply stable_forall. intros parts. apply stable_impl, stable_all_in_heap. }
  eapply keeps_conseq
    with (P := λ s, (∀ e, @None nat = Some e → in_heap e s) ∧ F s)
         (Q := λ r s, (∀ e, r = Some e → in_heap e s) ∧ F s); [| |done].
  - apply (keeps_for_fold _ _ _ (λ r s, (∀ e, r = Some e → in_heap e s) ∧ F s)).
    intros r parts Hparts.
    eapply keeps_conseq;
      [apply (keeps_frame _ _ _ _ HF (keeps_build_relation r parts))| |done].
    intros s _ [? HFs]. split; [|done]. split; [done|]. by apply HFs.
  - intros s (_ & _ & _ & _ & _ & W6 & _) [_ ->]. split; [done|].
    intros parts Hparts p Hp. apply elem_of_buckets in Hparts as [v Hv].
    specialize (W6 v parts Hv). rewrite Forall_forall in W6. by apply W6.
Qed.

Lemma keeps_close : keeps (λ _, True) close (λ _ _, True).
Proof.
  unfold close.
  eapply keeps_bind; [apply keeps_clean_up|]. intros [].
  eapply keeps_bind; [apply keeps_build_relations|]. intros r.
  by apply keeps_ret.
Qed.

(** *** What consistency gives *)

Lemma wf_for_each_handle doc s s' :
  wf s → for_each doc handle s = inr (tt, s') → wf s' ∧ grows s s'.
Proof.
  intros Hwf Hload.
  destruct (keeps_for_each doc handle (λ _, True)) with (s := s) (a := tt) (s' := s')
    as (Hwf' & Hg & _); [intros e _; apply keeps_handle|done|done|done|done].
Qed.

Lemma wf_loaded join doc s : for_each doc handle (init join) = inr (tt, s) → wf s.
Proof. intros Hload. by destruct (wf_for_each_handle doc _ s (wf_init join) Hload). Qed.

(** Every state the parser reaches from its initial state, whatever the
    events, is consistent, and so is the state [close] leaves when it
    returns. *)
Theorem reached_states_are_consistent join doc s :
  for_each doc handle (init join) = inr (tt, s) →
  wf s ∧ ∀ s', close s = inr (tt, s') → wf s'.
Proof.
  intros Hload. assert (Hwf := wf_loaded join doc s Hload).
  split; [done|]. intros s' Hclose.
  by destruct (keeps_close s tt s' Hwf I Hclose) as (Hwf' & _).
Qed.

(** Nothing is ever taken away: from any state the parser has reached,
    across any further events and across [close], every object keeps its
    identifier, its class and, for a node, its coordinates; a way keeps the
    nodes it had and a relation the members it had, in the same order in front
    of any new ones; the collections and the index keep every key and the
    buckets their members; the join tag stays. *)
Theorem nothing_is_taken_away join doc s more s1 :
  for_each doc handle (init join) = inr (tt, s) →
  for_each more handle s = inr (tt, s1) →
  grows s s1 ∧ ∀ s2, close s1 = inr (tt, s2) → grows s1 s2.
Proof.
  intros Hload Hmore. assert (Hwf := wf_loaded join doc s Hload).
  destruct (wf_for_each_handle more s s1 Hwf Hmore) as [Hwf1 Hg1].
  split; [done|]. intros s2 Hclose.
  by destruct (keeps_close s1 tt s2 Hwf1 I Hclose) as (_ & Hg2 & _).
Qed.

Lemma readable_nodes_points s ns :
  Forall (readable_node s) ns → ∃ pts, Forall2 (node_at s) ns pts.
Proof.
  induction 1 as [|n ns [[pt Hpt] _] _ [pts IH]]; [by exists []|].
  exists (pt :: pts). by constructor.
Qed.

(** In a consistent state every way can be read: the conversion of a way to
    a polygon finds every node of the way and coordinates [float] accepts, so
    that it raises only if Shapely's [Polygon] itself does, on the points of
    the nodes in their order; the state is left as it is. *)
Theorem way_to_polygon_reads_every_way s way w ns :
  wf s → heap s !! way = Some w → obj_body w = BWay ns →
  ∃ pts, Forall2 (node_at s) ns pts
    ∧ way_to_polygon way s
      = match Polygon pts with
        | inl e => inl e
        | inr p => inr (p, s)
        end.
Proof.
  intros (_ & _ & _ & _ & W5 & _) Hw Hns. specialize (W5 way w Hw).
  unfold body_ok in W5. rewrite Hns in W5.
  destruct (readable_nodes_points s ns W5) as [pts Hpts].
  exists pts. split; [done|]. unfold way_to_polygon.
  rewrite (bind_eq _ _ _ _ _ (deref_eq _ _ _ Hw)).
  unfold get_nodes. rewrite Hns, bind_ret.
  unfold points_of_nodes. rewrite (bind_eq _ _ _ _ _ (points_of_nodes_eq _ _ _ [] Hpts)).
  simpl. by destruct (Polygon pts).
Qed.

(** A ring of points made into a way and the way read back: in a consistent
    state [_points_to_way] returns a new way, and [way_to_polygon] on that way
    hands [Polygon] one point for each point of the ring, in order, each
    being the point of the ring after its coordinates have gone through [str]
    and [float]. *)
Theorem points_to_way_and_back s pts :
  wf s →
  ∃ s' pts', _points_to_way pts s = inr (length (heap s), s')
    ∧ Forall2 (λ pt pt', float_of_str (str_of_float pt.1) = Some pt'.1
                         ∧ float_of_str (str_of_float pt.2) = Some pt'.2) pts pts'
    ∧ way_to_polygon (length (heap s)) s'
      = match Polygon pts' with
        | inl e => inl e
        | inr p => inr (p, s')
        end.
Proof.
  intros Hwf. set (w := length (heap s)).
  (* the way is made *)
  unfold _points_to_way.
  pose proof (Ways_add_new_eq s) as Hnew. cbv zeta in Hnew. fold w in Hnew.
  set (z := ways_lowest_id (st_ways s) - 1) in Hnew. set (s1 := set_ways _ _) in Hnew.
  assert (Hw1 : heap s1 !! w = Some (Obj (IdInt z) ∅ (BWay []))).
  { unfold s1, w. simpl. by rewrite lookup_app_r, Nat.sub_diag. }
  destruct (keeps_Ways_add_new (λ _, True) s w s1 Hwf I Hnew) as (Hwf1 & _ & _).
  destruct (points_loop w (IdInt z) ∅ pts s1 [] Hw1)
    as (s' & ns & Hloop & Hw' & Hlen & _ & Hnodes & _).
  assert (Hwf' : wf s').
  { destruct (keeps_for_each pts
      (λ point,
         let* node := Nodes_add_new_if_not_exist (str_of_float point.2)
                        (str_of_float point.1) in
         add_node w node) (λ _, True)) with (s := s1) (a := tt) (s' := s')
      as (? & _); [|done|done|done|done].
    intros point _. eapply keeps_bind; [apply keeps_add_new_if_not_exist|].
    intros node. apply keeps_add_node. }
  (* the points its nodes lie at *)
  assert (Hpts : ∃ pts', Forall2 (λ pt pt', point_key pt = Some (pt'.2, pt'.1)) pts pts'
                   ∧ Forall2 (node_at s') ns pts').
  { assert (Hall : ∀ j pt, pts !! j = Some pt →
        ∃ l pt', ns !! j = Some l ∧ point_key pt = Some (pt'.2, pt'.1) ∧ node_at s' l pt').
    { intros j pt Hj. destruct (Hnodes j pt Hj) as (κ & l & Hκ & Hl & Hindex).
      destruct Hwf' as (_ & _ & _ & W4 & _). destruct (W4 κ l Hindex) as [Hat _].
      exists l, (κ.2, κ.1). split; [done|]. split; [by destruct κ|done]. }
    clear Hnodes Hw' Hloop. revert ns Hlen Hall.
    induction pts as [|pt pts IH]; intros ns Hlen Hall.
    - destruct ns; [|done]. exists []. split; constructor.
    - destruct ns as [|l ns]; [done|].
      destruct (Hall 0%nat pt eq_refl) as (l' & pt' & [= <-] & Hkey & Hat).
      destruct (IH ns) as (pts' & Hkeys & Hats).
      + simpl in Hlen. lia.
      + intros j q Hj. apply (Hall (S j) q Hj).
      + exists (pt' :: pts'). split; by constructor. }
  destruct Hpts as (pts' & Hkeys & Hats).
  exists s', pts'. split; [|split].
  - rewrite (bind_eq _ _ _ _ _ Hnew). by rewrite (bind_eq _ _ _ _ _ Hloop).
  - eapply Forall2_impl; [exact Hkeys|]. intros pt pt' Hkey.
    unfold point_key in Hkey. apply lat_lon_key_Some in Hkey as [? ?]. by split.
  - unfold way_to_polygon. simpl in Hw'.
    rewrite (bind_eq _ _ _ _ _ (deref_eq _ _ _ Hw')). unfold get_nodes. simpl.
    rewrite bind_ret. unfold points_of_nodes.
    rewrite (bind_eq _ _ _ _ _ (points_of_nodes_eq _ _ _ [] Hats)).
    simpl. by destruct (Polygon pts').
Qed.

(** ** The parser on one element *)

Lemma for_each_app {A} (l1 l2 : list A) (f : A → M state unit) s :
  for_each (l1 ++ l2) f s = bind (for_each l1 f) (λ _, for_each l2 f) s.
Proof.
  revert s. induction l1 as [|a l1 IH]; intros s; [done|].
  simpl. rewrite bind_bind. unfold bind at 1 2.
  destruct (f a s) as [e|[[] s1]]; [done|]. apply IH.
Qed.

Lemma child_body_set_heap s h b c : child_body (set_heap h s) b c = child_body s b c.
Proof. done. Qed.

Lemma children_body_set_heap s h b children :
  children_body (set_heap h s) b children = children_body s b children.
Proof.
  revert b. induction children as [|c children IH]; intros b; [done|].
  simpl. rewrite child_body_set_heap. destruct (child_body s b c); [apply IH|done].
Qed.

Lemma end_child_eq tag s :
  tag ≠ "node" → tag ≠ "way" → tag ≠ "relation" → end_ tag s = inr (tt, s).
Proof.
  intros Hn Hw Hr. unfold end_.
  rewrite !decide_False by done. rewrite bind_ret.
  by rewrite decide_False by (intros [?|?]; done).
Qed.

Lemma the_primary_eq s l : primary_osm_element s = Some l → the_primary s = inr (l, s).
Proof. intros Hp. unfold the_primary, bind, gets. by rewrite Hp. Qed.

Lemma attr_eq (a : gmap string string) key v s : a !! key = Some v → attr a key s = inr (v, s).
Proof. intros Hv. unfold attr. by rewrite Hv. Qed.

Lemma start_tag_eq s l o k v :
  primary_osm_element s = Some l → heap s !! l = Some o →
  start "tag" (list_to_map [("k", k); ("v", v)]) s
  = inr (tt, set_heap (<[l := with_tags (insert k v) o]> (heap s)) s).
Proof.
  intros Hp Ho. unfold start.
  rewrite !decide_False by done. rewrite decide_True by done.
  rewrite (bind_eq _ _ _ _ _ (the_primary_eq s l Hp)).
  assert (Hk : (list_to_map [("k", k); ("v", v)] : gmap string string) !! "k" = Some k)
    by (unfold list_to_map; simpl; apply lookup_insert_eq).
  assert (Hv : (list_to_map [("k", k); ("v", v)] : gmap string string) !! "v" = Some v).
  { unfold list_to_map. simpl. rewrite lookup_insert_ne by done. apply lookup_insert_eq. }
  rewrite (bind_eq _ _ _ _ _ (attr_eq _ "k" k s Hk)).
  rewrite (bind_eq _ _ _ _ _ (attr_eq _ "v" v s Hv)).
  by apply add_tag_eq.
Qed.

Lemma start_nd_eq s l o ns ref n :
  primary_osm_element s = Some l → heap s !! l = Some o → obj_body o = BWay ns →
  nodes (st_nodes s) !! IdStr ref = Some n →
  start "nd" (list_to_map [("ref", ref)]) s
  = inr (tt, set_heap (<[l := Obj (osm_id o) (tags o) (BWay (ns ++ [n]))]> (heap s)) s).
Proof.
  intros Hp Ho Hns Hn. unfold start.
  rewrite !decide_False by done. rewrite decide_True by done.
  rewrite (bind_eq _ _ _ _ _ (the_primary_eq s l Hp)).
  rewrite (bind_eq _ _ _ _ _ (deref_eq _ _ _ Ho)).
  unfold get_nodes. rewrite Hns, bind_ret.
  assert (Href : (list_to_map [("ref", ref)] : gmap string string) !! "ref" = Some ref)
    by (unfold list_to_map; simpl; apply lookup_insert_eq).
  rewrite (bind_eq _ _ _ _ _ (attr_eq _ "ref" ref s Href)).
  rewrite (bind_eq _ _ _ _ _ (getitem_eq KNode _ _ _ Hn)).
  by apply add_node_eq.
Qed.

Lemma member_lookup_eq s (a : gmap string string) ty ref m :
  a !! "ref" = Some ref → member_lookup s ty ref = Some m →
  (if decide (ty = "node")
   then let* ref0 := attr a "ref" in
        let* e := Nodes_getitem (IdStr ref0) in ret (Some e)
   else if decide (ty = "way")
        then let* ref0 := attr a "ref" in
             let* e := Ways_getitem (IdStr ref0) in ret (Some e)
        else if decide (ty = "relation")
             then let* ref0 := attr a "ref" in
                  let* e := Relations_getitem (IdStr ref0) in ret (Some e)
             else ret None) s = inr (Some m, s).
Proof.
  intros Href Hm. unfold member_lookup in Hm.
  destruct (decide (ty = "node")); [|destruct (decide (ty = "way"));
    [|destruct (decide (ty = "relation")); [|done]]];
    rewrite (bind_eq _ _ _ _ _ (attr_eq _ "ref" ref s Href)).
  - by rewrite (bind_eq _ _ _ _ _ (getitem_eq KNode _ _ _ Hm)).
  - by rewrite (bind_eq _ _ _ _ _ (getitem_eq KWay _ _ _ Hm)).
  - by rewrite (bind_eq _ _ _ _ _ (getitem_eq KRelation _ _ _ Hm)).
Qed.

Lemma start_member_eq s l o ms ty ref role m :
  primary_osm_element s = Some l → heap s !! l = Some o → obj_body o = BRelation ms →
  member_lookup s ty ref = Some m →
  start "member" (list_to_map [("type", ty); ("ref", ref); ("role", role)]) s
  = inr (tt, set_heap (<[l := Obj (osm_id o) (tags o) (BRelation (ms ++ [(m, role)]))]>
                         (heap s)) s).
Proof.
  intros Hp Ho Hms Hm. unfold start.
  rewrite !decide_False by done. rewrite decide_True by done.
  set (a := list_to_map [("type", ty); ("ref", ref); ("role", role)] : gmap string string).
  assert (Hty : a !! "type" = Some ty)
    by (unfold a, list_to_map; simpl; apply lookup_insert_eq).
  assert (Href : a !! "ref" = Some ref).
  { unfold a, list_to_map. simpl. rewrite lookup_insert_ne by done. apply lookup_insert_eq. }
  assert (Hrole : a !! "role" = Some role).
  { unfold a, list_to_map. simpl. rewrite !lookup_insert_ne by done.
    apply lookup_insert_eq. }
  rewrite (bind_eq _ _ _ _ _ (attr_eq _ "type" ty s Hty)).
  rewrite (bind_eq _ _ _ _ _ (member_lookup_eq s a ty ref m Href Hm)).
  rewrite (bind_eq _ _ _ _ _ (the_primary_eq s l Hp)).
  rewrite (bind_eq _ _ _ _ _ (deref_eq _ _ _ Ho)).
  unfold get_members. rewrite Hms, bind_ret. simpl. rewrite bind_ret.
  rewrite (bind_eq _ _ _ _ _ (attr_eq _ "role" role s Hrole)).
  by apply add_member_eq.
Qed.

Lemma child_step s l id t b c b' :
  primary_osm_element s = Some l → heap s !! l = Some (Obj id t b) →
  child_body s b c = Some b' →
  for_each (child_events c) handle s
  = inr (tt, set_heap (<[l := Obj id (child_tags [c] t) b']> (heap s)) s).
Proof.
  intros Hp Ho Hc. destruct c as [k v|ref|ty ref role]; simpl in Hc.
  - injection Hc as <-.
    change (for_each (child_events (CTag k v)) handle s)
      with (bind (start "tag" (list_to_map [("k", k); ("v", v)]))
              (λ _, bind (end_ "tag") (λ _, ret tt)) s).
    rewrite (bind_eq _ _ _ _ _ (start_tag_eq s l _ k v Hp Ho)).
    by rewrite (bind_eq _ _ _ _ _ (end_child_eq "tag" _ ltac:(done) ltac:(done) ltac:(done))).
  - destruct b as [|ns|]; try done.
    destruct (nodes (st_nodes s) !! IdStr ref) as [n|] eqn:Hn; [|done].
    injection Hc as <-.
    change (for_each (child_events (CNd ref)) handle s)
      with (bind (start "nd" (list_to_map [("ref", ref)]))
              (λ _, bind (end_ "nd") (λ _, ret tt)) s).
    rewrite (bind_eq _ _ _ _ _ (start_nd_eq s l _ ns ref n Hp Ho eq_refl Hn)).
    by rewrite (bind_eq _ _ _ _ _ (end_child_eq "nd" _ ltac:(done) ltac:(done) ltac:(done))).
  - destruct b as [| |ms]; try done.
    destruct (member_lookup s ty ref) as [m|] eqn:Hm; [|done].
    injection Hc as <-.
    change (for_each (child_events (CMember ty ref role)) handle s)
      with (bind (start "member" (list_to_map [("type", ty); ("ref", ref); ("role", role)]))
              (λ _, bind (end_ "member") (λ _, ret tt)) s).
    rewrite (bind_eq _ _ _ _ _ (start_member_eq s l _ ms ty ref role m Hp Ho eq_refl Hm)).
    by rewrite (bind_eq _ _ _ _ _
                  (end_child_eq "member" _ ltac:(done) ltac:(done) ltac:(done))).
Qed.

Lemma children_loop s l id t b children b' :
  primary_osm_element s = Some l → heap s !! l = Some (Obj id t b) →
  children_body s b children = Some b' →
  for_each (concat (child_events <$> children)) handle s
  = inr (tt, set_heap (<[l := Obj id (child_tags children t) b']> (heap s)) s).
Proof.
  revert s t b. induction children as [|c children IH]; intros s t b Hp Ho Hb.
  - injection Hb as <-. simpl. unfold ret. f_equal. f_equal.
    rewrite list_insert_id by done. by destruct s.
  - simpl in Hb. destruct (child_body s b c) as [b1|] eqn:Hc; [|done].
    rewrite fmap_cons. simpl. rewrite for_each_app.
    rewrite (bind_eq _ _ _ _ _ (child_step s l id t b c b1 Hp Ho Hc)).
    assert (Hl : (l < length (heap s))%nat) by by eapply lookup_lt_Some.
    erewrite IH; [| |by apply list_lookup_insert_eq|by rewrite children_body_set_heap].
    + simpl. by rewrite list_insert_insert_eq.
    + done.
Qed.

Lemma start_element_eq k (a : gmap string string) s i b0 :
  a !! "id" = Some i → new_body k a = Some b0 →
  start (tag_name k) a s
  = inr (tt, set_primary (Some (length (heap s)))
               (set_heap (heap s ++ [Obj (IdStr i) ∅ b0]) s)).
Proof.
  intros Hi Hb. unfold start. destruct k; simpl in Hb; unfold tag_name.
  - destruct (a !! "lat") as [lat|] eqn:Hlat; [|done].
    destruct (a !! "lon") as [lon|] eqn:Hlon; [|done]. injection Hb as <-.
    rewrite decide_True by done.
    rewrite (bind_eq _ _ _ _ _ (attr_eq _ "id" i s Hi)).
    rewrite (bind_eq _ _ _ _ _ (attr_eq _ "lat" lat s Hlat)).
    by rewrite (bind_eq _ _ _ _ _ (attr_eq _ "lon" lon s Hlon)).
  - injection Hb as <-. rewrite decide_False by done. rewrite decide_True by done.
    by rewrite (bind_eq _ _ _ _ _ (attr_eq _ "id" i s Hi)).
  - injection Hb as <-. rewrite !decide_False by done. rewrite decide_True by done.
    by rewrite (bind_eq _ _ _ _ _ (attr_eq _ "id" i s Hi)).
Qed.

Lemma end_element k s l o z :
  primary_osm_element s = Some l → heap s !! l = Some o →
  int_of_id (osm_id o) = Some z → can_add k o →
  ∃ s', end_ (tag_name k) s = inr (tt, s')
    ∧ heap s' = heap s
    ∧ items k s' = <[osm_id o := l]> (items k s)
    ∧ lowest_id k s' = Z.min z (lowest_id k s)
    ∧ (∀ k', k' ≠ k → items k' s' = items k' s ∧ lowest_id k' s' = lowest_id k' s)
    ∧ nodes_by_lat_lon (st_nodes s')
      = match k, obj_body o with
        | KNode, BNode lat lon =>
            match lat_lon_key (lat, lon) with
            | Some κ => <[κ := l]> (nodes_by_lat_lon (st_nodes s))
            | None => nodes_by_lat_lon (st_nodes s)
            end
        | _, _ => nodes_by_lat_lon (st_nodes s)
        end
    ∧ bldgs s'
      = match k, tags o !! bldg_id_tag s with
        | KNode, _ | _, None => bldgs s
        | _, Some v => <[v := default [] (bldgs s !! v) ++ [l]]> (bldgs s)
        end
    ∧ bldg_id_tag s' = bldg_id_tag s
    ∧ primary_osm_element s' = Some l.
Proof.
  intros Hp Ho Hz Hcan. destruct (add_total k l s o Ho Hcan) as [s2 Hadd].
  assert (Hfirst : (if decide (tag_name k = "node") then let* p := the_primary in Nodes_add p
                    else if decide (tag_name k = "way")
                         then let* p := the_primary in Ways_add p
                         else if decide (tag_name k = "relation")
                              then let* p := the_primary in Relations_add p
                              else ret tt) s = inr (tt, s2)).
  { destruct k; unfold tag_name; simpl in Hadd.
    - rewrite decide_True by done.
      by rewrite (bind_eq _ _ _ _ _ (the_primary_eq s l Hp)).
    - rewrite decide_False by done. rewrite decide_True by done.
      by rewrite (bind_eq _ _ _ _ _ (the_primary_eq s l Hp)).
    - rewrite !decide_False by done. rewrite decide_True by done.
      by rewrite (bind_eq _ _ _ _ _ (the_primary_eq s l Hp)). }
  unfold end_. rewrite (bind_eq _ _ _ _ _ Hfirst).
  destruct (add_inr _ _ _ _ _ Hadd)
    as (o' & z' & Ho' & Hz' & _ & Hheap & Hitems & Hlow & Hothers & Hmeta).
  rewrite Ho in Ho'. injection Ho' as <-. rewrite Hz in Hz'. injection Hz' as <-.
  injection Hmeta as Hb Hj Hp2.
  assert (Hindex : nodes_by_lat_lon (st_nodes s2)
      = match k, obj_body o with
        | KNode, BNode lat lon =>
            match lat_lon_key (lat, lon) with
            | Some κ => <[κ := l]> (nodes_by_lat_lon (st_nodes s))
            | None => nodes_by_lat_lon (st_nodes s)
            end
        | _, _ => nodes_by_lat_lon (st_nodes s)
        end).
  { destruct k; simpl in Hadd.
    - apply Nodes_add_inr in Hadd
        as (o' & z' & lat & lon & x & y & Ho' & _ & Hbody & Hx & Hy & ->).
      rewrite Ho in Ho'. injection Ho' as <-. rewrite Hbody.
      unfold lat_lon_key. simpl. by rewrite Hx, Hy.
    - by apply Ways_add_inr in Hadd as (o' & z' & _ & _ & ->).
    - by apply Relations_add_inr in Hadd as (o' & z' & _ & _ & ->). }
  destruct k.
  - (* a node is not put in a bucket *)
    simpl tag_name. rewrite decide_False by (intros [?|?]; done).
    exists s2. by rewrite Hp2, Hp.
  - simpl tag_name. rewrite decide_True by (by left).
    rewrite (bind_eq _ _ _ _ _ (the_primary_eq s2 l ltac:(congruence))).
    rewrite (bind_eq _ _ _ _ _ (deref_eq s2 l o ltac:(congruence))).
    unfold bind at 1, gets. rewrite Hj.
    destruct (tags o !! bldg_id_tag s) as [v|].
    + eexists. split; [done|]. simpl. rewrite Hb. repeat split; try done; try congruence.
      all: by apply Hothers.
    + exists s2. by rewrite Hp2, Hp.
  - simpl tag_name. rewrite decide_True by (by right).
    rewrite (bind_eq _ _ _ _ _ (the_primary_eq s2 l ltac:(congruence))).
    rewrite (bind_eq _ _ _ _ _ (deref_eq s2 l o ltac:(congruence))).
    unfold bind at 1, gets. rewrite Hj.
    destruct (tags o !! bldg_id_tag s) as [v|].
    + eexists. split; [done|]. simpl. rewrite Hb. repeat split; try done; try congruence.
      all: by apply Hothers.
    + exists s2. by rewrite Hp2, Hp.
Qed.

Lemma children_body_same s s' b children :
  st_nodes s' = st_nodes s → st_ways s' = st_ways s → st_relations s' = st_relations s →
  children_body s' b children = children_body s b children.
Proof.
  intros Hn Hw Hr. revert b. induction children as [|c children IH]; intros b; [done|].
  simpl. assert (Hc : child_body s' b c = child_body s b c).
  { destruct c, b; simpl; try done; [by rewrite Hn|].
    unfold member_lookup. by rewrite Hn, Hw, Hr. }
  rewrite Hc. destruct (child_body s b c); [apply IH|done].
Qed.

Lemma child_body_class s b c b' :
  child_body s b c = Some b' →
  match b with
  | BNode lat lon => b' = BNode lat lon
  | BWay _ => ∃ ns, b' = BWay ns
  | BRelation _ => ∃ ms, b' = BRelation ms
  end.
Proof.
  destruct c as [k v|ref|ty ref role], b as [lat lon|ns|ms]; simpl; try done;
    try (intros [= <-]; eauto).
  - destruct (nodes (st_nodes s) !! IdStr ref); [|done]. intros [= <-]. eauto.
  - destruct (member_lookup s ty ref); [|done]. intros [= <-]. eauto.
Qed.

Lemma children_body_class s b children b' :
  children_body s b children = Some b' →
  match b with
  | BNode lat lon => b' = BNode lat lon
  | BWay _ => ∃ ns, b' = BWay ns
  | BRelation _ => ∃ ms, b' = BRelation ms
  end.
Proof.
  revert b. induction children as [|c children IH]; intros b Hb; simpl in Hb.
  - injection Hb as <-. destruct b; eauto.
  - destruct (child_body s b c) as [b1|] eqn:Hc; [|done].
    apply child_body_class in Hc. apply IH in Hb.
    destruct b; [by subst|destruct Hc as [? ->]; eauto..].
Qed.

(** One element of an OSM file, from its opening tag to its closing tag: when
    it has an identifier [int] accepts, a node has coordinates [float]
    accepts, and every child is one the element can have, with a reference
    that an element read before answers to, the parser returns, and has done
    this and no more: made one new object, with the tags of the children, a
    later one replacing an earlier one of the same key, and the nodes or the
    members in the order of the file; put it in the collection of its kind,
    under its identifier, lowering the lowest identifier if need be (and for a
    node in the index by coordinates); appended it to the bucket of the value
    of its join tag, if it is a way or a relation and has that tag; and left it
    as the current element. *)
Theorem element_is_loaded k s attrib children i z b0 b :
  let a : gmap string string := list_to_map attrib in
  let l := length (heap s) in
  let t := child_tags children ∅ in
  a !! "id" = Some i → int_of_str i = Some z →
  new_body k a = Some b0 → children_body s b0 children = Some b →
  (∀ lat lon, b0 = BNode lat lon → is_Some (lat_lon_key (lat, lon))) →
  ∃ s', for_each (element_events (tag_name k) attrib children) handle s = inr (tt, s')
    ∧ heap s' = heap s ++ [Obj (IdStr i) t b]
    ∧ items k s' = <[IdStr i := l]> (items k s)
    ∧ lowest_id k s' = Z.min z (lowest_id k s)
    ∧ (∀ k', k' ≠ k → items k' s' = items k' s ∧ lowest_id k' s' = lowest_id k' s)
    ∧ nodes_by_lat_lon (st_nodes s')
      = match b with
        | BNode lat lon =>
            match lat_lon_key (lat, lon) with
            | Some κ => <[κ := l]> (nodes_by_lat_lon (st_nodes s))
            | None => nodes_by_lat_lon (st_nodes s)
            end
        | _ => nodes_by_lat_lon (st_nodes s)
        end
    ∧ bldgs s'
      = match k, t !! bldg_id_tag s with
        | KNode, _ | _, None => bldgs s
        | _, Some v => <[v := default [] (bldgs s !! v) ++ [l]]> (bldgs s)
        end
    ∧ bldg_id_tag s' = bldg_id_tag s
    ∧ primary_osm_element s' = Some l.
Proof.
  intros a l t Hi Hz Hb0 Hb Hfloat.
  unfold element_events. rewrite (app_comm_cons _ _ (Start _ _)).
  change (Start (tag_name k) attrib :: concat (child_events <$> children))
    with ([Start (tag_name k) attrib] ++ concat (child_events <$> children)).
  (* the opening tag *)
  assert (Hstart : for_each [Start (tag_name k) attrib] handle s
    = inr (tt, set_primary (Some l) (set_heap (heap s ++ [Obj (IdStr i) ∅ b0]) s))).
  { simpl. by rewrite (bind_eq _ _ _ _ _ (start_element_eq k a s i b0 Hi Hb0)). }
  set (s0 := set_primary _ _) in Hstart.
  (* the children *)
  assert (Hl0 : heap s0 !! l = Some (Obj (IdStr i) ∅ b0)).
  { unfold s0, l. simpl. by rewrite lookup_app_r, Nat.sub_diag. }
  assert (Hb' : children_body s0 b0 children = Some b)
    by by rewrite (children_body_same s s0).
  pose proof (children_loop s0 l (IdStr i) ∅ b0 children b eq_refl Hl0 Hb') as Hchildren.
  fold t in Hchildren. set (s1 := set_heap _ s0) in Hchildren.
  rewrite for_each_app.
  assert (Hfirst : for_each ([Start (tag_name k) attrib]
                             ++ concat (child_events <$> children)) handle s
                   = inr (tt, s1)).
  { by rewrite for_each_app, (bind_eq _ _ _ _ _ Hstart). }
  rewrite (bind_eq _ _ _ _ _ Hfirst).
  assert (Hheap1 : heap s1 = heap s ++ [Obj (IdStr i) t b]).
  { unfold s1, s0, l. simpl. by rewrite insert_app_r_alt, Nat.sub_diag. }
  assert (Hl1 : heap s1 !! l = Some (Obj (IdStr i) t b)).
  { rewrite Hheap1. unfold l. by rewrite lookup_app_r, Nat.sub_diag. }
  (* the closing tag *)
  assert (Hcan : can_add k (Obj (IdStr i) t b)).
  { split; [by exists z|]. intros ->. simpl in Hb0.
    destruct (a !! "lat") as [lat|]; [|done]. destruct (a !! "lon") as [lon|]; [|done].
    injection Hb0 as <-. apply children_body_class in Hb as ->.
    destruct (Hfloat lat lon eq_refl) as [κ Hκ]. apply lat_lon_key_Some in Hκ as [? ?].
    exists lat, lon. split; [done|]. split; by eexists. }
  destruct (end_element k s1 l (Obj (IdStr i) t b) z eq_refl Hl1 Hz Hcan)
    as (s' & Hend & Hheap' & Hitems & Hlow & Hothers & Hindex & Hbldgs & Hjoin & Hprim).
  exists s'. split.
  { simpl. by rewrite (bind_eq _ _ _ _ _ Hend). }
  split; [by rewrite Hheap'|]. split; [done|]. split; [done|]. split; [done|].
  split; [|done].
  rewrite Hindex. simpl. destruct k, b; try done.
  all: simpl in Hb0.
  - injection Hb0 as <-. by apply children_body_class in Hb as [? ?].
  - injection Hb0 as <-. by apply children_body_class in Hb as [? ?].
Qed.

Lemma getitem_KeyError k i s : items k s !! i = None → getitem k i s = inl KeyError.
Proof.
  intros Hi. destruct k; simpl in Hi;
    unfold getitem, Nodes_getitem, Ways_getitem, Relations_getitem, bind, gets;
    by rewrite Hi.
Qed.

Lemma bind_inl {A B} (m : M state A) (k : A → M state B) s e :
  m s = inl e → bind m k s = inl e.
Proof. intros Hm. unfold bind. by rewrite Hm. Qed.

Lemma dangling_child_raises s k l id t b c :
  primary_osm_element s = Some l → heap s !! l = Some (Obj id t b) →
  match k with
  | KNode => False
  | KWay => ∃ ns, b = BWay ns
  | KRelation => ∃ ms, b = BRelation ms
  end →
  dangling s k c →
  for_each (child_events c) handle s = inl KeyError.
Proof.
  intros Hp Ho Hclass Hc. destruct c as [? ?|ref|ty ref role]; simpl in Hc; [done|..].
  - destruct Hc as [-> Hnone]. destruct Hclass as [ns ->].
    change (for_each (child_events (CNd ref)) handle s)
      with (bind (start "nd" (list_to_map [("ref", ref)]))
              (λ _, bind (end_ "nd") (λ _, ret tt)) s).
    apply bind_inl. unfold start.
    rewrite !decide_False by done. rewrite decide_True by done.
    rewrite (bind_eq _ _ _ _ _ (the_primary_eq s l Hp)).
    rewrite (bind_eq _ _ _ _ _ (deref_eq _ _ _ Ho)).
    unfold get_nodes. simpl. rewrite bind_ret.
    assert (Href : (list_to_map [("ref", ref)] : gmap string string) !! "ref" = Some ref)
      by (unfold list_to_map; simpl; apply lookup_insert_eq).
    rewrite (bind_eq _ _ _ _ _ (attr_eq _ "ref" ref s Href)).
    apply bind_inl. by apply (getitem_KeyError KNode).
  - destruct Hc as (-> & Hty & Hnone). destruct Hclass as [ms ->].
    change (for_each (child_events (CMember ty ref role)) handle s)
      with (bind (start "member" (list_to_map [("type", ty); ("ref", ref); ("role", role)]))
              (λ _, bind (end_ "member") (λ _, ret tt)) s).
    apply bind_inl. unfold start.
    rewrite !decide_False by done. rewrite decide_True by done.
    set (a := list_to_map [("type", ty); ("ref", ref); ("role", role)]
              : gmap string string).
    assert (Hty' : a !! "type" = Some ty)
      by (unfold a, list_to_map; simpl; apply lookup_insert_eq).
    assert (Href : a !! "ref" = Some ref).
    { unfold a, list_to_map. simpl. rewrite lookup_insert_ne by done.
      apply lookup_insert_eq. }
    rewrite (bind_eq _ _ _ _ _ (attr_eq _ "type" ty s Hty')).
    apply bind_inl. unfold member_lookup in Hnone.
    destruct (decide (ty = "node")); [|destruct (decide (ty = "way"));
      [|destruct (decide (ty = "relation"))]];
      try rewrite (bind_eq _ _ _ _ _ (attr_eq _ "ref" ref s Href)).
    + apply bind_inl. by apply (getitem_KeyError KNode).
    + apply bind_inl. by apply (getitem_KeyError KWay).
    + apply bind_inl. by apply (getitem_KeyError KRelation).
    + rewrite !elem_of_cons, elem_of_nil in Hty. by destruct Hty as [?|[?|[?|[]]]].
Qed.

(** A reference that leads nowhere stops the parser: when a way has a [<nd>]
    whose node no element read so far defines, or a relation a [<member>] of
    type node, way or relation that the collection of that type does not hold
    (an element further down in the file, or one the file leaves out), the
    children before it being in order, the run raises [KeyError] at that
    child, whatever follows. *)
Theorem dangling_reference_raises k s attrib before c after i b0 b1 :
  let a : gmap string string := list_to_map attrib in
  a !! "id" = Some i → new_body k a = Some b0 →
  children_body s b0 before = Some b1 → dangling s k c →
  for_each (element_events (tag_name k) attrib (before ++ c :: after)) handle s
  = inl KeyError.
Proof.
  intros a Hi Hb0 Hb1 Hc. set (l := length (heap s)).
  unfold element_events.
  rewrite fmap_app, fmap_cons, concat_app, concat_cons, <-!app_assoc.
  change (Start (tag_name k) attrib
          :: concat (child_events <$> before)
             ++ child_events c ++ concat (child_events <$> after) ++ [End (tag_name k)])
    with ([Start (tag_name k) attrib]
          ++ concat (child_events <$> before)
             ++ child_events c ++ concat (child_events <$> after) ++ [End (tag_name k)]).
  assert (Hstart : for_each [Start (tag_name k) attrib] handle s
    = inr (tt, set_primary (Some l) (set_heap (heap s ++ [Obj (IdStr i) ∅ b0]) s))).
  { simpl. by rewrite (bind_eq _ _ _ _ _ (start_element_eq k a s i b0 Hi Hb0)). }
  set (s0 := set_primary _ _) in Hstart.
  rewrite for_each_app, (bind_eq _ _ _ _ _ Hstart).
  assert (Hl0 : heap s0 !! l = Some (Obj (IdStr i) ∅ b0)).
  { unfold s0, l. simpl. by rewrite lookup_app_r, Nat.sub_diag. }
  assert (Hb1' : children_body s0 b0 before = Some b1)
    by by rewrite (children_body_same s s0).
  rewrite for_each_app.
  rewrite (bind_eq _ _ _ _ _
             (children_loop s0 l (IdStr i) ∅ b0 before b1 eq_refl Hl0 Hb1')).
  set (s1 := set_heap _ s0).
  rewrite for_each_app. apply bind_inl.
  apply (dangling_child_raises s1 k l (IdStr i) (child_tags before ∅) b1); try done.
  - unfold s1. simpl. apply list_lookup_insert_eq. by eapply lookup_lt_Some.
  - apply children_body_class in Hb1. destruct c as [? ?|ref|ty ref role]; [done|..].
    + destruct Hc as [-> _]. simpl in Hb0. injection Hb0 as <-. exact Hb1.
    + destruct Hc as [-> _]. simpl in Hb0. injection Hb0 as <-. exact Hb1.
Qed.

(** *** What [close] leaves alone *)

Section Leaves.
Context (n : nat).

Lemma undisturbed_refl s : undisturbed n s s.
Proof.
  split; [done|]. split; [|done]. intros l o _ Ho. by exists o.
Qed.

Lemma undisturbed_trans s1 s2 s3 :
  undisturbed n s1 s2 → undisturbed n s2 s3 → undisturbed n s1 s3.
Proof.
  intros (Hl1 & Hh1 & Hi1 & Hx1 & Hb1 & Hp1) (Hl2 & Hh2 & Hi2 & Hx2 & Hb2 & Hp2).
  split; [lia|]. split; [|split; [|split; [|split; congruence]]].
  - intros l o Hl Ho. destruct (Hh1 l o Hl Ho) as (o2 & Ho2 & Hid2 & Hbody2 & Hnode2).
    destruct (Hh2 l o2 Hl Ho2) as (o3 & Ho3 & Hid3 & Hbody3 & Hnode3).
    exists o3. split; [done|]. split; [congruence|]. split; [congruence|].
    intros Hnode. rewrite Hnode3, Hnode2; [done|done|].
    unfold isinstance_Node in *. by rewrite Hbody2.
  - intros k i l Hi. by apply Hi2, Hi1.
  - intros κ l Hκ. by apply Hx2, Hx1.
Qed.

Lemma leaves_of_keeps {A} (m : M state A) P Q :
  keeps P m Q →
  (∀ s a s', wf s → (n ≤ length (heap s))%nat → P s → m s = inr (a, s') →
     undisturbed n s s') →
  leaves n P m Q.
Proof.
  intros Hk Hu s a s' Hwf Hn HP Hrun. destruct (Hk s a s' Hwf HP Hrun) as (? & ? & ?).
  split; [done|]. split; [done|]. split; [by eapply Hu|done].
Qed.

Lemma leaves_ret {A} (a : A) (P : state → Prop) (Q : A → state → Prop) :
  (∀ s, wf s → P s → Q a s) → leaves n P (ret a) Q.
Proof.
  intros HQ. apply leaves_of_keeps; [by apply keeps_ret|].
  intros s b s' _ _ _ Hrun. apply ret_inr in Hrun as [_ ->]. apply undisturbed_refl.
Qed.

Lemma leaves_bind {A B} (m : M state A) (k : A → M state B) P Q Q' :
  leaves n P m Q → (∀ a, leaves n (Q a) (k a) Q') → leaves n P (bind m k) Q'.
Proof.
  intros Hm Hk s b s' Hwf Hn HP Hrun. apply bind_inr in Hrun as (a & s1 & H1 & H2).
  destruct (Hm _ _ _ Hwf Hn HP H1) as (Hwf1 & Hg1 & Hu1 & HQ).
  assert (Hn1 : (n ≤ length (heap s1))%nat) by (destruct Hu1 as [? _]; lia).
  destruct (Hk a _ _ _ Hwf1 Hn1 HQ H2) as (Hwf2 & Hg2 & Hu2 & HQ').
  split; [done|]. split; [by eapply grows_trans|].
  split; [by eapply undisturbed_trans|done].
Qed.

Lemma leaves_conseq {A} (m : M state A) (P P' : state → Prop) (Q Q' : A → state → Prop) :
  leaves n P m Q → (∀ s, wf s → P' s → P s) → (∀ a s, wf s → Q a s → Q' a s) →
  leaves n P' m Q'.
Proof.
  intros Hm HP HQ s a s' Hwf Hn HP' Hrun.
  destruct (Hm _ _ _ Hwf Hn (HP _ Hwf HP') Hrun) as (Hwf' & Hg & Hu & HQa).
  split; [done|]. split; [done|]. split; [done|by apply HQ].
Qed.

Lemma leaves_frame {A} (m : M state A) P Q F :
  stable F → leaves n P m Q → leaves n (λ s, P s ∧ F s) m (λ a s, Q a s ∧ F s).
Proof.
  intros HF Hm s a s' Hwf Hn [HP HFs] Hrun.
  destruct (Hm _ _ _ Hwf Hn HP Hrun) as (Hwf' & Hg & Hu & HQ).
  split; [done|]. split; [done|]. split; [done|]. split; [done|by eapply HF].
Qed.

Lemma leaves_with {A} (m : M state A) Q F :
  stable F → leaves n (λ _, True) m Q → leaves n F m (λ _ s, F s).
Proof.
  intros HF Hm. eapply leaves_conseq; [apply (leaves_frame _ _ _ F HF Hm)|by intros|].
  by intros a s _ [_ ?].
Qed.

Lemma leaves_carry {A} (m : M state A) Q F :
  stable F → leaves n F m Q → leaves n F m (λ a s, Q a s ∧ F s).
Proof.
  intros HF Hm. eapply leaves_conseq; [apply (leaves_frame _ _ _ F HF Hm)|by intros|done].
Qed.

Lemma leaves_pre_True {A} (m : M state A) P Q :
  leaves n (λ _, True) m Q → leaves n P m Q.
Proof. intros Hm. eapply leaves_conseq; [exact Hm|done|done]. Qed.

Lemma leaves_read {A} (m : M state A) P Q :
  keeps P m Q → (∀ s a s', m s = inr (a, s') → s' = s) → leaves n P m Q.
Proof.
  intros Hk Hread. apply leaves_of_keeps; [done|].
  intros s a s' _ _ _ Hrun. apply Hread in Hrun as ->. apply undisturbed_refl.
Qed.

Lemma leaves_for_each {A} (l : list A) (f : A → M state unit) (I : state → Prop) :
  (∀ a, a ∈ l → leaves n I (f a) (λ _, I)) → leaves n I (for_each l f) (λ _, I).
Proof.
  induction l as [|a l IH]; intros Hf.
  - by apply leaves_ret.
  - simpl. eapply leaves_bind; [apply Hf; by left|].
    intros []. apply IH. intros a' Ha'. apply Hf. by right.
Qed.

Lemma leaves_for_fold {A B} (l : list A) (b : B) (f : B → A → M state B)
    (I : B → state → Prop) :
  (∀ b a, a ∈ l → leaves n (I b) (f b a) I) → leaves n (I b) (for_fold l b f) I.
Proof.
  revert b. induction l as [|a l IH]; intros b Hf.
  - by apply leaves_ret.
  - simpl. eapply leaves_bind; [apply Hf; by left|].
    intros b'. apply IH. intros b'' a' Ha'. apply Hf. by right.
Qed.

(** The steps. *)

Lemma undisturbed_set_heap s h' :
  (length (heap s) ≤ length h')%nat →
  (∀ l o, (l < n)%nat → heap s !! l = Some o →
     ∃ o', h' !! l = Some o' ∧ osm_id o' = osm_id o ∧ obj_body o' = obj_body o
       ∧ (isinstance_Node o = true → tags o' = tags o)) →
  undisturbed n s (set_heap h' s).
Proof.
  intros Hlen Hh. split; [done|]. split; [done|]. split; [by intros []|done].
Qed.

Lemma undisturbed_new s o :
  (n ≤ length (heap s))%nat → undisturbed n s (set_heap (heap s ++ [o]) s).
Proof.
  intros Hn. apply undisturbed_set_heap.
  - rewrite length_app. lia.
  - intros l o0 Hl Ho0. exists o0. by rewrite lookup_app_l by lia.
Qed.

Lemma undisturbed_store_new s l o' :
  (n ≤ l)%nat → undisturbed n s (set_heap (<[l := o']> (heap s)) s).
Proof.
  intros Hn. apply undisturbed_set_heap.
  - by rewrite length_insert.
  - intros l0 o0 Hl Ho0. exists o0. by rewrite list_lookup_insert_ne by lia.
Qed.

Lemma undisturbed_store_tags s l o f :
  heap s !! l = Some o → isinstance_Node o = false →
  undisturbed n s (set_heap (<[l := with_tags f o]> (heap s)) s).
Proof.
  intros Ho Hnot. apply undisturbed_set_heap.
  - by rewrite length_insert.
  - intros l0 o0 Hl Ho0. destruct (decide (l0 = l)) as [->|Hne].
    + rewrite Ho in Ho0. injection Ho0 as <-. exists (with_tags f o).
      rewrite list_lookup_insert_eq by by eapply lookup_lt_Some.
      split; [done|]. split; [done|]. split; [done|]. by rewrite Hnot.
    + exists o0. by rewrite list_lookup_insert_ne.
Qed.

Lemma leaves_new_in_heap o P :
  (∀ s, body_ok s o) → leaves n P (new o) (λ l s, in_heap l s ∧ (n ≤ l)%nat).
Proof.
  intros Hok s l s' Hwf Hn HP Hrun.
  destruct (keeps_new_in_heap o P Hok s l s' Hwf HP Hrun) as (? & ? & ?).
  apply new_inr in Hrun as [-> ->].
  split; [done|]. split; [done|]. split; [by apply undisturbed_new|done].
Qed.

Lemma leaves_add_tag l key value :
  (n ≤ l)%nat → leaves n (λ _, True) (add_tag l key value) (λ _ _, True).
Proof.
  intros Hl. apply leaves_of_keeps; [apply keeps_add_tag|].
  intros s a s' _ _ _ Hrun. apply add_tag_inr in Hrun as (o & _ & ->).
  by apply undisturbed_store_new.
Qed.

Lemma leaves_delete_tag l key : leaves n (λ _, True) (delete_tag l key) (λ _ _, True).
Proof.
  apply leaves_of_keeps; [apply keeps_delete_tag|].
  intros s a s' _ _ _ Hrun. apply delete_tag_inr in Hrun as (o & Ho & Hnot & _ & ->).
  by apply undisturbed_store_tags.
Qed.

Lemma leaves_add_node l node :
  (n ≤ l)%nat → leaves n (λ s, readable_node s node) (add_node l node) (λ _ _, True).
Proof.
  intros Hl. apply leaves_of_keeps; [apply keeps_add_node|].
  intros s a s' _ _ _ Hrun. apply add_node_inr in Hrun as (o & ns & _ & _ & ->).
  by apply undisturbed_store_new.
Qed.

Lemma leaves_add_member l m role :
  (n ≤ l)%nat → leaves n (in_heap m) (add_member l m role) (λ _ _, True).
Proof.
  intros Hl. apply leaves_of_keeps; [apply keeps_add_member|].
  intros s a s' _ _ _ Hrun. apply add_member_inr in Hrun as (o & ms & _ & _ & ->).
  by apply undisturbed_store_new.
Qed.

End Leaves.

Section LeavesClose.
Context (n : nat).

Lemma leaves_pure {A} (C : Prop) P (m : M state A) Q :
  (C → leaves n P m Q) → leaves n (λ s, P s ∧ C) m Q.
Proof. intros Hm s a s' Hwf Hn [HP HC] Hrun. by apply (Hm HC s a s'). Qed.

(** A new identifier is one the collection does not hold. *)
Lemma new_identifier_is_fresh k s i l lat lon :
  wf s → items k s !! i = Some l →
  i ≠ osm_id (new_element k (lowest_id k s - 1) lat lon).
Proof.
  intros (W1 & _) Hi ->. destruct (W1 k _ l Hi) as (o & z & _ & _ & Hz & Hlow).
  rewrite int_of_new_element in Hz. injection Hz as <-. lia.
Qed.

Lemma leaves_Ways_add_new P :
  leaves n P Ways_add_new (λ l s, in_heap l s ∧ (n ≤ l)%nat).
Proof.
  intros s l s' Hwf Hn HP Hrun.
  destruct (keeps_Ways_add_new P s l s' Hwf HP Hrun) as (? & ? & ?).
  rewrite Ways_add_new_eq in Hrun. injection Hrun as <- <-.
  split; [done|]. split; [done|]. split; [|split; [done|lia]].
  split; [simpl; rewrite length_app; lia|].
  split; [|split; [|done]].
  - intros l0 o Hl Ho. exists o. simpl. by rewrite lookup_app_l by lia.
  - intros [] i l0 Hi; simpl in *; [done| |done].
    rewrite lookup_insert_ne; [done|]. intros <-.
    by apply (new_identifier_is_fresh KWay s _ l0 "" "" Hwf Hi).
Qed.

Lemma leaves_Relations_add_new P :
  leaves n P Relations_add_new (λ l s, in_heap l s ∧ (n ≤ l)%nat).
Proof.
  intros s l s' Hwf Hn HP Hrun.
  destruct (keeps_Relations_add_new P s l s' Hwf HP Hrun) as (? & ? & ?).
  rewrite Relations_add_new_eq in Hrun. injection Hrun as <- <-.
  split; [done|]. split; [done|]. split; [|split; [done|lia]].
  split; [simpl; rewrite length_app; lia|].
  split; [|split; [|done]].
  - intros l0 o Hl Ho. exists o. simpl. by rewrite lookup_app_l by lia.
  - intros [] i l0 Hi; simpl in *; [done|done|].
    rewrite lookup_insert_ne; [done|]. intros <-.
    by apply (new_identifier_is_fresh KRelation s _ l0 "" "" Hwf Hi).
Qed.

Lemma leaves_add_new_if_not_exist lat lon P :
  leaves n P (Nodes_add_new_if_not_exist lat lon) (λ l s, readable_node s l).
Proof.
  intros s l s' Hwf Hn HP Hrun.
  destruct (keeps_add_new_if_not_exist lat lon P s l s' Hwf HP Hrun) as (? & ? & ?).
  split; [done|]. split; [done|]. split; [|done].
  assert (Hfloats : ∃ x y, float_of_str lat = Some x ∧ float_of_str lon = Some y).
  { unfold Nodes_add_new_if_not_exist in Hrun.
    apply bind_inr in Hrun as (x & s1 & Hx & Hrun). apply to_float_inr in Hx as [Hx ->].
    apply bind_inr in Hrun as (y & s1 & Hy & Hrun). apply to_float_inr in Hy as [Hy ->].
    by exists x, y. }
  destruct Hfloats as (x & y & Hx & Hy).
  rewrite (Nodes_add_new_if_not_exist_eq _ _ _ _ _ Hx Hy) in Hrun.
  destruct (nodes_by_lat_lon (st_nodes s) !! (x, y)) as [l0|] eqn:Hindex.
  - injection Hrun as <- <-. apply undisturbed_refl.
  - rewrite (Nodes_add_new_eq _ _ _ _ _ Hx Hy) in Hrun. injection Hrun as <- <-.
    split; [simpl; rewrite length_app; lia|].
    split; [|split; [|split; [|done]]].
    + intros l0 o Hl Ho. exists o. simpl. by rewrite lookup_app_l by lia.
    + intros [] i l0 Hi; simpl in *; [|done|done].
      rewrite lookup_insert_ne; [done|]. intros <-.
      by apply (new_identifier_is_fresh KNode s _ l0 lat lon Hwf Hi).
    + intros κ l0 Hκ. simpl. rewrite lookup_insert_ne; [done|]. intros <-. congruence.
Qed.

Lemma leaves_points_to_way points P :
  leaves n P (_points_to_way points) (λ way s, in_heap way s ∧ (n ≤ way)%nat).
Proof.
  unfold _points_to_way.
  eapply leaves_bind; [apply leaves_Ways_add_new|]. intros way. cbv beta.
  apply leaves_pure. intros Hway.
  eapply leaves_bind.
  { apply leaves_for_each. intros point _.
    eapply leaves_bind.
    { apply leaves_carry; [apply stable_in_heap|apply leaves_add_new_if_not_exist]. }
    intros node. cbv beta.
    eapply leaves_conseq;
      [apply (leaves_frame _ _ _ _ (in_heap way) (stable_in_heap way)
                (leaves_add_node n way node Hway))
      |done|]. by intros [] s _ [_ ?]. }
  intros []. by apply leaves_ret.
Qed.

Lemma leaves_add_polygon_to_relation polygon relation :
  (n ≤ relation)%nat →
  leaves n (λ _, True) (add_polygon_to_relation polygon relation) (λ _ _, True).
Proof.
  intros Hrel. unfold add_polygon_to_relation.
  eapply leaves_bind; [apply leaves_points_to_way|]. intros way.
  eapply leaves_bind.
  { eapply leaves_conseq; [apply (leaves_add_member n relation way "outer" Hrel)| |done].
    by intros s _ [? _]. }
  intros []. apply leaves_for_each. intros ring _.
  eapply leaves_bind; [apply leaves_points_to_way|]. intros way'.
  eapply leaves_conseq; [apply (leaves_add_member n relation way' "inner" Hrel)| |done].
  by intros s _ [? _].
Qed.

Lemma leaves_polygon_with_interior_to_relation polygon P :
  leaves n P (_polygon_with_interior_to_relation polygon)
    (λ r s, in_heap r s ∧ (n ≤ r)%nat).
Proof.
  unfold _polygon_with_interior_to_relation.
  eapply leaves_bind; [apply leaves_Relations_add_new|]. intros relation. cbv beta.
  apply leaves_pure. intros Hrel.
  eapply leaves_bind.
  { eapply (leaves_with _ _ _ (in_heap relation)); [apply stable_in_heap|].
    by apply leaves_add_tag. }
  intros []. eapply leaves_bind.
  { eapply (leaves_with _ _ _ (in_heap relation)); [apply stable_in_heap|].
    by apply leaves_add_polygon_to_relation. }
  intros []. by apply leaves_ret.
Qed.

Lemma leaves_convert_multipolygon multi P :
  leaves n P (convert_multipolygon multi) (λ r s, in_heap r s ∧ (n ≤ r)%nat).
Proof.
  unfold convert_multipolygon.
  eapply leaves_bind; [apply leaves_Relations_add_new|]. intros relation. cbv beta.
  apply leaves_pure. intros Hrel.
  eapply leaves_bind.
  { eapply (leaves_with _ _ _ (in_heap relation)); [apply stable_in_heap|].
    by apply leaves_add_tag. }
  intros []. eapply leaves_bind.
  { eapply (leaves_with _ _ _ (in_heap relation)); [apply stable_in_heap|].
    apply leaves_for_each. intros polygon _. by apply leaves_add_polygon_to_relation. }
  intros []. by apply leaves_ret.
Qed.

Lemma stable_new_element (x : option nat) :
  stable (λ s, ∀ e, x = Some e → in_heap e s ∧ (n ≤ e)%nat).
Proof.
  apply stable_forall. intros e. apply stable_impl.
  intros s s' Hg [? ?]. split; [by eapply stable_in_heap|done].
Qed.

Lemma leaves_outline_to_element outline element :
  leaves n (λ s, ∀ e, element = Some e → in_heap e s ∧ (n ≤ e)%nat)
    (outline_to_element outline element)
    (λ r s, ∀ e, r = Some e → in_heap e s ∧ (n ≤ e)%nat).
Proof.
  unfold outline_to_element, _simple_polygon_to_way.
  destruct outline as [p|ps|]; [destruct (interiors p)|..].
  - eapply leaves_bind; [apply leaves_points_to_way|]. intros e0.
    apply leaves_ret. by intros s _ ? e' [= <-].
  - eapply leaves_bind; [apply leaves_polygon_with_interior_to_relation|]. intros e0.
    apply leaves_ret. by intros s _ ? e' [= <-].
  - eapply leaves_bind; [apply leaves_convert_multipolygon|]. intros e0.
    apply leaves_ret. by intros s _ ? e' [= <-].
  - by apply leaves_ret.
Qed.

Lemma leaves_add_outline br outline element :
  (n ≤ br)%nat →
  leaves n (λ s, ∀ e, element = Some e → in_heap e s ∧ (n ≤ e)%nat)
    (add_outline br outline element)
    (λ e s, in_heap e s ∧ (n ≤ e)%nat).
Proof.
  intros Hbr. unfold add_outline.
  eapply leaves_bind; [apply leaves_outline_to_element|]. intros r.
  eapply leaves_bind.
  { apply leaves_read; [apply keeps_of_option|].
    intros s a s' H. apply of_option_inr in H. by destruct H. }
  intros e0. cbv beta.
  eapply leaves_conseq with (P := λ s, in_heap e0 s ∧ (n ≤ e0)%nat)
                            (Q := λ e s, in_heap e s ∧ (n ≤ e)%nat);
    [|by intros s _ [Hr ->]; apply Hr|done].
  apply leaves_pure. intros He0.
  eapply leaves_bind with (Q := λ _ s, in_heap e0 s).
  { eapply leaves_conseq;
      [apply (leaves_carry _ _ _ _ (stable_in_heap e0)
                (leaves_add_member n br e0 "outline" Hbr))|done|].
    by intros [] s _ [_ ?]. }
  intros []. by apply leaves_ret.
Qed.

Lemma leaves_copy_tag element acc kv :
  (n ≤ element)%nat →
  leaves n (λ _, True) (copy_tag element acc kv) (λ _ _, True).
Proof.
  intros He. unfold copy_tag. eapply leaves_bind with (Q := λ _ _, True).
  - destruct (decide (kv.1 ∉ part_level_tags)); [by apply leaves_add_tag|by apply leaves_ret].
  - intros []. by apply leaves_ret.
Qed.

(** The renaming of [building] at the end of [propagate_tags], and the
    clean-up of one element: if they return, the element is no node. *)
Lemma leaves_rename l key value key' :
  leaves n (λ _, True) (run add_tag l key value in delete_tag l key') (λ _ _, True).
Proof.
  apply leaves_of_keeps.
  { eapply keeps_bind; [apply keeps_add_tag|]. intros []. apply keeps_delete_tag. }
  intros s a s' _ _ _ Hrun. apply bind_inr in Hrun as ([] & s1 & Hadd & Hdel).
  apply add_tag_inr in Hadd as (o & Ho & ->).
  apply delete_tag_inr in Hdel as (o' & Ho' & Hnot & _ & ->).
  simpl in Ho'. rewrite list_lookup_insert_eq in Ho' by by eapply lookup_lt_Some.
  injection Ho' as <-.
  eapply undisturbed_trans.
  - by apply (undisturbed_store_tags n s l o (insert key value)).
  - apply (undisturbed_store_tags n _ l (with_tags (insert key value) o) (delete key'));
      [|done]. simpl. apply list_lookup_insert_eq. by eapply lookup_lt_Some.
Qed.

Lemma leaves_propagate_tags element part :
  (n ≤ element)%nat →
  leaves n (λ _, True) (propagate_tags element part) (λ _ _, True).
Proof.
  intros He. unfold propagate_tags.
  eapply leaves_bind.
  { apply leaves_read; [apply keeps_deref|].
    intros s a s' H. apply deref_inr in H. by destruct H. }
  intros o. eapply leaves_bind with (Q := λ _ _, True).
  { apply leaves_pre_True.
    apply (leaves_for_fold _ _ _ _ (λ _ _, True)). intros acc kv _. by apply leaves_copy_tag. }
  intros ks. eapply leaves_bind.
  { apply leaves_for_each. intros k _. apply leaves_delete_tag. }
  intros []. eapply leaves_bind.
  { apply leaves_read; [apply keeps_deref|].
    intros s a s' H. apply deref_inr in H. by destruct H. }
  intros o'. destruct (tags o' !! "building"); [|by apply leaves_ret].
  apply leaves_pre_True, leaves_rename.
Qed.

Lemma leaves_retag_parts br element parts :
  (n ≤ br)%nat → (n ≤ element)%nat →
  leaves n (λ s, ∀ p, p ∈ parts → in_heap p s) (retag_parts br element parts)
    (λ _ _, True).
Proof.
  intros Hbr He. unfold retag_parts.
  eapply leaves_conseq with (P := λ s, ∀ p, p ∈ parts → in_heap p s)
                            (Q := λ _ s, ∀ p, p ∈ parts → in_heap p s); [|done|done].
  apply leaves_for_each. intros part Hpart.
  eapply leaves_bind.
  { eapply (leaves_with _ _ _ _ (stable_all_in_heap parts)).
    by apply leaves_propagate_tags. }
  intros []. cbv beta.
  eapply leaves_conseq;
    [apply (leaves_frame _ _ _ _ _ (stable_all_in_heap parts)
              (leaves_add_member n br part "part" Hbr))
    | |by intros [] s _ [_ ?]].
  intros s _ Hall. split; [by apply Hall|done].
Qed.

Lemma leaves_build_relation element parts :
  leaves n
    (λ s, (∀ e, element = Some e → in_heap e s ∧ (n ≤ e)%nat)
          ∧ ∀ p, p ∈ parts → in_heap p s)
    (build_relation element parts)
    (λ r s, ∀ e, r = Some e → in_heap e s ∧ (n ≤ e)%nat).
Proof.
  unfold build_relation.
  destruct (decide (1 < length parts)%nat); [|apply leaves_ret; by intros s _ [? _]].
  set (F := λ s, (∀ e, element = Some e → in_heap e s ∧ (n ≤ e)%nat)
                 ∧ ∀ p, p ∈ parts → in_heap p s).
  assert (HF : stable F)
    by (apply stable_and; [apply stable_new_element|apply stable_all_in_heap]).
  eapply leaves_bind with (Q := λ br s, F s ∧ (n ≤ br)%nat).
  { eapply leaves_conseq;
      [apply (leaves_frame _ _ _ _ F HF (leaves_Relations_add_new (λ _, True)))
      |by intros|]. by intros br s _ [[_ ?] ?]. }
  intros br. cbv beta. apply leaves_pure. intros Hbr.
  eapply leaves_bind with (Q := λ _, F).
  { eapply (leaves_with _ _ _ F HF). by apply leaves_add_tag. }
  intros []. eapply leaves_bind.
  { apply leaves_read; [apply keeps_collect_polygons|]. apply collect_polygons_read. }
  intros polygons. eapply leaves_bind.
  { apply leaves_read; [apply keeps_of_sum|].
    intros s a s' H. apply of_sum_inr in H. by destruct H. }
  intros outline.
  eapply leaves_bind
    with (Q := λ e s, (in_heap e s ∧ (n ≤ e)%nat) ∧ ∀ p, p ∈ parts → in_heap p s).
  { eapply leaves_conseq;
      [apply (leaves_frame _ _ _ _ _ (stable_all_in_heap parts)
                (leaves_add_outline br outline element Hbr))| |done].
    by intros s _ [[[? ?] _] _]. }
  intros e0. cbv beta.
  eapply leaves_conseq
    with (P := λ s, (in_heap e0 s ∧ ∀ p, p ∈ parts → in_heap p s) ∧ (n ≤ e0)%nat)
         (Q := λ r s, ∀ e, r = Some e → in_heap e s ∧ (n ≤ e)%nat);
    [|by intros s _ [[? ?] ?]|done].
  apply leaves_pure. intros He0.
  eapply leaves_bind with (Q := λ _ s, in_heap e0 s).
  { eapply leaves_conseq;
      [apply (leaves_frame _ _ _ _ _ (stable_in_heap e0)
                (leaves_retag_parts br e0 parts Hbr He0))
      | |by intros [] s _ [_ ?]].
    by intros s _ [? ?]. }
  intros []. apply leaves_ret. by intros s _ ? e' [= <-].
Qed.

Lemma leaves_build_relations :
  leaves n (λ _, True) build_relations (λ _ _, True).
Proof.
  unfold build_relations.
  eapply leaves_bind.
  { apply leaves_read; [apply keeps_gets|].
    intros s a s' H. apply gets_inr in H. by destruct H. }
  intros buckets.
  set (F := λ s, ∀ parts, parts ∈ buckets → ∀ p, p ∈ parts → in_heap p s).
  assert (HF : stable F).
  { apply stable_forall. intros parts. apply stable_impl, stable_all_in_heap. }
  eapply leaves_conseq
    with (P := λ s, (∀ e, @None nat = Some e → in_heap e s ∧ (n ≤ e)%nat) ∧ F s)
         (Q := λ r s, (∀ e, r = Some e → in_heap e s ∧ (n ≤ e)%nat) ∧ F s); [| |done].
  - apply (leaves_for_fold _ _ _ _
             (λ r s, (∀ e, r = Some e → in_heap e s ∧ (n ≤ e)%nat) ∧ F s)).
    intros r parts Hparts.
    eapply leaves_conseq;
      [apply (leaves_frame _ _ _ _ _ HF (leaves_build_relation r parts))| |done].
    intros s _ [? HFs]. split; [|done]. split; [done|]. by apply HFs.
  - intros s (_ & _ & _ & _ & _ & W6 & _) [_ ->]. split; [done|].
    intros parts Hparts p Hp. apply elem_of_buckets in Hparts as [v Hv].
    specialize (W6 v parts Hv). rewrite Forall_forall in W6. by apply W6.
Qed.

Lemma leaves_clean_building_tags l :
  leaves n (λ _, True) (clean_building_tags l) (λ _ _, True).
Proof.
  unfold clean_building_tags.
  eapply leaves_bind.
  { apply leaves_read; [apply keeps_deref|].
    intros s a s' H. apply deref_inr in H. by destruct H. }
  intros o.
  destruct (tags o !! "building"), (tags o !! "building:part");
    try (by apply leaves_ret); try (apply leaves_pre_True, leaves_delete_tag).
  apply leaves_pre_True, leaves_rename.
Qed.

Lemma leaves_clean_up : leaves n (λ _, True) clean_up (λ _ _, True).
Proof.
  unfold clean_up.
  eapply leaves_bind.
  { apply leaves_read; [apply keeps_gets|].
    intros s a s' H. apply gets_inr in H. by destruct H. }
  intros ws. eapply leaves_bind.
  { apply leaves_pre_True, leaves_for_each. intros l _. apply leaves_clean_building_tags. }
  intros []. eapply leaves_bind.
  { apply leaves_read; [apply keeps_gets|].
    intros s a s' H. apply gets_inr in H. by destruct H. }
  intros rs.
  apply leaves_pre_True, leaves_for_each. intros l _. apply leaves_clean_building_tags.
Qed.

Lemma leaves_close : leaves n (λ _, True) close (λ _ _, True).
Proof.
  unfold close.
  eapply leaves_bind; [apply leaves_clean_up|]. intros [].
  eapply leaves_bind; [apply leaves_build_relations|]. intros r.
  by apply leaves_ret.
Qed.

End LeavesClose.

(** [close] leaves the input alone but for the tags of ways and relations:
    from a consistent state, whenever it returns, every object that was there
    has its identifier and its body (a node its coordinates, a way its nodes, a
    relation its members, none more and none less), and a node its tags too;
    every collection and the index by coordinates hold what they held, under
    the same keys, nothing replaced; the buckets and the parser's current
    element are the same. *)
Theorem close_leaves_the_input_alone s s' :
  wf s → close s = inr (tt, s') →
  (∀ l o, heap s !! l = Some o →
     ∃ o', heap s' !! l = Some o' ∧ osm_id o' = osm_id o ∧ obj_body o' = obj_body o
       ∧ (isinstance_Node o = true → o' = o))
  ∧ (∀ k i l, items k s !! i = Some l → items k s' !! i = Some l)
  ∧ (∀ κ l, nodes_by_lat_lon (st_nodes s) !! κ = Some l
        → nodes_by_lat_lon (st_nodes s') !! κ = Some l)
  ∧ bldgs s' = bldgs s
  ∧ primary_osm_element s' = primary_osm_element s.
Proof.
  intros Hwf Hclose.
  destruct (leaves_close (length (heap s)) s tt s' Hwf (le_n _) I Hclose)
    as (_ & _ & (_ & Hh & Hrest) & _).
  split; [|done]. intros l o Ho.
  destruct (Hh l o (lookup_lt_Some _ _ _ Ho) Ho) as (o' & Ho' & Hid & Hbody & Htags).
  exists o'. split; [done|]. split; [done|]. split; [done|].
  intros Hnode. destruct o, o'; simpl in *. rewrite Htags by done. congruence.
Qed.

(** ** The output *)








(** Writing one element. *)










End Proofs.

(** ** The theorems at concrete inputs *)

#[local] Existing Instance toy_runtime.


(** The worked example of the tag redistribution. *)
Lemma propagate_tags_spec_witness :
  ∃ s' o' e', propagate_tags 1 0 dome_state = inr (tt, s')
    ∧ heap s' !! 0%nat = Some o' ∧ heap s' !! 1%nat = Some e'
    ∧ tags e' !! "roof:shape" = Some "dome" ∧ tags e' !! "building" = Some "yes"
    ∧ tags e' !! "height" = None
    ∧ tags o' !! "height" = Some "10" ∧ tags o' !! "building:part" = Some "yes"
    ∧ tags o' !! "building" = None ∧ tags o' !! "roof:shape" = None.
Proof.
  destruct (propagate_tags_spec dome_state 1 0
              (Obj (IdStr "10")
                 (list_to_map [("height", "10"); ("building", "yes"); ("roof:shape", "dome")])
                 (BWay []))
              (Way (IdInt (-2))))
    as (s' & o' & e' & Hrun & Ho' & He' & _ & Hcopy & Hrest & Hkeep & Hdel & Hb & Hbp);
    [compute_done|compute_done|lia|compute_done|].
  exists s', o', e'. split; [exact Hrun|]. split; [exact Ho'|]. split; [exact He'|].
  split; [apply Hcopy; compute_done|].
  split; [apply Hcopy; compute_done|].
  split; [rewrite Hrest; [compute_done|right; compute_done]|].
  split; [rewrite Hkeep; compute_done|].
  split; [rewrite Hbp; compute_done|].
  split; [exact Hb|].
  apply Hdel; compute_done.
Defined.

(** The worked example, evaluated: the part ends with exactly [height] and
    [building:part], the outline with exactly [roof:shape] and [building]. *)
Example propagate_tags_dome :
  let r := propagate_tags 1 0 dome_state in
  tags <$> object_of r 0
    = Some (list_to_map [("height", "10"); ("building:part", "yes")])
  ∧ tags <$> object_of r 1
    = Some (list_to_map [("roof:shape", "dome"); ("building", "yes")]).
Proof. split; compute_done. Qed.

(** C10 fails as stated: joined by [building:part], the two parts (at the
    addresses 8 and 9) form the bucket "yes" and are consolidated into the
    relation at 10 with the outline at 11, yet both still carry the join tag
    afterwards and the outline does not. *)
Lemma join_tag_building_part_counterexample :
  let r := feed_and_close building_part_doc (init "building:part") in
  bucket_of r "yes" = Some (Some [8; 9]%nat)
  ∧ object_of r 10
    = Some (Obj (IdInt (-2)) {["type" := "building"]}
              (BRelation [(11, "outline"); (8, "part"); (9, "part")]%nat))
  ∧ tag_of r 8 "building:part" = Some (Some "yes")
  ∧ tag_of r 9 "building:part" = Some (Some "yes")
  ∧ tag_of r 11 "building:part" = Some None.
Proof. repeat split; compute_done. Qed.

(** With the join tag [bid] the same loop runs as the theorem says. *)
Lemma retag_parts_join_tag_witness :
  ∃ s', retag_parts 10 11 [8; 9]%nat
          (mkState
             (heap (loaded "bid" parts_doc)
              ++ [Relation (IdInt (-2)); Relation (IdInt (-3))])
             (st_nodes (loaded "bid" parts_doc)) (st_ways (loaded "bid" parts_doc))
             (st_relations (loaded "bid" parts_doc)) (bldgs (loaded "bid" parts_doc))
             "bid" None)
        = inr (tt, s')
    ∧ (∃ e', heap s' !! 11%nat = Some e' ∧ tags e' !! "bid" = Some "B1")
    ∧ ∀ p, p ∈ [8; 9]%nat →
        ∃ o', heap s' !! p = Some o' ∧ tags o' !! "bid" = None
          ∧ ∀ k, is_Some (tags o' !! k) → k ∈ ["height"; "type"; "building:part"].
Proof.
  apply (retag_parts_join_tag _ 10 11 [8; 9]%nat "bid" "B1");
    try compute_done.
  - exists (Relation (IdInt (-2))). split; compute_done.
  - intros p Hp. rewrite !elem_of_cons, elem_of_nil in Hp.
    destruct Hp as [->|[->|[]]].
    + exists (Obj (IdStr "10")
                (list_to_map [("bid", "B1"); ("building:part", "Yes"); ("height", "5")])
                (BWay [0; 1; 2; 3; 0]%nat)).
      repeat split; compute_done.
    + exists (Obj (IdStr "11")
                (list_to_map [("bid", "B1"); ("building", "yes"); ("roof:shape", "dome")])
                (BWay [4; 5; 6; 7; 4]%nat)).
      repeat split; compute_done.
Defined.

(** C8 fails as stated: the way "10" of [open_way_doc] (at address 3) runs
    from the node at (0, 0) to the node at (1, 1) and is not closed, yet
    [way_to_polygon] raises nothing and returns the polygon the constructor
    makes of the three points. *)
Lemma open_way_counterexample :
  let s := loaded "bid" open_way_doc in
  heap s !! 3%nat = Some (Obj (IdStr "10") ∅ (BWay [0; 1; 2]%nat))
  ∧ heap s !! 0%nat = Some (Node (IdStr "1") "0" "0")
  ∧ heap s !! 2%nat = Some (Node (IdStr "3") "1" "1")
  ∧ value_of (way_to_polygon 3 s)
    = Some (mkPolygon [(0, 0); (1, 0); (1, 1); (0, 0)] []).
Proof. repeat split; compute_done. Qed.

Lemma way_to_polygon_unchecked_witness :
  way_to_polygon 3 (loaded "bid" open_way_doc)
  = match Polygon [(0, 0); (1, 0); (1, 1)] with
    | inl e => inl e
    | inr p => inr (p, loaded "bid" open_way_doc)
    end.
Proof.
  apply (way_to_polygon_unchecked _ 3 (Obj (IdStr "10") ∅ (BWay [0; 1; 2]%nat))
           [0; 1; 2]%nat); [compute_done|reflexivity|].
  repeat constructor.
  - exists (Node (IdStr "1") "0" "0"), "0", "0". repeat split; compute_done.
  - exists (Node (IdStr "2") "0" "1"), "0", "1". repeat split; compute_done.
  - exists (Node (IdStr "3") "1" "1"), "1", "1". repeat split; compute_done.
Defined.

(** C9 fails as stated: [duplicates_doc] is read without any error, and the
    second node 1 (at address 1) and the second way 7 (at address 3) have
    taken the places of the first ones in the collections. *)
Lemma duplicate_identifier_counterexample :
  let r := for_each duplicates_doc handle (init "bid") in
  value_of r = Some tt
  ∧ object_of r 0 = Some (Node (IdStr "1") "0" "0")
  ∧ object_of r 1 = Some (Node (IdStr "1") "5" "5")
  ∧ element_of r KNode (IdStr "1") = Some (Some 1%nat)
  ∧ osm_id <$> object_of r 2 = Some (IdStr "7")
  ∧ osm_id <$> object_of r 3 = Some (IdStr "7")
  ∧ element_of r KWay (IdStr "7") = Some (Some 3%nat).
Proof. repeat split; compute_done. Qed.

Lemma add_replaces_witness :
  ∃ s1 s2,
    add KWay 0 (set_heap [Way (IdStr "7"); Way (IdStr "7")] (init "bid")) = inr (tt, s1)
    ∧ items KWay s1 !! IdStr "7" = Some 0%nat
    ∧ add KWay 1 s1 = inr (tt, s2)
    ∧ items KWay s2 !! IdStr "7" = Some 1%nat
    ∧ (∀ i, i ≠ IdStr "7"
         → items KWay s2 !! i
           = items KWay (set_heap [Way (IdStr "7"); Way (IdStr "7")] (init "bid")) !! i)
    ∧ heap s2 = [Way (IdStr "7"); Way (IdStr "7")].
Proof.
  apply (add_replaces KWay (set_heap [Way (IdStr "7"); Way (IdStr "7")] (init "bid"))
           0 1 (Way (IdStr "7")) (Way (IdStr "7"))); try reflexivity.
  - split; [compute_done|discriminate].
  - split; [compute_done|discriminate].
Defined.

(** C4 fails as stated: the ways of [parts_doc] have the identifiers 10 and
    11, and the first way [add_new] creates gets the identifier -2, not 9. *)
Lemma first_new_identifier_counterexample :
  let s := loaded "bid" parts_doc in
  ids_in_use KWay s = [11; 10]
  ∧ osm_id <$> object_of (add_new KWay "" "" s) (length (heap s)) = Some (IdInt (-2)).
Proof. split; compute_done. Qed.

Lemma add_new_identifiers_witness :
  let s := reached "bid" [CallConstructor (Way (IdStr "5")); CallAdd KWay 0%nat] in
  ∃ l s', add_new KWay "" "" s = inr (l, s')
    ∧ l = 1%nat ∧ heap s' = heap s ++ [Way (IdInt (-2))]
    ∧ ∀ calls' s2, for_each calls' call s' = inr (tt, s2) → lowest_in_use KWay s2 - 1 < -2.
Proof.
  intros s.
  destruct (add_new_identifiers "bid"
              [CallConstructor (Way (IdStr "5")); CallAdd KWay 0%nat] s KWay) as [_ Hnew];
    [exact eq_refl|].
  destruct (Hnew "" "") as (l & s' & Hrun & Hl & Hh & _ & _ & _ & _ & Hlater);
    [discriminate|].
  exists l, s'. split; [exact Hrun|]. split; [by rewrite Hl|].
  split; [by rewrite Hh|]. exact Hlater.
Defined.


(** The way "12" of [three_parts_doc], at address 10, is alone in its bucket
    while the ways at 8 and 9 are consolidated. *)
Lemma single_part_bucket_untouched_witness :
  let s := loaded "bid" three_parts_doc in
  bldgs s !! "B2" = Some [10%nat]
  ∧ bucket_of (close s) "B1" = Some (Some [8; 9]%nat)
  ∧ (∀ element s0, build_relation element [10%nat] s0 = inr (element, s0))
  ∧ ∃ s' s1, close s = inr (tt, s') ∧ clean_up s = inr (tt, s1)
      ∧ heap s' !! 10%nat = heap s1 !! 10%nat ∧ bldgs s' !! "B2" = Some [10%nat].
Proof.
  intros s.
  assert (Hb : bldgs s !! "B2" = Some [10%nat]) by compute_done.
  destruct (single_part_bucket_untouched s "B2" 10 Hb) as [Hnone Hclose].
  { change (map_Forall (λ _ parts, (1 < length parts)%nat → 10%nat ∉ parts) (bldgs s)).
    compute_done. }
  { compute_done. }
  split; [exact Hb|]. split; [compute_done|]. split; [exact Hnone|].
  assert (Hok : value_of (close s) = Some tt) by compute_done.
  destruct (close s) as [e|[[] s']] eqn:Hrun; [discriminate Hok|].
  destruct (Hclose s' eq_refl) as (Hb' & s1 & Hclean & Hm).
  exists s', s1. split; [reflexivity|]. split; [exact Hclean|]. split; [exact Hm|exact Hb'].
Defined.




(** The three encodings on concrete outlines: a plain closed way, a
    multipolygon relation with an inner way, and one flat multipolygon
    relation for a multipolygon. *)
Example add_outline_square :
  let r := add_outline 0%nat (GPolygon square) None relation_state in
  value_of r = Some 1%nat
  ∧ object_of r 1 = Some (Obj (IdInt (-2)) ∅ (BWay [2; 3; 4; 5; 2]%nat))
  ∧ object_of r 0
    = Some (Obj (IdInt (-2)) {["type" := "building"]} (BRelation [(1%nat, "outline")])).
Proof. repeat split; compute_done. Qed.

Example add_outline_courtyard :
  let r := add_outline 0%nat (GPolygon courtyard) None relation_state in
  value_of r = Some 1%nat
  ∧ object_of r 1
    = Some (Obj (IdInt (-3)) {["type" := "multipolygon"]}
              (BRelation [(2, "outer"); (7, "inner")]%nat))
  ∧ object_of r 2 = Some (Obj (IdInt (-2)) ∅ (BWay [3; 4; 5; 6; 3]%nat))
  ∧ object_of r 7 = Some (Obj (IdInt (-3)) ∅ (BWay [8; 9; 10; 11; 8]%nat)).
Proof. repeat split; compute_done. Qed.

Example add_outline_multipolygon :
  let r := add_outline 0%nat (GMultiPolygon [courtyard; annex]) None relation_state in
  value_of r = Some 1%nat
  ∧ object_of r 1
    = Some (Obj (IdInt (-3)) {["type" := "multipolygon"]}
              (BRelation [(2, "outer"); (7, "inner"); (12, "outer")]%nat))
  ∧ object_of r 0
    = Some (Obj (IdInt (-2)) {["type" := "building"]} (BRelation [(1%nat, "outline")])).
Proof. repeat split; compute_done. Qed.

(** A union that is neither a polygon nor a multipolygon is none of the three
    cases: no element is made, and with no earlier element to fall back on
    the run stops. *)
Example add_outline_other :
  value_of (add_outline 0%nat GOther None relation_state) = None.
Proof. compute_done. Qed.

(** ** Beyond the single steps, at concrete inputs *)

(** When the parser gets through a document, [loaded] is the state it
    reaches. *)
Lemma loaded_eq join doc :
  value_of (for_each doc handle (init join)) = Some tt →
  for_each doc handle (init join) = inr (tt, loaded join doc).
Proof.
  unfold loaded. by destruct (for_each doc handle (init join)) as [e|[[] s]].
Qed.

(** On the single part of [lone_part_doc], [close] is the clean-up pass. *)
Lemma close_without_work_witness :
  close (loaded "bid" lone_part_doc) = clean_up (loaded "bid" lone_part_doc).
Proof.
  apply close_without_work.
  change (map_Forall (λ _ parts, (length parts ≤ 1)%nat) (bldgs (loaded "bid" lone_part_doc))).
  compute_done.
Defined.

(** The building relation made of the two parts of [parts_doc]. *)
Lemma build_relation_members_witness :
  let s := loaded "bid" parts_doc in
  ∃ r s' e, build_relation None [8; 9]%nat s = inr (r, s') ∧ r = Some e
    ∧ heap s' !! 10%nat
      = Some (Obj (IdInt (-2)) {["type" := "building"]}
                (BRelation [(e, "outline"); (8, "part"); (9, "part")]%nat)).
Proof.
  intros s.
  assert (Hok : value_of (build_relation None [8; 9]%nat s) = Some (Some 11%nat))
    by compute_done.
  destruct (build_relation None [8; 9]%nat s) as [e|[r s']] eqn:Hrun; [discriminate Hok|].
  destruct (build_relation_members s None [8; 9]%nat r s') as (e & Hr & Hrel);
    [compute_done| |discriminate|exact Hrun|].
  { intros p Hp. rewrite !elem_of_cons, elem_of_nil in Hp.
    destruct Hp as [->|[->|[]]]; compute_done. }
  exists r, s', e. split; [reflexivity|]. split; [exact Hr|].
  assert (Hlen : length (heap s) = 10%nat) by compute_done.
  assert (Hlow : relations_lowest_id (st_relations s) - 1 = -2) by compute_done.
  rewrite Hlen, Hlow in Hrel. exact Hrel.
Defined.

(** The two parts of [conflict_state] disagree on [name]: the outline takes
    the name of the second, and no [height]. *)
Lemma outline_tags_last_part_wins_witness :
  ∃ s' e', retag_parts 2 3 [0; 1]%nat conflict_state = inr (tt, s')
    ∧ heap s' !! 3%nat = Some e'
    ∧ tags e' !! "name" = Some "south" ∧ tags e' !! "height" = None.
Proof.
  destruct (outline_tags_last_part_wins 2 3 [0; 1]%nat conflict_state (Way (IdInt (-2))))
    as (s' & e' & Hrun & He' & Hown & _ & Hlast); try compute_done.
  - exists (Relation (IdInt (-2))), []. split; compute_done.
  - intros p Hp. rewrite !elem_of_cons, elem_of_nil in Hp.
    destruct Hp as [->|[->|[]]].
    + exists (Obj (IdStr "1") (list_to_map [("name", "north"); ("height", "5")]) (BWay [])).
      split; compute_done.
    + exists (Obj (IdStr "2") (list_to_map [("name", "south")]) (BWay [])).
      split; compute_done.
  - exists s', e'. split; [exact Hrun|]. split; [exact He'|]. split.
    + apply (Hlast "name" "south" [0%nat] 1%nat
               (Obj (IdStr "2") (list_to_map [("name", "south")]) (BWay [])) []);
        try compute_done.
      intros q oq Hq. exact (False_ind _ (proj1 (elem_of_nil q) Hq)).
    + rewrite Hown; compute_done.
Defined.

(** The relation "20" of [members_doc], at address 5, has the triangle for
    its only member. *)
Lemma relation_to_polygons_lines_witness :
  relation_to_polygons 5 (loaded "bid" members_doc)
  = match polygonize [[(0, 0); (1, 0); (1, 1); (0, 0)]] with
    | inl e => inl e
    | inr ps => inr (ps, loaded "bid" members_doc)
    end.
Proof.
  apply (relation_to_polygons_lines _ 5 (Obj (IdStr "20") ∅ (BRelation [(4%nat, "outer")]))
           [(4%nat, "outer")]); [compute_done|reflexivity|].
  repeat constructor.
  exists (Obj (IdStr "10") ∅ (BWay [0; 1; 2; 0]%nat)), [0; 1; 2; 0]%nat.
  split; [compute_done|]. split; [reflexivity|].
  repeat constructor.
  - exists (Node (IdStr "1") "0" "0"), "0", "0". repeat split; compute_done.
  - exists (Node (IdStr "2") "0" "1"), "0", "1". repeat split; compute_done.
  - exists (Node (IdStr "3") "1" "1"), "1", "1". repeat split; compute_done.
  - exists (Node (IdStr "1") "0" "0"), "0", "0". repeat split; compute_done.
Defined.

(** The relation "21", at address 6, has the node "9" for a member as well. *)
Lemma relation_to_polygons_member_not_way_witness :
  relation_to_polygons 6 (loaded "bid" members_doc) = inl AttributeError.
Proof.
  apply (relation_to_polygons_member_not_way (R := toy_runtime) _ 6
           (Obj (IdStr "21") ∅ (BRelation [(4%nat, "outer"); (3%nat, "label")]))
           [(4%nat, "outer")] 3 "label" [] [[(0, 0); (1, 0); (1, 1); (0, 0)]]
           (Obj (IdStr "9") {["name" := "label"]} (BNode "5" "5")));
    [compute_done|reflexivity| |compute_done|reflexivity].
  repeat constructor.
  exists (Obj (IdStr "10") ∅ (BWay [0; 1; 2; 0]%nat)), [0; 1; 2; 0]%nat.
  split; [compute_done|]. split; [reflexivity|].
  repeat constructor.
  - exists (Node (IdStr "1") "0" "0"), "0", "0". repeat split; compute_done.
  - exists (Node (IdStr "2") "0" "1"), "0", "1". repeat split; compute_done.
  - exists (Node (IdStr "3") "1" "1"), "1", "1". repeat split; compute_done.
  - exists (Node (IdStr "1") "0" "0"), "0", "0". repeat split; compute_done.
Defined.


(** The state [parts_doc] leads to is consistent, and so is the one [close]
    makes of it. *)
Lemma reached_states_are_consistent_witness :
  wf (loaded "bid" parts_doc)
  ∧ ∃ s', close (loaded "bid" parts_doc) = inr (tt, s') ∧ wf s'.
Proof.
  destruct (reached_states_are_consistent "bid" parts_doc (loaded "bid" parts_doc))
    as [Hwf Hclose]; [apply loaded_eq; compute_done|].
  split; [exact Hwf|].
  assert (Hok : value_of (close (loaded "bid" parts_doc)) = Some tt) by compute_done.
  destruct (close (loaded "bid" parts_doc)) as [e|[[] s']] eqn:Hrun; [discriminate Hok|].
  exists s'. split; [reflexivity|]. by apply Hclose.
Defined.

(** From the eight nodes of [two_squares] on, through a way and [close]. *)
Lemma nothing_is_taken_away_witness :
  let s := loaded "bid" two_squares in
  let more := xml_way "10" ["1"; "2"; "3"; "4"; "1"] [("bid", "B1")] in
  ∃ s1 s2, for_each more handle s = inr (tt, s1) ∧ close s1 = inr (tt, s2)
    ∧ grows s s1 ∧ grows s1 s2.
Proof.
  intros s more.
  assert (Hok : value_of (for_each more handle s) = Some tt) by compute_done.
  destruct (for_each more handle s) as [e|[[] s1]] eqn:Hmore; [discriminate Hok|].
  assert (Hok2 : value_of (bind (for_each more handle) (λ _, close) s) = Some tt)
    by compute_done.
  unfold bind in Hok2. rewrite Hmore in Hok2.
  destruct (close s1) as [e|[[] s2]] eqn:Hclose; [discriminate Hok2|].
  destruct (nothing_is_taken_away "bid" two_squares s more s1) as [Hg1 Hg2];
    [apply loaded_eq; compute_done|exact Hmore|].
  exists s1, s2. split; [reflexivity|]. split; [exact Hclose|]. split; [exact Hg1|].
  by apply Hg2.
Defined.

(** The open way of [open_way_doc], at address 3. *)
Lemma way_to_polygon_reads_every_way_witness :
  ∃ pts, Forall2 (node_at (loaded "bid" open_way_doc)) [0; 1; 2]%nat pts
    ∧ way_to_polygon 3 (loaded "bid" open_way_doc)
      = match Polygon pts with
        | inl e => inl e
        | inr p => inr (p, loaded "bid" open_way_doc)
        end.
Proof.
  apply (way_to_polygon_reads_every_way _ 3 (Obj (IdStr "10") ∅ (BWay [0; 1; 2]%nat)));
    [|compute_done|reflexivity].
  apply (wf_loaded "bid" open_way_doc), loaded_eq. compute_done.
Defined.

(** The ring of [square] made into a way among the nodes of [two_squares],
    and read back. *)
Lemma points_to_way_and_back_witness :
  let s := loaded "bid" two_squares in
  ∃ s' pts', _points_to_way (exterior square) s = inr (length (heap s), s')
    ∧ Forall2 (λ pt pt', float_of_str (str_of_float pt.1) = Some pt'.1
                         ∧ float_of_str (str_of_float pt.2) = Some pt'.2)
        (exterior square) pts'
    ∧ way_to_polygon (length (heap s)) s'
      = match Polygon pts' with
        | inl e => inl e
        | inr p => inr (p, s')
        end.
Proof.
  intros s. apply points_to_way_and_back.
  apply (wf_loaded "bid" two_squares), loaded_eq. compute_done.
Defined.

(** A way with two nodes and the join tag, read after the nodes of
    [two_squares]: it is the object at address 8 and the only member of the
    bucket "B1". *)
Lemma element_is_loaded_witness :
  let s := loaded "bid" two_squares in
  ∃ s', for_each (element_events "way" [("id", "10"); ("version", "3")]
                    [CNd "1"; CNd "2"; CTag "bid" "B0"; CTag "bid" "B1"]) handle s
        = inr (tt, s')
    ∧ heap s' = heap s ++ [Obj (IdStr "10") {["bid" := "B1"]} (BWay [0; 1]%nat)]
    ∧ items KWay s' !! IdStr "10" = Some 8%nat
    ∧ bldgs s' !! "B1" = Some [8%nat]
    ∧ primary_osm_element s' = Some 8%nat.
Proof.
  intros s.
  destruct (element_is_loaded KWay s [("id", "10"); ("version", "3")]
              [CNd "1"; CNd "2"; CTag "bid" "B0"; CTag "bid" "B1"] "10" 10
              (BWay []) (BWay [0; 1]%nat))
    as (s' & Hrun & Hheap & Hitems & _ & _ & _ & Hbldgs & _ & Hprim);
    [compute_done|compute_done|reflexivity|compute_done|discriminate|].
  exists s'. split; [exact Hrun|].
  assert (Htags : child_tags [CNd "1"; CNd "2"; CTag "bid" "B0"; CTag "bid" "B1"] ∅
                  = ({["bid" := "B1"]} : gmap string string)) by compute_done.
  assert (Hlen : length (heap s) = 8%nat) by compute_done.
  rewrite Htags in Hheap, Hbldgs. rewrite Hlen in Hitems, Hbldgs, Hprim.
  split; [exact Hheap|]. split; [rewrite Hitems; apply lookup_insert_eq|].
  split; [|exact Hprim].
  assert (Hjoin : ({["bid" := "B1"]} : gmap string string) !! bldg_id_tag s = Some "B1")
    by compute_done.
  rewrite Hjoin in Hbldgs. rewrite Hbldgs, lookup_insert_eq.
  assert (Hnone : bldgs s !! "B1" = None) by compute_done.
  by rewrite Hnone.
Defined.

(** A way whose node has not been read. *)
Lemma dangling_reference_raises_witness :
  for_each (element_events "way" [("id", "10")] [CTag "bid" "B1"; CNd "1"; CNd "2"])
    handle (init "bid")
  = inl KeyError.
Proof.
  apply (dangling_reference_raises KWay (init "bid") [("id", "10")]
           [CTag "bid" "B1"] (CNd "1") [CNd "2"] "10" (BWay []) (BWay []));
    [compute_done|reflexivity|reflexivity|].
  split; [reflexivity|compute_done].
Defined.

(** [close] on the two parts of [parts_doc]: the ten objects read from the
    file keep their place, their identifier and what they refer to. *)
Lemma close_leaves_the_input_alone_witness :
  let s := loaded "bid" parts_doc in
  ∃ s', close s = inr (tt, s')
    ∧ (∀ l o, heap s !! l = Some o →
         ∃ o', heap s' !! l = Some o' ∧ osm_id o' = osm_id o ∧ obj_body o' = obj_body o
           ∧ (isinstance_Node o = true → o' = o))
    ∧ bldgs s' = bldgs s.
Proof.
  intros s.
  assert (Hok : value_of (close s) = Some tt) by compute_done.
  destruct (close s) as [e|[[] s']] eqn:Hrun; [discriminate Hok|].
  destruct (close_leaves_the_input_alone s s') as (Hheap & _ & _ & Hbldgs & _);
    [apply (wf_loaded "bid" parts_doc), loaded_eq; compute_done|exact Hrun|].
  exists s'. split; [reflexivity|]. split; [exact Hheap|exact Hbldgs].
Defined.



